(** * CEASIOMpy: the optimisation routine and the module metadata

    A shallow embedding of [ceasiompy/Optimisation/optimisation.py] and of
    [ceasiompy/SkinFriction/__specs__.py].

    Conventions of the embedding:
    - the values of the histories are Python [float]s, that is IEEE 754
      binary64 numbers, here primitive [float]s; [+ - * /] and unary minus
      are the binary64 operations, and [/] raises [ZeroDivisionError] on a
      zero divisor as Python does;
    - a Python [dict] keeps its insertion order, which [.items()] follows:
      the two variable dictionaries are association lists; the namespace of
      a frame, where order plays no role, is a [gmap];
    - an entry of a variable dictionary is a tuple whose second component is
      the history list, owned by that entry; [listval.append(x)] is the
      entry with its history extended;
    - a raised exception is an outcome [Raise e]; the module globals [Rt],
      [counter], [design_var_dict] and [res_var_dict] are threaded as an
      explicit state, which a raised exception does not roll back;
    - the imported functions are parameters that act on an outer world;
    - the optimisation framework is a parameter as well: a call that hands
      it a name or a value of this program may be refused, and which call
      it refuses, given the calls it has accepted, is its own business;
      calls whose arguments are constants of the source ([add_subsystem],
      the construction of a driver, [options['maxiter'] = 10],
      [add_recorder], [declare_partials], [cleanup]) return;
    - calls to the logger do not touch the state of the program and are
      left out. *)

From Stdlib Require Import Floats.PrimFloat.
From Stdlib Require Floats.SpecFloat Floats.FloatOps.
From Stdlib Require Import ZArith Ascii String Bool Lia.
From stdpp Require Import gmap strings list pretty.

Set Warnings "-inexact-float".
Local Open Scope string_scope.
Local Open Scope list_scope.

(** ** Outcomes of Python code *)

(** The exceptions the modelled code can raise.  [OtherError] carries the
    errors of the collaborating modules, which the source never inspects. *)
Inductive exn : Type :=
| SyntaxError
| KeyError (key : string)
| IndexError
| NameError (name : string)
| UnboundLocalError (name : string)
| TypeError
| ValueError
| OverflowError
| RuntimeError
| ZeroDivisionError
| PathNotFoundError (path : string)
| OtherError (msg : string).

(** [Unmodelled] marks the inputs on which Python's parser does something
    this embedding does not follow (targets of an assignment that are not a
    plain name, expressions beyond names joined by the four operators). *)
Inductive outcome (A : Type) : Type :=
| Return (a : A)
| Raise (e : exn)
| Unmodelled.
Arguments Return {A} a.
Arguments Raise {A} e.
Arguments Unmodelled {A}.

Definition obind {A B} (m : outcome A) (k : A -> outcome B) : outcome B :=
  match m with
  | Return a => k a
  | Raise e => Raise e
  | Unmodelled => Unmodelled
  end.

Declare Scope py_scope.
Delimit Scope py_scope with py.
Notation "x <~ m ; k" := (obind m (fun x => k))
  (at level 20, m at level 100, k at level 200, only parsing) : py_scope.
Local Open Scope py_scope.

Definition raises {A} (m : outcome A) : Prop := exists e, m = Raise e.

(** ** The variable dictionaries *)

(** Values of [design_var_dict]:
    [(name, listval, minval, maxval, setcommand, getcommand)]. *)
Record design_var : Type := DesignVar {
  dv_name : string;
  dv_listval : list float;
  dv_minval : float;
  dv_maxval : float;
  dv_setcommand : string;
  dv_getcommand : string
}.

(** Values of [res_var_dict]:
    [(name, listval, lower_bound, upper_bound, getcommand)]. *)
Record res_var : Type := ResVar {
  rv_name : string;
  rv_listval : list float;
  rv_lower_bound : float;
  rv_upper_bound : float;
  rv_getcommand : string
}.

(** An insertion-ordered dictionary with string keys. *)
Definition odict (V : Type) : Type := list (string * V).

Fixpoint dict_get {V} (d : odict V) (k : string) : option V :=
  match d with
  | [] => None
  | (k', v) :: d' => if String.eqb k' k then Some v else dict_get d' k
  end.

Definition dict_keys {V} (d : odict V) : list string := map fst d.

(** A Python dictionary holds each key once. *)
Definition dict_wf {V} (d : odict V) : Prop := NoDup (dict_keys d).

(** [listval[0]] and [listval[-1]]. *)
Definition list_first {A} (l : list A) : outcome A :=
  match l with
  | [] => Raise IndexError
  | x :: _ => Return x
  end.

Definition list_last {A} (l : list A) : outcome A :=
  match last l with
  | None => Raise IndexError
  | Some x => Return x
  end.

(** [int(x)] on a float: the integer part, rounded towards zero; a NaN
    raises [ValueError] and an infinity [OverflowError]. *)
Definition py_int (x : float) : outcome Z :=
  match FloatOps.Prim2SF x with
  | SpecFloat.S754_zero _ => Return 0%Z
  | SpecFloat.S754_infinity _ => Raise OverflowError
  | SpecFloat.S754_nan => Raise ValueError
  | SpecFloat.S754_finite s m e =>
      let n := if (0 <=? e)%Z then (Z.pos m * 2 ^ e)%Z
               else (Z.pos m / 2 ^ (- e))%Z in
      Return (if s then (- n)%Z else n)
  end.

(** ** [re.split('[+*/-]', s)] *)

Inductive binop : Type := Add | Sub | Mul | Div.

Definition op_of_ascii (c : ascii) : option binop :=
  if Ascii.eqb c "+" then Some Add
  else if Ascii.eqb c "-" then Some Sub
  else if Ascii.eqb c "*" then Some Mul
  else if Ascii.eqb c "/" then Some Div
  else None.

(** The pieces between the matches, empty pieces included. *)
Fixpoint splt (s : string) : list string :=
  match s with
  | EmptyString => [EmptyString]
  | String c s' =>
      match op_of_ascii c with
      | Some _ => EmptyString :: splt s'
      | None =>
          match splt s' with
          | [] => [String c EmptyString]
          | t :: ts => String c t :: ts
          end
      end
  end.

(** The matches themselves, in order. *)
Fixpoint operators (s : string) : list binop :=
  match s with
  | EmptyString => []
  | String c s' =>
      match op_of_ascii c with
      | Some o => o :: operators s'
      | None => operators s'
      end
  end.

Definition is_Some_op (c : ascii) : bool :=
  match op_of_ascii c with Some _ => true | None => false end.

Definition ascii_of_op (o : binop) : ascii :=
  match o with
  | Add => "+"
  | Sub => "-"
  | Mul => "*"
  | Div => "/"
  end%char.

(** The pieces put back around the matches. *)
Fixpoint rejoin (ts : list string) (ops : list binop) : string :=
  match ts with
  | [] => EmptyString
  | t :: ts' =>
      match ops with
      | [] => t
      | o :: ops' => t +:+ String (ascii_of_op o) (rejoin ts' ops')
      end
  end.

(** ** The fragment of Python that [compute_obj] executes *)

Definition is_digit (c : ascii) : bool :=
  let n := nat_of_ascii c in (48 <=? n)%nat && (n <=? 57)%nat.

Definition is_ident_start (c : ascii) : bool :=
  let n := nat_of_ascii c in
  ((65 <=? n)%nat && (n <=? 90)%nat)
  || ((97 <=? n)%nat && (n <=? 122)%nat)
  || (n =? 95)%nat.

Definition is_ident_char (c : ascii) : bool := is_ident_start c || is_digit c.

Fixpoint string_forall (p : ascii -> bool) (s : string) : bool :=
  match s with
  | EmptyString => true
  | String c s' => p c && string_forall p s'
  end.

Definition is_identifier (s : string) : bool :=
  match s with
  | EmptyString => false
  | String c s' => is_ident_start c && string_forall is_ident_char s'
  end.

(** Reserved words of every Python from 3.6 on, with the name [__debug__]
    that no assignment may target. *)
Definition keywords : list string :=
  ["False"; "None"; "True"; "and"; "as"; "assert"; "break"; "class";
   "continue"; "def"; "del"; "elif"; "else"; "except"; "finally"; "for";
   "from"; "global"; "if"; "import"; "in"; "is"; "lambda"; "nonlocal";
   "not"; "or"; "pass"; "raise"; "return"; "try"; "while"; "with"; "yield";
   "__debug__"].

(** Reserved from Python 3.7 on only. *)
Definition late_keywords : list string := ["async"; "await"].

Definition mem_string (s : string) (l : list string) : bool :=
  existsb (String.eqb s) l.

Inductive token_class : Type :=
| TokName       (* a plain name: can be bound and evaluated *)
| TokInvalid    (* nothing an assignment can target: SyntaxError *)
| TokOther.     (* not followed by the embedding *)

Definition classify (t : string) : token_class :=
  match t with
  | EmptyString => TokInvalid
  | _ =>
      if string_forall is_digit t then TokInvalid
      else if mem_string t keywords then TokInvalid
      else if mem_string t late_keywords then TokOther
      else if is_identifier t then TokName
      else TokOther
  end.

Definition is_name (t : string) : bool :=
  match classify t with TokName => true | _ => false end.

(** Objects a local name of [compute_obj] can be bound to. *)
Inductive pyval : Type :=
| PyFloat (x : float)
| PyStr (s : string)
| PyList (l : list string).

(** The dictionary behind [locals()] of the running frame. *)
Abbreviation namespace := (gmap string pyval).

(** [locals()], which [exec] and [eval] call when given no namespace, copies
    the frame's own variables into that dictionary: [var_list] and [v] with
    their current values, while [result], still unbound, is removed.  Other
    entries stay, so that a name bound by one [exec] is seen by the next
    [exec] and by [eval] (CPython up to 3.12, the interpreters the module
    was written for). *)
Definition locals (var_list : list string) (v : option string)
    (ns : namespace) : namespace :=
  let ns1 := <["var_list" := PyList var_list]> (delete "result" ns) in
  match v with
  | Some s => <["v" := PyStr s]> ns1
  | None => delete "v" ns1
  end.

(** [exec('{} = res_var_dict["{}"][1][-1]'.format(v, v))] in namespace [ns]:
    the statement is compiled, then the right-hand side is evaluated
    ([res_var_dict] is looked up in [ns] before the module globals), then
    the name is bound in [ns]. *)
Definition exec_assign (res_var_dict : odict res_var) (v : string)
    (ns : namespace) : outcome namespace :=
  match classify v with
  | TokInvalid => Raise SyntaxError
  | TokOther => Unmodelled
  | TokName =>
      match ns !! "res_var_dict" with
      | Some _ => Raise TypeError
      | None =>
          match dict_get res_var_dict v with
          | None => Raise (KeyError v)
          | Some entry =>
              x <~ list_last (rv_listval entry);
              Return (<[v := PyFloat x]> ns)
          end
      end
  end.

(** Arithmetic expressions over names, as Python's grammar groups them:
    [arith_expr: term (('+'|'-') term)*], [term: atom (('*'|'/') atom)*]. *)
Inductive expr : Type :=
| Var (x : string)
| Bin (l : expr) (o : binop) (r : expr).

Definition is_additive (o : binop) : bool :=
  match o with Add | Sub => true | Mul | Div => false end.

Definition close_sum (acc : option (expr * binop)) (term : expr) : expr :=
  match acc with
  | None => term
  | Some (s, o) => Bin s o term
  end.

Fixpoint group (acc : option (expr * binop)) (term : expr)
    (rest : list (binop * string)) : expr :=
  match rest with
  | [] => close_sum acc term
  | (o, t) :: rest' =>
      if is_additive o
      then group (Some (close_sum acc term, o)) (Var t) rest'
      else group acc (Bin term o (Var t)) rest'
  end.

(** The tokens of [s] joined by its operators. *)
Definition token_expr (s : string) : expr :=
  match splt s with
  | [] => Var EmptyString
  | t :: ts => group None (Var t) (combine (operators s) ts)
  end.

(** Parsing is followed on names joined by single operator characters. *)
Definition parse_expr (s : string) : option expr :=
  if forallb is_name (splt s) then Some (token_expr s) else None.

Definition float_is_zero (x : float) : bool := PrimFloat.eqb x 0%float.

Definition float_binop (o : binop) (x y : float) : outcome float :=
  match o with
  | Add => Return (PrimFloat.add x y)
  | Sub => Return (PrimFloat.sub x y)
  | Mul => Return (PrimFloat.mul x y)
  | Div => if float_is_zero y then Raise ZeroDivisionError
           else Return (PrimFloat.div x y)
  end.

Definition py_binop (o : binop) (a b : pyval) : outcome pyval :=
  match a, b with
  | PyFloat x, PyFloat y => z <~ float_binop o x y; Return (PyFloat z)
  | PyStr s, PyStr t =>
      match o with Add => Return (PyStr (s +:+ t)) | _ => Raise TypeError end
  | PyList l, PyList m =>
      match o with Add => Return (PyList (l ++ m)) | _ => Raise TypeError end
  | _, _ => Raise TypeError
  end.

(** Operands are evaluated left to right.  A name missing from the local
    namespace would be looked up among globals and builtins, which the
    embedding does not hold. *)
Fixpoint eval_expr (ns : namespace) (e : expr) : outcome pyval :=
  match e with
  | Var x =>
      match ns !! x with
      | Some a => Return a
      | None => if String.eqb x "result" then Raise (NameError x)
                else Unmodelled
      end
  | Bin l o r =>
      a <~ eval_expr ns l;
      b <~ eval_expr ns r;
      py_binop o a b
  end.

(** [eval(Rt.objective)] *)
Definition py_eval (src : string) (ns : namespace) : outcome pyval :=
  match parse_expr src with
  | Some e => eval_expr ns e
  | None => Unmodelled
  end.

(** [-result] *)
Definition py_neg (a : pyval) : outcome float :=
  match a with
  | PyFloat x => Return (PrimFloat.opp x)
  | _ => Raise TypeError
  end.

(** ** [compute_obj] *)

(** The [for v in var_list] loop. *)
Fixpoint bind_tokens (res_var_dict : odict res_var) (var_list : list string)
    (todo : list string) (ns : namespace) : outcome namespace :=
  match todo with
  | [] => Return ns
  | v :: todo' =>
      ns' <~ exec_assign res_var_dict v (locals var_list (Some v) ns);
      bind_tokens res_var_dict var_list todo' ns'
  end.

Definition compute_obj (objective : string) (res_var_dict : odict res_var)
    : outcome float :=
  let var_list := splt objective in
  ns <~ bind_tokens res_var_dict var_list var_list ∅;
  result <~ py_eval objective (locals var_list (last var_list) ns);
  py_neg result.

(** ** The evaluator as the specification words it

    The expression is split on the operator characters, each token stands
    for [ResultVariableDict[token].history[-1]], the arithmetic expression
    is evaluated with those bindings and the result is negated. *)

Definition last_value (d : odict res_var) (t : string) : option float :=
  match dict_get d t with
  | Some entry => last (rv_listval entry)
  | None => None
  end.

Fixpoint eval_arith (env : string -> option float) (e : expr)
    : outcome float :=
  match e with
  | Var x =>
      match env x with
      | Some a => Return a
      | None => Raise (KeyError x)
      end
  | Bin l o r =>
      a <~ eval_arith env l;
      b <~ eval_arith env r;
      float_binop o a b
  end.

Definition spec_objective (objective : string) (d : odict res_var)
    : outcome float :=
  v <~ eval_arith (last_value d) (token_expr objective);
  Return (PrimFloat.opp v).

(** The names of [compute_obj]'s own frame and the global its generated
    statements read. *)
Definition frame_names : list string :=
  ["var_list"; "v"; "result"; "res_var_dict"].

Definition bindable (t : string) : Prop :=
  is_name t = true /\ t ∉ frame_names.

Fixpoint vars (e : expr) : list string :=
  match e with
  | Var x => [x]
  | Bin l _ r => vars l ++ vars r
  end.

(** ** The module globals and the collaborators *)

(** [Rt = opf.Routine] with the attributes [routine_setup] assigns. *)
Record Routine : Type := mkRoutine {
  Rt_type : string;
  Rt_modules : list string;
  Rt_driver : string;
  Rt_objective : string;
  Rt_date : string
}.

(** The driver [run_routine] installs in the problem:
    [om.DOEDriver(om.UniformGenerator(num_samples=...))] or
    [om.ScipyOptimizeDriver()] with its options [optimizer] and [maxiter]. *)
Inductive driver : Type :=
| DOEDriver (num_samples : nat)
| ScipyOptimizeDriver (optimizer : string) (maxiter : nat).

(** A call that hands the optimisation framework a name or a value of this
    program; each constructor is one call of the source. *)
Inductive om_call : Type :=
| SetOptimizer (optimizer : string)
    (* driver.options['optimizer'] = optimizer *)
| IndepsAddOutput (name : string) (val : float) (ref : Z)
    (* indeps.add_output(name, val, ref=ref, ref0=0) *)
| Connect (source target : string)
    (* model.connect(source, target) *)
| AddDesignVar (name : string) (lower upper : float)
    (* model.add_design_var(name, lower=lower, upper=upper) *)
| AddConstraint (name : string) (lower upper : float)
    (* model.add_constraint(name, lower, upper) *)
| AddObjective (name : string)
    (* model.add_objective(name) *)
| AddInput (name : string) (val : float)
    (* self.add_input(name, val=val), in the setup of a component *)
| AddOutput (name : string) (val : option float).
    (* self.add_output(name) and self.add_output(name, val=val) *)

(** The calls the framework has accepted, oldest first: on a problem since
    [om.Problem()], on a component since its [setup] began. *)
Definition registry : Type := list om_call.

(** A call into code outside this module: it acts on the outer world
    (files, XML documents, sub-processes) and returns or raises. *)
Definition ext (W A : Type) : Type := W -> outcome A * W.

(** The functions this module imports.  Their code is not part of the
    embedding: each is a parameter that acts on the outer world and returns
    or raises as it likes.  They see the module's globals only through
    their arguments ([update_cpacs_file] is handed [design_var_dict], whose
    values it applies to the document). *)
Class Collaborators : Type := {
  world : Type;
  tixi : Type;
  aeromap : Type;
  (* ceasiompy.utils.moduleinterfaces *)
  get_toolinput_file_path : string -> ext world string;
  get_tooloutput_file_path : string -> ext world string;
  (* ceasiompy.utils.cpacsfunctions and the document handle *)
  open_tixi : string -> ext world tixi;
  close_tixi : tixi -> string -> ext world unit;
  get_value : tixi -> string -> ext world string;
  updateTextElement : tixi -> string -> string -> ext world unit;
  (* ceasiompy.utils.ceasiompyfunctions *)
  create_new_wkdir : string -> ext world string;
  (* ceasiompy.utils.apmfunctions *)
  get_aeromap : tixi -> string -> ext world aeromap;
  delete_aeromap : tixi -> string -> ext world unit;
  create_empty_aeromap : tixi -> string -> string -> ext world unit;
  save_parameters : tixi -> string -> aeromap -> ext world unit;
  (* ceasiompy.CPACSUpdater.cpacsupdater *)
  update_cpacs_file :
    string -> string -> odict design_var -> ext world unit;
  (* ceasiompy.utils.workflowfunctions *)
  copy_module_to_module : string -> string -> string -> string -> ext world unit;
  run_subworkflow : list string -> ext world unit;
  (* ceasiompy.Optimisation.func.dictionnary *)
  init_dict : string -> ext world (odict res_var * odict design_var);
  read_result : tixi -> string -> ext world float;
  (* ceasiompy.utils.optimfunctions *)
  read_results : ext world unit;
  (* datetime.datetime.now().strftime('%Y-%m-%d_%H-%M-%S') *)
  now_strftime : ext world string;
  (* numpy.log10 *)
  np_log10 : float -> float;
  (* openmdao: the exception with which the framework refuses a call, given
     the calls it has accepted so far; [None] when it accepts the call *)
  om_refuses : registry -> om_call -> option exn;
  (* openmdao: the number of evaluations of the model after which the
     driver has stopped at the latest; how a number of samples or an
     iteration cap translates into evaluations is the driver's business *)
  max_evaluations : driver -> nat;
  (* the point the driver of the optimisation framework tries next, given
     the outputs of the evaluations so far; [None] when it stops *)
  driver_next :
    driver -> list (gmap string float * gmap string float) ->
    option (string -> float)
}.

(** Which component computes ran, oldest first.  The trace is observation
    only: no modelled code reads it. *)
Inductive event : Type :=
| ObjectiveComputed
| ConstraintComputed.

Section Optimisation.
Context `{C : Collaborators}.

Record state : Type := mkState {
  Rt : Routine;
  counter : Z;
  design_var_dict : odict design_var;
  res_var_dict : odict res_var;
  env : world;
  trace : list event
}.

Definition set_Rt (r : Routine) (st : state) : state :=
  mkState r (counter st) (design_var_dict st) (res_var_dict st) (env st)
    (trace st).
Definition set_counter (n : Z) (st : state) : state :=
  mkState (Rt st) n (design_var_dict st) (res_var_dict st) (env st) (trace st).
Definition set_design_var_dict (d : odict design_var) (st : state) : state :=
  mkState (Rt st) (counter st) d (res_var_dict st) (env st) (trace st).
Definition set_res_var_dict (d : odict res_var) (st : state) : state :=
  mkState (Rt st) (counter st) (design_var_dict st) d (env st) (trace st).
Definition set_env (w : world) (st : state) : state :=
  mkState (Rt st) (counter st) (design_var_dict st) (res_var_dict st) w
    (trace st).
Definition set_trace (t : list event) (st : state) : state :=
  mkState (Rt st) (counter st) (design_var_dict st) (res_var_dict st) (env st)
    t.

(** Code that reads and writes the module globals and may raise.  The
    state at the moment of the exception is the state that remains. *)
Definition M (A : Type) : Type := state -> outcome A * state.

Definition ret {A} (a : A) : M A := fun st => (Return a, st).

Definition bind {A B} (m : M A) (k : A -> M B) : M B :=
  fun st =>
    match m st with
    | (Return a, st') => k a st'
    | (Raise e, st') => (Raise e, st')
    | (Unmodelled, st') => (Unmodelled, st')
    end.

Definition lift {A} (o : outcome A) : M A := fun st => (o, st).
Definition gets {A} (f : state -> A) : M A := fun st => (Return (f st), st).
Definition modify (f : state -> state) : M unit :=
  fun st => (Return tt, f st).
Definition call {A} (f : ext world A) : M A :=
  fun st => let (r, w) := f (env st) in (r, set_env w st).
Definition emit (e : event) : M unit :=
  modify (fun st => set_trace (trace st ++ [e]) st).

End Optimisation.

Declare Scope pym_scope.
Delimit Scope pym_scope with pym.
Notation "x <- m ; k" := (bind m (fun x => k))
  (at level 20, m at level 100, k at level 200, only parsing) : pym_scope.

(** Code that registers with the framework: it extends the list of the
    calls the framework has accepted and may raise; what was accepted
    before an exception stays accepted. *)
Definition Reg (A : Type) : Type := registry -> outcome A * registry.

Definition reg_ret {A} (a : A) : Reg A := fun log => (Return a, log).

Definition reg_bind {A B} (m : Reg A) (k : A -> Reg B) : Reg B :=
  fun log =>
    match m log with
    | (Return a, log') => k a log'
    | (Raise e, log') => (Raise e, log')
    | (Unmodelled, log') => (Unmodelled, log')
    end.

Definition reg_lift {A} (o : outcome A) : Reg A := fun log => (o, log).

Declare Scope reg_scope.
Delimit Scope reg_scope with reg.
Notation "x <- m ; k" := (reg_bind m (fun x => k))
  (at level 20, m at level 100, k at level 200, only parsing) : reg_scope.

(** What a piece of registering code has declared when run on a fresh
    object; nothing once it has raised. *)
Definition declared {A} (m : Reg A) : outcome registry :=
  match m [] with
  | (Return _, log) => Return log
  | (Raise e, _) => Raise e
  | (Unmodelled, _) => Unmodelled
  end.

(** The ports among the calls a component has made in its [setup]: named
    inputs with their initial value, named outputs with theirs ([None]: the
    framework's default). *)
Definition port_inputs (ps : registry) : list (string * float) :=
  omap (fun c => match c with AddInput n x => Some (n, x) | _ => None end) ps.

Definition port_outputs (ps : registry) : list (string * option float) :=
  omap (fun c => match c with AddOutput n v => Some (n, v) | _ => None end) ps.

(** The constraints among the calls made on a problem. *)
Definition constraints (log : registry) : list (string * float * float) :=
  omap (fun c => match c with
                 | AddConstraint n lo hi => Some (n, lo, hi)
                 | _ => None
                 end) log.

(** The output vectors of the objective and of the constraint component. *)
Abbreviation vectors := (gmap string float * gmap string float)%type.

Section Routine.
Context `{C : Collaborators}.
Local Open Scope pym_scope.

Definition SU2_XPATH : string :=
  "/cpacs/toolspecific/CEASIOMpy/aerodynamics/su2".

(** *** [update_res_var_dict] *)

Definition rv_append (x : float) (rv : res_var) : res_var :=
  ResVar (rv_name rv) (rv_listval rv ++ [x]) (rv_lower_bound rv)
    (rv_upper_bound rv) (rv_getcommand rv).

(** Modelled from the spec: [update_res_var_dict] of
    [ceasiompy/Optimisation/func/dictionnary.py], which is not among the
    sources.  For every entry of the result dictionary, in order, it reads
    the current value at the entry's get path from the result document
    and appends it to the history; a missing path raises, and the entries
    before it keep the value already appended. *)
Fixpoint update_entries (tx : tixi) (d : odict res_var) (w : world)
    : outcome unit * odict res_var * world :=
  match d with
  | [] => (Return tt, [], w)
  | (key, rv) :: rest =>
      match read_result tx (rv_getcommand rv) w with
      | (Return x, w') =>
          let '(r, rest', w'') := update_entries tx rest w' in
          (r, (key, rv_append x rv) :: rest', w'')
      | (Raise e, w') => (Raise e, (key, rv) :: rest, w')
      | (Unmodelled, w') => (Unmodelled, (key, rv) :: rest, w')
      end
  end.

Definition update_res_var_dict (tx : tixi) : M unit :=
  fun st =>
    let '(r, d, w) := update_entries tx (res_var_dict st) (env st) in
    (r, set_env w (set_res_var_dict d st)).

(** *** [one_iteration] *)

(** The body of [one_iteration] up to the point where the result document
    of the last module is open: the update of the CPACS file, the run of
    the module chain and the hand-over of its output. *)
Definition module_chain : M tixi :=
  _ <- modify (fun st => set_counter (counter st + 1) st);
  cpacs_path <- call (get_toolinput_file_path "CPACSUpdater");
  cpacs_out_path <- call (get_tooloutput_file_path "CPACSUpdater");
  tx <- call (open_tixi cpacs_path);
  date <- gets (fun st => Rt_date (Rt st));
  wkdir_path <- call (create_new_wkdir date);
  _ <- call (updateTextElement tx
          "/cpacs/toolspecific/CEASIOMpy/filesPath/wkdirPath" wkdir_path);
  aeromap_uid <- call (get_value tx (SU2_XPATH +:+ "/aeroMapUID"));
  Coef <- call (get_aeromap tx aeromap_uid);
  _ <- call (delete_aeromap tx aeromap_uid);
  _ <- call (create_empty_aeromap tx aeromap_uid "test_optim");
  _ <- call (save_parameters tx aeromap_uid Coef);
  _ <- call (close_tixi tx cpacs_path);
  dvd <- gets design_var_dict;
  _ <- call (update_cpacs_file cpacs_path cpacs_out_path dvd);
  n <- gets counter;
  _ <- (if (n mod 1 =? 0)%Z
   then call (copy_module_to_module "CPACSUpdater" "out" "Optimisation"
                ("iter_" +:+ pretty n))
   else ret tt);
  modules <- gets (fun st => Rt_modules (Rt st));
  first_module <- lift (list_first modules);
  _ <- call (copy_module_to_module "CPACSUpdater" "out" first_module "in");
  _ <- call (run_subworkflow modules);
  last_module <- lift (list_last modules);
  _ <- call (copy_module_to_module last_module "out" "CPACSUpdater" "in");
  last_module' <- lift (list_last modules);
  cpacs_results_path <- call (get_tooloutput_file_path last_module');
  call (open_tixi cpacs_results_path).

(** The call [compute_obj()], which reads the globals [Rt.objective] and
    [res_var_dict]. *)
Definition compute_obj_global : M float :=
  objective <- gets (fun st => Rt_objective (Rt st));
  rvd <- gets res_var_dict;
  lift (compute_obj objective rvd).

Definition one_iteration : M float :=
  tx <- module_chain;
  _ <- update_res_var_dict tx;
  compute_obj_global.

(** *** The two components *)

Definition dv_append (x : float) (dv : design_var) : design_var :=
  DesignVar (dv_name dv) (dv_listval dv ++ [x]) (dv_minval dv) (dv_maxval dv)
    (dv_setcommand dv) (dv_getcommand dv).

(** [for key, (...) in design_var_dict.items():
       listval.append(inputs[key][0])] *)
Definition append_inputs (inputs : string -> float) (d : odict design_var)
    : odict design_var :=
  map (fun kv => (kv.1, dv_append (inputs kv.1) kv.2)) d.

(** One call into the framework: refused with the framework's exception,
    or accepted and recorded. *)
Definition register (c : om_call) : Reg unit :=
  fun log =>
    match om_refuses log c with
    | Some e => (Raise e, log)
    | None => (Return tt, log ++ [c])
    end.

(** [for key, (...) in design_var_dict.items():
       self.add_input(key, val=listval[0])] *)
Fixpoint add_inputs (d : odict design_var) : Reg unit :=
  match d with
  | [] => reg_ret tt
  | (key, dv) :: rest =>
      (x <- reg_lift (list_first (dv_listval dv));
       _ <- register (AddInput key x);
       add_inputs rest)%reg
  end.

(** [objective_function.setup], which returns what it has declared. *)
Definition objective_setup : M registry :=
  dvd <- gets design_var_dict;
  objective <- gets (fun st => Rt_objective (Rt st));
  lift (declared (_ <- add_inputs dvd;
                  register (AddOutput objective None))%reg).

(** [objective_function.compute]; [inputs key] stands for
    [inputs[key][0]], [outputs] for the component's output vector.  The
    first line records the call in the trace. *)
Definition objective_compute (inputs : string -> float)
    (outputs : gmap string float) : M (gmap string float) :=
  _ <- emit ObjectiveComputed;
  _ <- modify (fun st =>
    set_design_var_dict (append_inputs inputs (design_var_dict st)) st);
  r <- one_iteration;
  objective <- gets (fun st => Rt_objective (Rt st));
  ret (<[objective := r]> outputs).

(** [for key, (name, listval, ...) in res_var_dict.items():
       self.add_output(name, val=listval[0])] *)
Fixpoint add_outputs (d : odict res_var) : Reg unit :=
  match d with
  | [] => reg_ret tt
  | (key, rv) :: rest =>
      (x <- reg_lift (list_first (rv_listval rv));
       _ <- register (AddOutput (rv_name rv) (Some x));
       add_outputs rest)%reg
  end.

(** [constraint.setup], which returns what it has declared. *)
Definition constraint_setup : M registry :=
  rvd <- gets res_var_dict;
  lift (declared (add_outputs rvd)).

Fixpoint set_outputs (d : odict res_var) (outputs : gmap string float)
    : outcome (gmap string float) :=
  match d with
  | [] => Return outputs
  | (key, rv) :: rest =>
      x <~ list_last (rv_listval rv);
      set_outputs rest (<[rv_name rv := x]> outputs)
  end.

(** [constraint.compute]; the first line records the call in the trace. *)
Definition constraint_compute (outputs : gmap string float)
    : M (gmap string float) :=
  _ <- emit ConstraintComputed;
  rvd <- gets res_var_dict;
  lift (set_outputs rvd outputs).

(** *** [run_routine] *)

Inductive component : Type :=
| IndepVarComp
| objective_function
| constraint.

(** [if Rt.type == 'DoE': ... elif Rt.type == 'Optim': ...]: the driver
    the local [driver] is bound to; with any other type it stays unbound. *)
Definition choose_driver (rt : Routine) : Reg (option driver) :=
  if String.eqb (Rt_type rt) "DoE" then reg_ret (Some (DOEDriver 10))
  else if String.eqb (Rt_type rt) "Optim"
       then (_ <- register (SetOptimizer (Rt_driver rt));
             reg_ret (Some (ScipyOptimizeDriver (Rt_driver rt) 10)))%reg
       else reg_ret None.

(** [int(np.log10(abs(x)+1)+1)] *)
Definition norm (x : float) : outcome Z :=
  py_int (np_log10 (PrimFloat.abs x + 1) + 1)%float.

(** The loop over the design variables. *)
Fixpoint connect_design (d : odict design_var) : Reg unit :=
  match d with
  | [] => reg_ret tt
  | (key, dv) :: rest =>
      (x <- reg_lift (list_first (dv_listval dv));
       n <- reg_lift (norm x);
       _ <- register (IndepsAddOutput key x n);
       _ <- register (Connect ("indeps." +:+ key) ("objective." +:+ key));
       _ <- register (AddDesignVar ("indeps." +:+ key)
                        (dv_minval dv) (dv_maxval dv));
       connect_design rest)%reg
  end.

(** [for key, (name, ...) in res_var_dict.items():
       if name == "cms": model.add_constraint('const.'+name, -0.1, 0.1)] *)
Fixpoint add_constraints (d : odict res_var) : Reg unit :=
  match d with
  | [] => reg_ret tt
  | (key, rv) :: rest =>
      if String.eqb (rv_name rv) "cms"
      then (_ <- register (AddConstraint ("const." +:+ rv_name rv)
                             (-0.1)%float 0.1%float);
            add_constraints rest)%reg
      else add_constraints rest
  end.

Record problem : Type := mkProblem {
  subsystems : list (string * component);
  prob_driver : driver;
  recorder : string
}.

(** The subsystems [run_routine] adds to the model, in its order:
    [model.add_subsystem('indeps', om.IndepVarComp())],
    [model.add_subsystem('objective', objective_function())],
    [model.add_subsystem('const', constraint())]. *)
Definition model_subsystems : list (string * component) :=
  [("indeps", IndepVarComp);
   ("objective", objective_function);
   ("const", constraint)].

(** The part of [run_routine] before [prob.setup()]; the use of a local
    [driver] that is unbound raises [UnboundLocalError]. *)
Definition build_problem (rt : Routine) (dvd : odict design_var)
    (rvd : odict res_var) : Reg problem :=
  (let subs := model_subsystems in
   chosen <- choose_driver rt;
   _ <- connect_design dvd;
   _ <- add_constraints rvd;
   _ <- register (AddObjective ("objective." +:+ Rt_objective rt));
   drv <- reg_lift match chosen with
                   | Some drv => Return drv
                   | None => Raise (UnboundLocalError "driver")
                   end;
   reg_ret (mkProblem subs drv
              ("../Optimisation/" +:+ "Driver_recorder.sql")))%reg.

(** The vector of a component after [setup]: every output at its declared
    value, or at the framework's default 1.0. *)
Definition initial_vector (ps : list (string * option float))
    : gmap string float :=
  foldl (fun v p => <[p.1 := default 1%float p.2]> v) ∅ ps.

(** Modelled from the spec: [prob.setup()] of the optimisation framework,
    whose code is outside the repository.  It runs the [setup] of every
    subsystem, in the order the subsystems were added. *)
Fixpoint prob_setup (subs : list (string * component)) (vec : vectors)
    : M vectors :=
  match subs with
  | [] => ret vec
  | (_, IndepVarComp) :: rest => prob_setup rest vec
  | (_, objective_function) :: rest =>
      ps <- objective_setup;
      prob_setup rest (initial_vector (port_outputs ps), vec.2)
  | (_, constraint) :: rest =>
      ps <- constraint_setup;
      prob_setup rest (vec.1, initial_vector (port_outputs ps))
  end.

(** Modelled from the spec: one evaluation of the model by the framework.
    The subsystems compute in the order they were added; the inputs of the
    objective component are connected to the point the driver proposes. *)
Fixpoint solve_nonlinear (subs : list (string * component))
    (point : string -> float) (vec : vectors) : M vectors :=
  match subs with
  | [] => ret vec
  | (_, IndepVarComp) :: rest => solve_nonlinear rest point vec
  | (_, objective_function) :: rest =>
      o <- objective_compute point vec.1;
      solve_nonlinear rest point (o, vec.2)
  | (_, constraint) :: rest =>
      c <- constraint_compute vec.2;
      solve_nonlinear rest point (vec.1, c)
  end.

(** Modelled from the spec: the loop of the driver.  The driver evaluates
    the model at one point after the other, until it has no further point
    or has used up the [fuel] evaluations it is given; an exception ends
    the run. *)
Fixpoint drive (fuel : nat) (drv : driver) (subs : list (string * component))
    (seen : list vectors) (vec : vectors) : M (list vectors) :=
  match fuel with
  | O => ret seen
  | S fuel' =>
      match driver_next drv seen with
      | None => ret seen
      | Some point =>
          vec' <- solve_nonlinear subs point vec;
          drive fuel' drv subs (seen ++ [vec']) vec'
      end
  end.

(** Modelled from the spec: [prob.run_driver()], which is terminal when
    the stopping criterion of the driver is reached: the loop of the driver
    with the evaluations the framework lets this driver make. *)
Definition run_driver (p : problem) (vec : vectors) : M (list vectors) :=
  drive (max_evaluations (prob_driver p)) (prob_driver p) (subsystems p) []
    vec.

Definition run_routine : M unit :=
  rt <- gets Rt;
  dvd <- gets design_var_dict;
  rvd <- gets res_var_dict;
  p <- lift (build_problem rt dvd rvd []).1;
  vec <- prob_setup (subsystems p) (∅, ∅);
  _ <- run_driver p vec;
  call read_results.

(** *** [routine_setup] *)

Definition routine_setup (modules : list string) (routine_type : string)
    : M unit :=
  _ <- modify (fun st =>
         set_Rt (mkRoutine routine_type modules "COBYLA" "cl/cd"
                   (Rt_date (Rt st))) st);
  date <- call now_strftime;
  _ <- modify (fun st =>
         set_Rt (mkRoutine (Rt_type (Rt st)) (Rt_modules (Rt st))
                   (Rt_driver (Rt st)) (Rt_objective (Rt st)) date) st);
  first_module <- lift (list_first modules);
  cpacs_path <- call (get_toolinput_file_path first_module);
  dicts <- call (init_dict cpacs_path);
  _ <- modify (fun st =>
         set_design_var_dict dicts.2 (set_res_var_dict dicts.1 st));
  _ <- call (copy_module_to_module first_module "out" "Optimisation"
               "initial");
  _ <- call (copy_module_to_module first_module "out" "CPACSUpdater" "in");
  run_routine.

End Routine.

(** ** Module metadata: [SkinFriction/__specs__.py], [CPACS2SUMO/__specs__.py] *)

Module Specs.

(** Modelled from the spec: the constant [CEASIOM_XPATH] of
    [ceasiompy/utils/moduleinterfaces.py], which is not among the sources;
    the specification gives the paths under it in full. *)
Definition CEASIOM_XPATH : string := "/cpacs/toolspecific/CEASIOMpy".

(** The keyword arguments of [add_input] and [add_output]. *)
Record entry : Type := mkEntry {
  var_name : string;
  default_value : option Z;      (* [None] or an integer literal *)
  unit_ : string;
  descr : string;
  cpacs_path : string
}.

(** Modelled from the spec: the class [CPACSInOut] of
    [ceasiompy/utils/moduleinterfaces.py], which is not among the sources.
    It holds the declared variables in an input list and an output list;
    [add_input] and [add_output] append to the one and to the other. *)
Record CPACSInOut : Type := mkInOut {
  inputs : list entry;
  outputs : list entry
}.

Definition empty_inout : CPACSInOut := mkInOut [] [].

Definition add_input (e : entry) (io : CPACSInOut) : CPACSInOut :=
  mkInOut (inputs io ++ [e]) (outputs io).

Definition add_output (e : entry) (io : CPACSInOut) : CPACSInOut :=
  mkInOut (inputs io) (outputs io ++ [e]).

(** [cpacs_inout] of [SkinFriction/__specs__.py], the calls in the order of
    the file; [prefix] is the imported [CEASIOM_XPATH]. *)
Definition skinfriction (prefix : string) : CPACSInOut :=
  let io0 := empty_inout in
  let io1 := add_input (mkEntry "wetted_area" None "m^2"
               "Wetted area of the aircraft (calculated by SU2)"
               (prefix +:+ "/geometry/analysis/wettedArea")) io0 in
  let io2 := add_input (mkEntry "cruise_speed" (Some 272%Z) "m/s"
               "Aircraft cruise speed"
               (prefix +:+ "/ranges/cruiseSpeed")) io1 in
  let io3 := add_input (mkEntry "cruise_alt" (Some 12000%Z) "m"
               "Aircraft cruise altitude"
               (prefix +:+ "/ranges/cruiseAltitude")) io2 in
  let io4 := add_output (mkEntry "cd0" None "1"
               "Skin friction drag coefficient"
               (prefix +:+ "/aerodynamics/su2/cd0")) io3 in
  let io5 := add_output (mkEntry "wing_area" None "m^2"
               "Wing area of the main (largest) wing"
               (prefix +:+ "/geometry/analysis/wingArea")) io4 in
  add_output (mkEntry "wing_span" None "m"
    "Wing span of the main (largest) wing"
    (prefix +:+ "/geometry/analysis/wingSpan")) io5.

(** [cpacs_inout] of [CPACS2SUMO/__specs__.py]: no inputs, no outputs. *)
Definition cpacs2sumo : CPACSInOut := empty_inout.

End Specs.

(** ** Observations on a run

    The growth of histories, the order of events in the trace, and
    relations between the state before and after a piece of code. *)

(** The histories of a dictionary, key by key. *)
Definition histories {V} (h : V -> list float) (d : odict V)
    : odict (list float) :=
  map (fun kv => (kv.1, h kv.2)) d.

(** [h'] has the keys of [h] in the same order, and every history of [h']
    is the history of [h] followed by new values, whose number satisfies
    [P]: nothing is removed, nothing overwritten. *)
Definition grown (P : nat -> Prop) (h h' : odict (list float)) : Prop :=
  Forall2 (fun a b => b.1 = a.1
                      /\ exists suffix, b.2 = a.2 ++ suffix
                                        /\ P (length suffix)) h h'.

Definition is_return {A} (o : outcome A) : bool :=
  match o with Return _ => true | _ => false end.

(** Every [ConstraintComputed] comes right after an [ObjectiveComputed] of
    its own; [pending] tells whether one is waiting. *)
Fixpoint ordered (pending : bool) (evs : list event) : bool :=
  match evs with
  | [] => true
  | ObjectiveComputed :: evs' => ordered true evs'
  | ConstraintComputed :: evs' => pending && ordered false evs'
  end.

Fixpoint objective_count (evs : list event) : nat :=
  match evs with
  | [] => 0
  | ObjectiveComputed :: evs' => S (objective_count evs')
  | ConstraintComputed :: evs' => objective_count evs'
  end.

Section Observations.
Context `{C : Collaborators}.

(** [m] relates the state it starts in to the state it ends in by [R],
    whether it returns or raises. *)
Definition preserves {A} (R : relation state) (m : M A) : Prop :=
  forall st, R st (m st).2.

(** The global [f] keeps its value. *)
Definition unchanged {X} (f : state -> X) : relation state :=
  fun st st' => f st' = f st.

Definition design_histories (st : state) : odict (list float) :=
  histories dv_listval (design_var_dict st).

Definition res_histories (st : state) : odict (list float) :=
  histories rv_listval (res_var_dict st).

(** A global that neither a collaborator, nor the call counter, nor
    [update_res_var_dict] can reach. *)
Definition framed {X} (f : state -> X) : Prop :=
  (forall st w, f (set_env w st) = f st)
  /\ (forall st n, f (set_counter n st) = f st)
  /\ (forall st d, f (set_res_var_dict d st) = f st).

(** What a piece of the bootstrap does to the trace: it appends the events
    of at most [budget] evaluations, in order. *)
Definition bounded_run (budget : nat) (st st' : state) : Prop :=
  exists evs, trace st' = trace st ++ evs
              /\ ordered false evs = true
              /\ objective_count evs <= budget.

End Observations.

(** ** Observations on the registrations *)

Section Registrations.
Context `{C : Collaborators}.

(** Having accepted [log], the framework accepts the calls [cs] one after
    the other. *)
Fixpoint accepts_all (log : registry) (cs : list om_call) : Prop :=
  match cs with
  | [] => True
  | c :: cs' => om_refuses log c = None /\ accepts_all (log ++ [c]) cs'
  end.

(** The calls [cs] made one after the other, up to the first one the
    framework refuses. *)
Fixpoint register_all (cs : list om_call) : Reg unit :=
  match cs with
  | [] => reg_ret tt
  | c :: cs' => (_ <- register c; register_all cs')%reg
  end.

(** The calls the loops of the two [setup]s and of [run_routine] make for
    the variables they can read: one input per design variable, one output
    per result variable, three calls per design variable, one constraint
    per result variable named [cms]. *)
Definition input_calls (d : odict design_var) : list om_call :=
  omap (fun kv => AddInput kv.1 <$> head (dv_listval kv.2)) d.

Definition output_calls (d : odict res_var) : list om_call :=
  omap (fun kv => (fun x => AddOutput (rv_name kv.2) (Some x))
                    <$> head (rv_listval kv.2)) d.

Definition design_calls (d : odict design_var) : list om_call :=
  flat_map (fun kv =>
              match head (dv_listval kv.2) with
              | Some x =>
                  match norm x with
                  | Return n =>
                      [IndepsAddOutput kv.1 x n;
                       Connect ("indeps." +:+ kv.1) ("objective." +:+ kv.1);
                       AddDesignVar ("indeps." +:+ kv.1)
                         (dv_minval kv.2) (dv_maxval kv.2)]
                  | _ => []
                  end
              | None => []
              end) d.

Definition constraint_calls (d : odict res_var) : list om_call :=
  map (fun _ => AddConstraint "const.cms" (-0.1)%float 0.1%float)
    (filter (fun kv => rv_name kv.2 = "cms") d).

(** A design variable the loop of [run_routine] can read: its history has
    a first value, whose norm [int] can take. *)
Definition has_norm (kv : string * design_var) : Prop :=
  exists x n, head (dv_listval kv.2) = Some x /\ norm x = Return n.

(** The exception at which the loop of [run_routine] stops on a design
    variable it cannot read: [IndexError] on an empty history, the error of
    [int] on a norm that is no finite number. *)
Definition read_error (dv : design_var) : option exn :=
  match head (dv_listval dv) with
  | None => Some IndexError
  | Some x => match norm x with Raise e => Some e | _ => None end
  end.

(** Whatever its outcome, the code [m] only adds to the calls accepted,
    and every call it adds satisfies [P]. *)
Definition adds {A} (P : om_call -> Prop) (m : Reg A) : Prop :=
  forall log, exists added, (m log).2 = log ++ added /\ Forall P added.

Definition no_constraint (c : om_call) : Prop := constraints [c] = [].

End Registrations.

(** ** Concrete settings, to run the model on *)

(** Result dictionaries for [compute_obj]. *)
Definition mk_res (name : string) (h : list float) : res_var :=
  ResVar name h 0%float 0%float "".

(** A dictionary whose keys are the tokens of ["2*cl"]. *)
Definition literal_dict : odict res_var :=
  [("2", mk_res "two" [1%float]); ("cl", mk_res "cl" [0.5%float])].

Definition cl_cd_dict : odict res_var :=
  [("cl", mk_res "cl" [0.3%float; 0.5%float]);
   ("cd", mk_res "cd" [0.2%float; 0.1%float])].

Definition empty_history_dict : odict res_var := [("cl", mk_res "cl" [])].

(** The refusals of the framework that the small setting follows.  A
    variable name is refused with [NameError] when it is empty, begins or
    ends with a blank, or holds one of the characters [. * ? ! [ ]], and
    with [ValueError] when the component has declared it already; a second
    design variable, response or connection target of one name is refused
    with [RuntimeError]; an optimizer the driver does not know is refused
    with [ValueError]. *)
Definition forbidden_chars : list ascii :=
  ["."; "*"; "?"; "!"; "["; "]"]%char.

Definition is_blank (c : ascii) : bool :=
  existsb (Ascii.eqb c) [" "; "009"; "010"; "013"]%char.

Fixpoint last_char (s : string) : option ascii :=
  match s with
  | EmptyString => None
  | String c EmptyString => Some c
  | String _ s' => last_char s'
  end.

Definition valid_var_name (n : string) : bool :=
  match n, last_char n with
  | String c _, Some c' =>
      negb (is_blank c) && negb (is_blank c')
      && string_forall (fun a => negb (existsb (Ascii.eqb a) forbidden_chars)) n
  | _, _ => false
  end.

Definition declared_names (log : registry) : list string :=
  omap (fun c => match c with
                 | AddInput n _ | AddOutput n _ | IndepsAddOutput n _ _ => Some n
                 | _ => None
                 end) log.

Definition response_names (log : registry) : list string :=
  omap (fun c => match c with
                 | AddConstraint n _ _ | AddObjective n => Some n
                 | _ => None
                 end) log.

Definition design_var_names (log : registry) : list string :=
  omap (fun c => match c with AddDesignVar n _ _ => Some n | _ => None end)
    log.

Definition connected_targets (log : registry) : list string :=
  omap (fun c => match c with Connect _ t => Some t | _ => None end) log.

Definition optimizers : list string :=
  ["Nelder-Mead"; "Powell"; "CG"; "BFGS"; "Newton-CG"; "L-BFGS-B"; "TNC";
   "COBYLA"; "SLSQP"].

Definition sample_refuses (log : registry) (c : om_call) : option exn :=
  match c with
  | AddInput n _ | AddOutput n _ | IndepsAddOutput n _ _ =>
      if negb (valid_var_name n) then Some (NameError n)
      else if mem_string n (declared_names log) then Some ValueError
           else None
  | AddConstraint n _ _ | AddObjective n =>
      if mem_string n (response_names log) then Some RuntimeError else None
  | AddDesignVar n _ _ =>
      if mem_string n (design_var_names log) then Some RuntimeError else None
  | Connect _ t =>
      if mem_string t (connected_targets log) then Some RuntimeError else None
  | SetOptimizer o =>
      if mem_string o optimizers then None else Some ValueError
  end.

(** The whole decades of a number from 1 on: the integer part of its
    decimal logarithm, which is all [int(np.log10(abs(x)+1)+1)] uses. *)
Fixpoint decades (fuel : nat) (x : float) : float :=
  match fuel with
  | O => 0
  | S fuel' =>
      if PrimFloat.ltb x 10 then 0%float
      else (1 + decades fuel' (x / 10))%float
  end.

Definition sample_log10 (x : float) : float :=
  if negb (PrimFloat.eqb x x) then nan
  else if PrimFloat.eqb x infinity then infinity
       else decades 400 x.

(** A small setting for the whole routine: collaborators that succeed at
    once, except that the module chain fails
    when [chain_fails] is set; [init_dict] yields one design variable and
    three result variables; the result document yields 0.5 for [cl] and
    0.1 for any other path; the driver proposes the point 31.0 twice, and
    would stop after as many evaluations as the generator has samples, or
    after one evaluation more than the optimizer has iterations. *)
Definition sample_design : odict design_var :=
  [("span", DesignVar "span" [30%float] 20%float 40%float "set" "get")].

Definition sample_res : odict res_var :=
  [("cl", ResVar "cl" [0.3%float] 0%float 1%float "cl");
   ("cd", ResVar "cd" [0.2%float] 0%float 1%float "cd");
   ("cms", ResVar "cms" [0%float] (-1)%float 1%float "cms")].

Definition sample (chain_fails : bool) : Collaborators := {|
  world := unit;
  tixi := string;
  aeromap := unit;
  get_toolinput_file_path m w := (Return ("in/" +:+ m), w);
  get_tooloutput_file_path m w := (Return ("out/" +:+ m), w);
  open_tixi path w := (Return path, w);
  close_tixi _ _ w := (Return tt, w);
  get_value _ _ w := (Return "aeromap", w);
  updateTextElement _ _ _ w := (Return tt, w);
  create_new_wkdir date w := (Return ("wkdir/" +:+ date), w);
  get_aeromap _ _ w := (Return tt, w);
  delete_aeromap _ _ w := (Return tt, w);
  create_empty_aeromap _ _ _ w := (Return tt, w);
  save_parameters _ _ _ w := (Return tt, w);
  update_cpacs_file _ _ _ w := (Return tt, w);
  copy_module_to_module _ _ _ _ w := (Return tt, w);
  run_subworkflow _ w :=
    if chain_fails then (Raise (OtherError "SU2Run failed"), w)
    else (Return tt, w);
  init_dict _ w := (Return (sample_res, sample_design), w);
  read_result _ path w :=
    (Return (if String.eqb path "cl" then 0.5%float else 0.1%float), w);
  read_results w := (Return tt, w);
  now_strftime w := (Return "2020-06-04_12-00-00", w);
  np_log10 := sample_log10;
  om_refuses := sample_refuses;
  max_evaluations drv :=
    match drv with
    | DOEDriver num_samples => num_samples
    | ScipyOptimizeDriver _ maxiter => S maxiter
    end;
  driver_next _ seen :=
    if (length seen <? 2)%nat then Some (fun _ => 31%float) else None
|}.

Definition sample_state (chain_fails : bool) (routine_type : string)
    : @state (sample chain_fails) :=
  @mkState (sample chain_fails)
    (mkRoutine routine_type ["SU2Run"; "SkinFriction"] "COBYLA" "cl/cd" "date")
    0 sample_design sample_res tt [].

Definition sample_point : string -> float := fun _ => 31%float.

Local Abbreviation sample_run :=
  (@solve_nonlinear (sample false) model_subsystems sample_point (∅, ∅)
     (sample_state false "Optim")).


Local Abbreviation sample_drive :=
  (@drive (sample false) 10 (ScipyOptimizeDriver "COBYLA" 10) model_subsystems
     [] (∅, ∅) (sample_state false "Optim")).


Local Abbreviation sample_setup :=
  (@routine_setup (sample false) ["SU2Run"] "Optim" (sample_state false "DoE")).

(** A state whose Routine holds another optimizer and another objective. *)
Definition sample_other_routine : @state (sample false) :=
  @mkState (sample false)
    (mkRoutine "DoE" ["SkinFriction"] "SLSQP" "cd" "date")
    7 sample_design sample_res tt [].

Local Abbreviation sample_setup_other :=
  (@routine_setup (sample false) ["SU2Run"] "Optim" sample_other_routine).


(** ** Further observations on [compute_obj] *)

(** What [compute_obj] can see of a token in the dictionary: whether it is
    a key, and then the last element of its history, if any. *)
Definition token_view (d : odict res_var) (t : string)
    : option (option float) :=
  (fun entry => last (rv_listval entry)) <$> dict_get d t.

(** A token no assignment can target: empty (an operator at either end of
    the expression, or two in a row), made of digits, or a reserved word. *)
Definition invalid_token (t : string) : Prop :=
  t = EmptyString
  \/ string_forall is_digit t = true
  \/ mem_string t keywords = true.

(** The variables of [compute_obj]'s own frame. *)
Definition frame_locals : list string := ["var_list"; "v"; "result"].

(** Dictionaries that show [compute_obj] the same last values under
    other keys' order, display names, bounds and older history. *)
Definition cl_cd_dict_other : odict res_var :=
  [("cms", ResVar "moment" [0.7%float] (-1)%float 1%float "get cms");
   ("cd", ResVar "drag" [0.1%float] 0%float 1%float "get cd");
   ("cl", ResVar "lift" [9%float; 8%float; 0.5%float] 0%float 2%float "get cl")].

(** A dictionary with a result variable keyed [v]. *)
Definition v_dict : odict res_var :=
  [("v", mk_res "speed" [250%float]); ("cd", mk_res "cd" [0.1%float])].

(** A value that is no number, a name the namespace leaves to the frame,
    and an outcome of an evaluation that is no number either. *)
Definition non_float (a : pyval) : Prop := forall x, a <> PyFloat x.

Definition bound_name (ns : namespace) (x : string) : Prop :=
  is_Some (ns !! x) \/ x = "result".

Definition tainted (ns : namespace) (x : string) : Prop :=
  (ns !! x = None /\ x = "result")
  \/ exists a, ns !! x = Some a /\ non_float a.

Definition no_float_result (o : outcome pyval) : Prop :=
  (exists e, o = Raise e) \/ exists a, o = Return a /\ non_float a.

(** ** Further observations on the components and on a run *)

(** The value [constraint.compute] leaves under a display name: the last
    history element of the last entry that carries the name. *)
Fixpoint named_value (d : odict res_var) (n : string) : option float :=
  match d with
  | [] => None
  | (key, rv) :: rest =>
      match named_value rest n with
      | Some x => Some x
      | None => if String.eqb (rv_name rv) n then last (rv_listval rv) else None
      end
  end.

(** Two result variables that share the display name [cd]. *)
Definition shared_name_res : odict res_var :=
  [("cd_wing", ResVar "cd" [0.02%float] 0%float 1%float "wing");
   ("cl", ResVar "cl" [0.5%float] 0%float 1%float "cl");
   ("cd_total", ResVar "cd" [0.03%float; 0.1%float] 0%float 1%float "total")].

Definition sample_state_with (dvd : odict design_var) (rvd : odict res_var)
    (modules : list string) : @state (sample false) :=
  @mkState (sample false)
    (mkRoutine "Optim" modules "COBYLA" "cl/cd" "date") 0 dvd rvd tt [].

(** Everything of a variable dictionary but the histories: the keys in
    their order, with display name, bounds and commands. *)
Definition design_shape (d : odict design_var)
    : list (string * string * float * float * string * string) :=
  map (fun kv => (kv.1, dv_name kv.2, dv_minval kv.2, dv_maxval kv.2,
                  dv_setcommand kv.2, dv_getcommand kv.2)) d.

Definition res_shape (d : odict res_var)
    : list (string * string * float * float * string) :=
  map (fun kv => (kv.1, rv_name kv.2, rv_lower_bound kv.2,
                  rv_upper_bound kv.2, rv_getcommand kv.2)) d.

Section RunObservations.
Context `{C : Collaborators}.

(** A global that stays as it is through anything an iteration does:
    calls of collaborators, the call counter, the trace, the appending of
    design values and [update_res_var_dict]. *)
Definition run_stable {X} (f : state -> X) : Prop :=
  (forall st w, f (set_env w st) = f st)
  /\ (forall st n, f (set_counter n st) = f st)
  /\ (forall st t, f (set_trace t st) = f st)
  /\ (forall st inputs,
        f (set_design_var_dict (append_inputs inputs (design_var_dict st)) st)
        = f st)
  /\ (forall st tx, f (update_res_var_dict tx st).2 = f st).

End RunObservations.

Local Abbreviation sample_objective_compute :=
  (@objective_compute (sample false) sample_point ∅
     (sample_state false "Optim")).

Local Abbreviation sample_run_routine :=
  (@run_routine (sample false) (sample_state false "Optim")).

Local Abbreviation sample_no_modules :=
  (@one_iteration (sample false) (sample_state_with sample_design sample_res [])).

(** ** Further observations on the problem and on the bootstrap *)

(** What [run_routine] reads of a design variable when it connects the
    problem: the key, the first element of the history and the bounds. *)
Definition design_start (d : odict design_var)
    : list (string * option float * float * float) :=
  map (fun kv => (kv.1, head (dv_listval kv.2), dv_minval kv.2,
                  dv_maxval kv.2)) d.

(** The design variable of the small setting under another display name,
    with other commands and a longer history. *)
Definition sample_design_later : odict design_var :=
  [("span", DesignVar "wing span" [30%float; 31%float; 31%float]
              20%float 40%float "set span" "get span")].

(** A design variable without history. *)
Definition no_history_design : odict design_var :=
  [("span", DesignVar "span" [] 0%float 1%float "" "")].

(** The small setting after some iterations: every history holds several
    values, the first differing from the last. *)
Definition sample_res_later : odict res_var :=
  [("cl", ResVar "cl" [0.3%float; 0.4%float; 0.5%float] 0%float 1%float "cl");
   ("cd", ResVar "cd" [0.2%float; 0.1%float] 0%float 1%float "cd");
   ("cms", ResVar "cms" [0%float; 0.05%float] (-1)%float 1%float "cms")].

Definition sample_later : @state (sample false) :=
  sample_state_with sample_design_later sample_res_later ["SU2Run"].

(** Two design variables, the second without history. *)
Definition second_no_history : odict design_var :=
  [("span", DesignVar "span" [30%float; 31%float] 20%float 40%float "" "");
   ("sweep", DesignVar "sweep" [] 0%float 1%float "" "")].

Definition sample_second_no_history : @state (sample false) :=
  sample_state_with second_no_history sample_res ["SU2Run"].

(** Two result variables, the second without history. *)
Definition res_second_no_history : odict res_var :=
  [("cl", ResVar "cl" [0.3%float; 0.5%float] 0%float 1%float "cl");
   ("cd", ResVar "cd" [] 0%float 1%float "cd")].

(** Two result variables named [cms]. *)
Definition two_cms_res : odict res_var :=
  [("cms", ResVar "cms" [0%float] (-1)%float 1%float "cms");
   ("cl", ResVar "cl" [0.3%float] 0%float 1%float "cl");
   ("cms_tail", ResVar "cms" [0.01%float] (-1)%float 1%float "tail")].

Local Abbreviation shared_name_state :=
  (sample_state_with sample_design shared_name_res ["SU2Run"]).

(** * Proofs *)

(** ** [re.split]: the pieces and the matches make up the string *)

Lemma splt_nonempty s : splt s <> [].
Proof.
  destruct s as [|c s]; cbn; [done|].
  destruct (op_of_ascii c); [done|]. by destruct (splt s).
Qed.

Lemma op_of_ascii_inv c o : op_of_ascii c = Some o -> ascii_of_op o = c.
Proof.
  unfold op_of_ascii.
  destruct (Ascii.eqb_spec c "+") as [->|_]; [by intros [= <-]|].
  destruct (Ascii.eqb_spec c "-") as [->|_]; [by intros [= <-]|].
  destruct (Ascii.eqb_spec c "*") as [->|_]; [by intros [= <-]|].
  destruct (Ascii.eqb_spec c "/") as [->|_]; [by intros [= <-]|].
  done.
Qed.

Lemma splt_rejoin s : rejoin (splt s) (operators s) = s.
Proof.
  induction s as [|c s IH]; [done|]. cbn [splt operators].
  destruct (op_of_ascii c) as [o|] eqn:Hc.
  - cbn. by rewrite IH, (op_of_ascii_inv _ _ Hc).
  - pose proof (splt_nonempty s) as Hne.
    destruct (splt s) as [|t ts]; [done|].
    rewrite <- IH at 2. cbn. by destruct (operators s).
Qed.

Lemma splt_no_operator s :
  Forall (fun t => string_forall (fun c => negb (is_Some_op c)) t = true)
    (splt s).
Proof.
  induction s as [|c s IH]; [by repeat constructor|]. cbn [splt].
  unfold is_Some_op in *.
  destruct (op_of_ascii c) eqn:Hc; [by constructor|].
  destruct (splt s) as [|t ts]; [repeat constructor; cbn; by rewrite Hc|].
  apply Forall_cons in IH as [Ht Hts]. constructor; [|done].
  cbn. by rewrite Hc, Ht.
Qed.

(** ** Helper lemmas on [compute_obj] *)

Lemma locals_lookup_other var_list v (ns : namespace) t :
  t ∉ frame_names -> locals var_list v ns !! t = ns !! t.
Proof.
  unfold frame_names. intros Ht.
  assert (t <> "var_list" /\ t <> "v" /\ t <> "result") as (H1 & H2 & H3)
    by set_solver.
  unfold locals. destruct v.
  - rewrite lookup_insert_ne by congruence.
    rewrite lookup_insert_ne by congruence.
    by rewrite lookup_delete_ne.
  - rewrite lookup_delete_ne by congruence.
    rewrite lookup_insert_ne by congruence.
    by rewrite lookup_delete_ne.
Qed.

Lemma locals_lookup_global var_list v (ns : namespace) :
  locals var_list v ns !! "res_var_dict" = ns !! "res_var_dict".
Proof.
  unfold locals. destruct v.
  - rewrite lookup_insert_ne by done.
    rewrite lookup_insert_ne by done.
    by rewrite lookup_delete_ne.
  - rewrite lookup_delete_ne by done.
    rewrite lookup_insert_ne by done.
    by rewrite lookup_delete_ne.
Qed.

Lemma is_name_classify t : is_name t = true -> classify t = TokName.
Proof. unfold is_name. by destruct (classify t). Qed.

Lemma last_value_inv d t x :
  last_value d t = Some x ->
  exists entry, dict_get d t = Some entry /\ last (rv_listval entry) = Some x.
Proof.
  unfold last_value. destruct (dict_get d t) as [entry|]; [|done]. eauto.
Qed.

(** One run of the loop body on a bindable token binds it to the last value
    of its history. *)
Lemma exec_assign_bindable d var_list t x (ns : namespace) :
  bindable t ->
  last_value d t = Some x ->
  ns !! "res_var_dict" = None ->
  exec_assign d t (locals var_list (Some t) ns)
  = Return (<[t := PyFloat x]> (locals var_list (Some t) ns)).
Proof.
  intros [Hn _] Hx Hg. apply last_value_inv in Hx as (entry & Hd & Hl).
  unfold exec_assign. rewrite (is_name_classify _ Hn).
  rewrite locals_lookup_global, Hg, Hd. unfold list_last. by rewrite Hl.
Qed.

Lemma bind_tokens_bindable d var_list todo :
  Forall bindable todo ->
  Forall (fun t => is_Some (last_value d t)) todo ->
  forall ns : namespace,
    ns !! "res_var_dict" = None ->
    exists ns' : namespace,
      bind_tokens d var_list todo ns = Return ns'
      /\ ns' !! "res_var_dict" = None
      /\ forall t, t ∉ frame_names ->
           ns' !! t = if decide (t ∈ todo)
                      then PyFloat <$> last_value d t
                      else ns !! t.
Proof.
  induction todo as [|v todo IH]; intros Hb Hs ns Hg.
  - exists ns. split; [done|]. split; [done|]. intros t _.
    destruct (decide (t ∈ [])) as [Hin|]; [|done]. by apply elem_of_nil in Hin.
  - apply Forall_cons in Hb as [Hv Hb]. apply Forall_cons in Hs as [[x Hx] Hs].
    cbn [bind_tokens]. rewrite (exec_assign_bindable d var_list v x ns Hv Hx Hg).
    cbn [obind].
    destruct (IH Hb Hs (<[v := PyFloat x]> (locals var_list (Some v) ns)))
      as (ns' & Hrun & Hg' & Hlook).
    { rewrite lookup_insert_ne.
      - by rewrite locals_lookup_global.
      - destruct Hv as [_ Hv]. unfold frame_names in Hv. set_solver. }
    exists ns'. split; [done|]. split; [done|].
    intros t Ht. rewrite (Hlook t Ht).
    destruct (decide (t ∈ todo)) as [Hin|Hin].
    + rewrite decide_True; [done|]. by apply list_elem_of_further.
    + destruct (decide (t = v)) as [->|Hne].
      * rewrite lookup_insert_eq. rewrite decide_True by apply list_elem_of_here.
        by rewrite Hx.
      * rewrite lookup_insert_ne by congruence.
        rewrite locals_lookup_other by done.
        rewrite decide_False; [done|].
        intros Hc. apply elem_of_cons in Hc as [?|?]; contradiction.
Qed.

(** Evaluation in a namespace that binds every name of the expression to a
    float is float arithmetic. *)
Lemma eval_expr_floats (ns : namespace) env e :
  (forall x, x ∈ vars e -> exists a, env x = Some a /\ ns !! x = Some (PyFloat a)) ->
  eval_expr ns e = (z <~ eval_arith env e; Return (PyFloat z)).
Proof.
  induction e as [x|l IHl o r IHr]; intros Hv.
  - destruct (Hv x) as (a & Ha & Hns); [apply list_elem_of_here|].
    cbn. by rewrite Hns, Ha.
  - cbn [eval_expr eval_arith vars] in *.
    rewrite IHl by (intros x Hx; apply Hv, elem_of_app; by left).
    rewrite IHr by (intros x Hx; apply Hv, elem_of_app; by right).
    destruct (eval_arith env l) as [a| |]; cbn; [|done..].
    destruct (eval_arith env r) as [b| |]; cbn; [|done..].
    destruct (float_binop o a b); done.
Qed.

Lemma vars_close_sum acc term x :
  x ∈ vars (close_sum acc term) ->
  x ∈ vars term \/ exists s o, acc = Some (s, o) /\ x ∈ vars s.
Proof.
  destruct acc as [[s o]|]; cbn; [|by left].
  intros [?|?]%elem_of_app; [right; eauto|by left].
Qed.

Lemma vars_group rest : forall acc term x,
  x ∈ vars (group acc term rest) ->
  x ∈ vars term \/ x ∈ map snd rest
  \/ exists s o, acc = Some (s, o) /\ x ∈ vars s.
Proof.
  induction rest as [|[o t] rest IH]; intros acc term x Hx; cbn in Hx.
  - apply vars_close_sum in Hx as [?|?]; auto.
  - destruct (is_additive o).
    + apply IH in Hx as [Hx|[Hx|(s & o' & Heq & Hx)]].
      * cbn in Hx. apply list_elem_of_singleton in Hx as ->.
        right; left. apply list_elem_of_here.
      * right; left. by apply list_elem_of_further.
      * injection Heq as <- <-.
        apply vars_close_sum in Hx as [?|?]; auto.
    + apply IH in Hx as [Hx|[Hx|Hx]]; auto.
      * cbn in Hx. apply elem_of_app in Hx as [Hx|Hx]; auto.
        apply list_elem_of_singleton in Hx as ->.
        right; left. apply list_elem_of_here.
      * right; left. by apply list_elem_of_further.
Qed.

Lemma snd_combine_subset {A B} (l : list A) (m : list B) x :
  x ∈ map snd (combine l m) -> x ∈ m.
Proof.
  revert m. induction l as [|a l IH]; intros [|b m]; cbn; intros Hx;
    try by apply elem_of_nil in Hx.
  apply elem_of_cons in Hx as [->|Hx]; [apply list_elem_of_here|].
  apply list_elem_of_further. by apply IH.
Qed.

Lemma vars_token_expr s x : x ∈ vars (token_expr s) -> x ∈ splt s.
Proof.
  unfold token_expr. pose proof (splt_nonempty s) as Hne.
  destruct (splt s) as [|t ts]; [done|].
  intros [Hx|[Hx|(? & ? & ? & _)]]%vars_group; [| |done].
  - cbn in Hx. apply list_elem_of_singleton in Hx as ->. apply list_elem_of_here.
  - apply list_elem_of_further. by apply snd_combine_subset in Hx.
Qed.

Lemma parse_expr_names s :
  Forall bindable (splt s) -> parse_expr s = Some (token_expr s).
Proof.
  intros Hb. unfold parse_expr.
  rewrite (proj2 (forallb_forall is_name (splt s))); [done|].
  intros t Ht%list_elem_of_In.
  by destruct (proj1 (Forall_forall _ _) Hb t Ht).
Qed.

(** ** Properties of [compute_obj] *)

(** C1, as stated, fails: on the objective ["2*cl"] every token has a
    non-empty history, binding the tokens to the last history values and
    evaluating gives 0.5 and so -0.5, while [compute_obj] raises
    [SyntaxError] on the statement [2 = res_var_dict["2"][1][-1]]. *)
Lemma compute_obj_literal_token :
  Forall (fun t => is_Some (last_value literal_dict t)) (splt "2*cl")
  /\ spec_objective "2*cl" literal_dict = Return (-0.5)%float
  /\ compute_obj "2*cl" literal_dict = Raise SyntaxError.
Proof.
  split; [|split]; [|reflexivity..].
  repeat constructor; eexists; reflexivity.
Qed.

(** C1 (amended): for every objective string whose tokens (the pieces
    between the operator characters + - * /) are Python names other than
    the four names [compute_obj] uses itself, and every result dictionary
    in which each token has a non-empty history, [compute_obj] returns
    what the specification describes: the expression evaluated with each
    token bound to the last element of its history, negated. *)
Theorem compute_obj_refines_spec (objective : string) (d : odict res_var) :
  Forall bindable (splt objective) ->
  Forall (fun t => is_Some (last_value d t)) (splt objective) ->
  compute_obj objective d = spec_objective objective d.
Proof.
  intros Hb Hs. unfold compute_obj, spec_objective.
  destruct (bind_tokens_bindable d (splt objective) (splt objective) Hb Hs ∅)
    as (ns & -> & _ & Hlook); [done|].
  cbn [obind]. unfold py_eval. rewrite (parse_expr_names _ Hb).
  rewrite (eval_expr_floats _ (last_value d)).
  - destruct (eval_arith (last_value d) (token_expr objective)); done.
  - intros x Hx%vars_token_expr.
    destruct (proj1 (Forall_forall _ _) Hb x Hx) as [_ Hf].
    destruct (proj1 (Forall_forall _ _) Hs x Hx) as [a Ha].
    exists a. split; [done|].
    rewrite locals_lookup_other by done.
    rewrite (Hlook x Hf). rewrite decide_True by done.
    by rewrite Ha.
Qed.

Lemma bindable_dec_true t :
  is_name t = true -> forallb (fun n => negb (String.eqb t n)) frame_names = true ->
  bindable t.
Proof.
  intros Hn Hf. split; [done|].
  intros Hin%list_elem_of_In.
  rewrite forallb_forall in Hf. specialize (Hf t Hin).
  by rewrite String.eqb_refl in Hf.
Qed.

(** The objective ["cl/cd"] with last values 0.5 and 0.1 gives -5.0. *)
Lemma compute_obj_cl_cd :
  Forall bindable (splt "cl/cd")
  /\ Forall (fun t => is_Some (last_value cl_cd_dict t)) (splt "cl/cd")
  /\ compute_obj "cl/cd" cl_cd_dict = Return (-5)%float.
Proof.
  assert (Hb : Forall bindable (splt "cl/cd")).
  { repeat constructor; by apply bindable_dec_true. }
  assert (Hs : Forall (fun t => is_Some (last_value cl_cd_dict t)) (splt "cl/cd")).
  { repeat constructor; eexists; reflexivity. }
  split; [exact Hb|]. split; [exact Hs|].
  rewrite (compute_obj_refines_spec "cl/cd" cl_cd_dict Hb Hs). reflexivity.
Defined.

Lemma bind_tokens_app d var_list pre rest (ns : namespace) :
  bind_tokens d var_list (pre ++ rest) ns
  = (ns' <~ bind_tokens d var_list pre ns; bind_tokens d var_list rest ns').
Proof.
  revert ns. induction pre as [|v pre IH]; intros ns; [done|].
  rewrite <- app_comm_cons. cbn [bind_tokens].
  destruct (exec_assign d v (locals var_list (Some v) ns)) as [ns'| |];
    cbn [obind]; [apply IH|done..].
Qed.

Lemma exec_assign_modelled d t (ns : namespace) :
  classify t <> TokOther -> exec_assign d t ns <> Unmodelled.
Proof.
  unfold exec_assign, list_last. intros Hc.
  destruct (classify t); [|done..].
  destruct (ns !! "res_var_dict"); [done|].
  destruct (dict_get d t) as [entry|]; [|done].
  by destruct (last (rv_listval entry)).
Qed.

Lemma exec_assign_unknown d t (ns : namespace) :
  classify t <> TokOther -> dict_get d t = None -> raises (exec_assign d t ns).
Proof.
  unfold exec_assign, raises. intros Hc Hd.
  destruct (classify t); [|eauto|done].
  destruct (ns !! "res_var_dict"); [eauto|]. rewrite Hd. eauto.
Qed.

Lemma bind_tokens_unknown d var_list pre t post : forall ns : namespace,
  Forall (fun u => classify u <> TokOther) (pre ++ [t]) ->
  dict_get d t = None ->
  raises (bind_tokens d var_list (pre ++ t :: post) ns).
Proof.
  induction pre as [|u pre IH]; intros ns Hc Hd.
  - apply Forall_cons in Hc as [Hc _]. cbn [app bind_tokens].
    destruct (exec_assign_unknown d t (locals var_list (Some t) ns) Hc Hd)
      as [e ->]. by exists e.
  - rewrite <- !app_comm_cons in *. apply Forall_cons in Hc as [Hu Hc].
    cbn [bind_tokens].
    pose proof (exec_assign_modelled d u (locals var_list (Some u) ns) Hu).
    destruct (exec_assign d u (locals var_list (Some u) ns)) as [ns'|e|];
      cbn [obind]; [by apply IH|by exists e|done].
Qed.

Lemma raises_compute_obj objective d :
  raises (bind_tokens d (splt objective) (splt objective) ∅) ->
  raises (compute_obj objective d).
Proof. unfold compute_obj. intros [e ->]. by exists e. Qed.

(** C5, as stated, fails: the token [foo] is no key of the dictionary, yet
    the exception is not the dictionary's [KeyError] on a token: with an
    empty history for [cl] the objective ["cl/foo"] ends in [IndexError],
    and the objective ["2*foo"] ends in [SyntaxError]. *)
Lemma compute_obj_unknown_token_other_error :
  ("foo" ∈ splt "cl/foo"
   /\ dict_get empty_history_dict "foo" = None
   /\ compute_obj "cl/foo" empty_history_dict = Raise IndexError)
  /\ ("foo" ∈ splt "2*foo"
      /\ dict_get cl_cd_dict "foo" = None
      /\ compute_obj "2*foo" cl_cd_dict = Raise SyntaxError).
Proof.
  split; (split; [|split; reflexivity]); cbn; set_solver.
Qed.

(** C5 (amended): if a token of the objective expression is not a key of
    the result dictionary, and that token and every token before it is an
    identifier, a number written in digits only, a reserved word or empty,
    [compute_obj] raises an exception and returns no value, in every
    dictionary state; the exception is [KeyError] on that token, the
    code's form of the specification's UndefinedVariableError, whenever the
    token is a name and the tokens before it are names, none of them a
    name [compute_obj] uses itself, bound to non-empty histories. *)
Theorem compute_obj_unknown_token (objective : string) (d : odict res_var)
    (pre : list string) (t : string) (post : list string) :
  splt objective = pre ++ t :: post ->
  dict_get d t = None ->
  Forall (fun u => classify u <> TokOther) (pre ++ [t]) ->
  raises (compute_obj objective d)
  /\ (Forall bindable pre ->
      Forall (fun u => is_Some (last_value d u)) pre ->
      is_name t = true ->
      compute_obj objective d = Raise (KeyError t)).
Proof.
  intros Hsplit Hd Hc. split.
  - apply raises_compute_obj. rewrite Hsplit at 2.
    by apply bind_tokens_unknown.
  - intros Hb Hs Hn. unfold compute_obj. rewrite Hsplit at 2.
    rewrite bind_tokens_app.
    destruct (bind_tokens_bindable d (splt objective) pre Hb Hs ∅)
      as (ns & -> & Hg & _); [done|].
    cbn [obind bind_tokens]. unfold exec_assign.
    by rewrite (is_name_classify _ Hn), locals_lookup_global, Hg, Hd.
Qed.

(** The objective ["foo/cd"] with [foo] undeclared ends in [KeyError]. *)
Lemma compute_obj_foo_cd :
  compute_obj "foo/cd" cl_cd_dict = Raise (KeyError "foo").
Proof.
  refine (proj2 (compute_obj_unknown_token "foo/cd" cl_cd_dict [] "foo" ["cd"]
                   eq_refl eq_refl _) _ _ eq_refl).
  - repeat constructor; done.
  - constructor.
  - constructor.
Defined.

(** ** What a piece of code leaves unchanged *)

Section Preservation.
Context `{C : Collaborators}.
Local Open Scope pym_scope.

#[global] Instance unchanged_preorder {X} (f : state -> X) :
  PreOrder (unchanged f).
Proof.
  split.
  - by intros st.
  - intros st1 st2 st3 H12 H23. unfold unchanged in *. congruence.
Qed.

Context (R : relation state) `{!PreOrder R}.

Lemma preserves_ret {A} (a : A) : preserves R (ret a).
Proof. intros st. reflexivity. Qed.

Lemma preserves_lift {A} (o : outcome A) : preserves R (lift o).
Proof. intros st. reflexivity. Qed.

Lemma preserves_gets {A} (f : state -> A) : preserves R (gets f).
Proof. intros st. reflexivity. Qed.

Lemma preserves_modify (f : state -> state) :
  (forall st, R st (f st)) -> preserves R (modify f).
Proof. intros Hf st. apply Hf. Qed.

Lemma preserves_call {A} (f : ext world A) :
  (forall st w, R st (set_env w st)) -> preserves R (call f).
Proof. intros Hw st. unfold call. destruct (f (env st)). apply Hw. Qed.

Lemma preserves_bind {A B} (m : M A) (k : A -> M B) :
  preserves R m -> (forall a, preserves R (k a)) -> preserves R (bind m k).
Proof.
  intros Hm Hk st. unfold bind. specialize (Hm st).
  destruct (m st) as [[a|e|] st1]; cbn in *; [|done..].
  etransitivity; [exact Hm|apply Hk].
Qed.

Lemma preserves_if {A} (b : bool) (m1 m2 : M A) :
  preserves R m1 -> preserves R m2 -> preserves R (if b then m1 else m2).
Proof. by destruct b. Qed.

End Preservation.

(** Breaks a block of binds into its statements. *)
Ltac preserves_steps :=
  repeat first
    [ apply preserves_bind; [apply _| |intros ?]
    | apply preserves_if
    | apply preserves_ret; apply _
    | apply preserves_lift; apply _
    | apply preserves_gets; apply _
    | apply preserves_call; intros ? ?; reflexivity
    | apply preserves_modify; intros ?; reflexivity ].

Section PreservationFacts.
Context `{C : Collaborators}.

Lemma module_chain_res_var_dict : preserves (unchanged res_var_dict) module_chain.
Proof. unfold module_chain. preserves_steps. Qed.

End PreservationFacts.



(** ** Properties of [one_iteration] and of the components *)

Section IterationFacts.
Context `{C : Collaborators}.

(** C3: if the module chain of an iteration fails with an exception [e]
    (the failing step's own exception, since nothing on the way catches
    it), [one_iteration] ends with that same exception in the state the
    chain left, and no history of the result dictionary has changed:
    [update_res_var_dict] runs only once the whole chain has returned. *)
Theorem one_iteration_chain_failure (st st1 : state) (e : exn) :
  module_chain st = (Raise e, st1) ->
  one_iteration st = (Raise e, st1)
  /\ res_var_dict st1 = res_var_dict st.
Proof.
  intros Hchain. split.
  - unfold one_iteration, bind. by rewrite Hchain.
  - pose proof (module_chain_res_var_dict st) as Hres.
    by rewrite Hchain in Hres.
Qed.

End IterationFacts.

(** A failing run of the chain: SU2Run fails, its error comes out of
    [one_iteration] as it is and the result dictionary is untouched. *)
Lemma one_iteration_chain_failure_sample :
  @one_iteration (sample true) (sample_state true "Optim")
  = (Raise (OtherError "SU2Run failed"),
     @set_counter (sample true) 1 (sample_state true "Optim"))
  /\ @res_var_dict (sample true)
       (@set_counter (sample true) 1 (sample_state true "Optim"))
     = @res_var_dict (sample true) (sample_state true "Optim").
Proof.
  apply (@one_iteration_chain_failure (sample true)). reflexivity.
Defined.

(** ** Registering with the framework *)

Section RegFacts.
Context `{C : Collaborators}.

Lemma reg_bind_return {A B} (m : Reg A) (k : A -> Reg B) log a log' :
  m log = (Return a, log') -> reg_bind m k log = k a log'.
Proof. unfold reg_bind. by intros ->. Qed.

Lemma reg_bind_ext {A B} (m m' : Reg A) (k : A -> Reg B) log :
  m log = m' log -> reg_bind m k log = reg_bind m' k log.
Proof. unfold reg_bind. by intros ->. Qed.

Lemma reg_bind_assoc {A B D} (m : Reg A) (f : A -> Reg B) (k : B -> Reg D)
    log :
  reg_bind (reg_bind m f) k log = reg_bind m (fun a => reg_bind (f a) k) log.
Proof. unfold reg_bind. by destruct (m log) as [[a|e|] log1]. Qed.

Lemma register_accepted log c :
  om_refuses log c = None -> register c log = (Return tt, log ++ [c]).
Proof. unfold register. by intros ->. Qed.

Lemma register_refused log c e :
  om_refuses log c = Some e -> register c log = (Raise e, log).
Proof. unfold register. by intros ->. Qed.

Lemma register_all_accepted cs : forall log,
  accepts_all log cs -> register_all cs log = (Return tt, log ++ cs).
Proof.
  induction cs as [|c cs IH]; intros log Hacc; cbn.
  - by rewrite app_nil_r.
  - destruct Hacc as [Hc Hcs]. unfold reg_bind.
    rewrite (register_accepted _ _ Hc), (IH _ Hcs).
    by rewrite <- app_assoc.
Qed.

Lemma register_all_returns cs : forall log u log',
  register_all cs log = (Return u, log') ->
  accepts_all log cs /\ log' = log ++ cs.
Proof.
  induction cs as [|c cs IH]; intros log u log'; cbn.
  - intros [= _ <-]. by rewrite app_nil_r.
  - unfold reg_bind, register.
    destruct (om_refuses log c) as [e|] eqn:Hc; [done|].
    intros Hrun. apply IH in Hrun as [Hcs ->].
    by rewrite <- app_assoc.
Qed.

(** Whatever the outcome, the calls accepted are the first [k] of the
    calls made, all of them when the code returns. *)
Lemma register_all_prefix cs : forall log,
  exists k,
    (register_all cs log).2 = log ++ take k cs
    /\ k <= length cs
    /\ (is_return (register_all cs log).1 = true -> k = length cs).
Proof.
  induction cs as [|c cs IH]; intros log; cbn.
  - exists 0. by rewrite app_nil_r.
  - unfold reg_bind, register.
    destruct (om_refuses log c) as [e|] eqn:Hc.
    + exists 0. cbn. rewrite app_nil_r. split; [done|]. split; [lia|done].
    + destruct (IH (log ++ [c])) as (k & Hlog & Hk & Hret).
      exists (S k). cbn. rewrite Hlog, <- app_assoc.
      split; [done|]. split; [lia|]. intros Hr. by rewrite (Hret Hr).
Qed.

Lemma register_all_app cs1 cs2 : forall log,
  register_all (cs1 ++ cs2) log
  = (_ <- register_all cs1; register_all cs2)%reg log.
Proof.
  induction cs1 as [|c cs1 IH]; intros log; [done|].
  cbn. unfold reg_bind in *. destruct (register c log) as [[[]|e|] log1];
    [|done..].
  apply IH.
Qed.

(** The loops as runs of [register_all], on variables that can be read. *)
Lemma add_inputs_calls (d : odict design_var) :
  Forall (fun kv => dv_listval kv.2 <> []) d ->
  forall log, add_inputs d log = register_all (input_calls d) log.
Proof.
  induction d as [|[key dv] d IH]; intros Hne log; [done|].
  apply Forall_cons in Hne as [Hdv Hne]. cbn in Hdv.
  unfold input_calls. cbn.
  destruct (dv_listval dv) as [|x l]; [done|]. cbn.
  unfold reg_bind, reg_lift.
  destruct (register (AddInput key x) log) as [[[]|e|] log1]; [|done..].
  by apply IH.
Qed.

Lemma add_outputs_calls (d : odict res_var) :
  Forall (fun kv => rv_listval kv.2 <> []) d ->
  forall log, add_outputs d log = register_all (output_calls d) log.
Proof.
  induction d as [|[key rv] d IH]; intros Hne log; [done|].
  apply Forall_cons in Hne as [Hrv Hne]. cbn in Hrv.
  unfold output_calls. cbn.
  destruct (rv_listval rv) as [|x l]; [done|]. cbn.
  unfold reg_bind, reg_lift.
  destruct (register (AddOutput (rv_name rv) (Some x)) log)
    as [[[]|e|] log1]; [|done..].
  by apply IH.
Qed.

Lemma connect_design_calls (d : odict design_var) :
  Forall has_norm d ->
  forall log, connect_design d log = register_all (design_calls d) log.
Proof.
  induction d as [|[key dv] d IH]; intros Hn log; [done|].
  apply Forall_cons in Hn as [(x & n & Hx & Hnorm) Hn]. cbn in Hx.
  unfold design_calls. cbn [connect_design flat_map fst snd].
  destruct (dv_listval dv) as [|x' l]; [done|]. injection Hx as ->.
  cbn [head list_first]. rewrite Hnorm. cbn [app register_all].
  unfold reg_bind, reg_lift. rewrite Hnorm.
  destruct (register (IndepsAddOutput key x n) log) as [[[]|e|] log1];
    [|done..].
  destruct (register (Connect _ _) log1) as [[[]|e|] log2]; [|done..].
  destruct (register (AddDesignVar _ _ _) log2) as [[[]|e|] log3]; [|done..].
  by apply IH.
Qed.

Lemma add_constraints_calls (d : odict res_var) :
  forall log, add_constraints d log = register_all (constraint_calls d) log.
Proof.
  unfold constraint_calls, odict in *.
  induction d as [|[key rv] d IH]; intros log; [done|].
  cbn [add_constraints]. rewrite filter_cons. cbn [snd].
  destruct (String.eqb_spec (rv_name rv) "cms") as [Heq|Hne].
  - rewrite decide_True by done. cbn [map register_all]. rewrite Heq.
    unfold reg_bind.
    destruct (register _ log) as [[[]|e|] log1]; [|done..].
    apply IH.
  - rewrite decide_False by done. apply IH.
Qed.

(** A loop stops at the first variable it cannot read, with what it has
    registered for the variables before. *)
Lemma add_inputs_app (d1 d2 : odict design_var) : forall log,
  add_inputs (d1 ++ d2) log = (_ <- add_inputs d1; add_inputs d2)%reg log.
Proof.
  induction d1 as [|[key dv] d1 IH]; intros log; [done|].
  cbn. unfold reg_bind, reg_lift.
  destruct (list_first (dv_listval dv)) as [x|e|]; [|done..].
  destruct (register _ log) as [[[]|e|] log1]; [|done..].
  apply IH.
Qed.

Lemma add_outputs_app (d1 d2 : odict res_var) : forall log,
  add_outputs (d1 ++ d2) log = (_ <- add_outputs d1; add_outputs d2)%reg log.
Proof.
  induction d1 as [|[key rv] d1 IH]; intros log; [done|].
  cbn. unfold reg_bind, reg_lift.
  destruct (list_first (rv_listval rv)) as [x|e|]; [|done..].
  destruct (register _ log) as [[[]|e|] log1]; [|done..].
  apply IH.
Qed.

Lemma connect_design_app (d1 d2 : odict design_var) : forall log,
  connect_design (d1 ++ d2) log
  = (_ <- connect_design d1; connect_design d2)%reg log.
Proof.
  induction d1 as [|[key dv] d1 IH]; intros log; [done|].
  cbn. unfold reg_bind, reg_lift.
  destruct (list_first (dv_listval dv)) as [x|e|]; [|done..].
  destruct (norm x) as [n|e|]; [|done..].
  destruct (register (IndepsAddOutput key x n) log) as [[[]|e|] log1];
    [|done..].
  destruct (register (Connect _ _) log1) as [[[]|e|] log2]; [|done..].
  destruct (register (AddDesignVar _ _ _) log2) as [[[]|e|] log3]; [|done..].
  apply IH.
Qed.

(** A loop that returns has read every variable. *)
Lemma add_inputs_returns (d : odict design_var) : forall log u log',
  add_inputs d log = (Return u, log') ->
  Forall (fun kv => dv_listval kv.2 <> []) d.
Proof.
  induction d as [|[key dv] d IH]; intros log u log'; [by constructor|].
  cbn. unfold reg_bind, reg_lift.
  destruct (dv_listval dv) as [|x l] eqn:Hl; [done|]. cbn.
  destruct (register _ log) as [[[]|e|] log1]; [|done..].
  intros Hrun. constructor; [cbn; by rewrite Hl|by eapply IH].
Qed.

Lemma add_outputs_returns (d : odict res_var) : forall log u log',
  add_outputs d log = (Return u, log') ->
  Forall (fun kv => rv_listval kv.2 <> []) d.
Proof.
  induction d as [|[key rv] d IH]; intros log u log'; [by constructor|].
  cbn. unfold reg_bind, reg_lift.
  destruct (rv_listval rv) as [|x l] eqn:Hl; [done|]. cbn.
  destruct (register _ log) as [[[]|e|] log1]; [|done..].
  intros Hrun. constructor; [cbn; by rewrite Hl|by eapply IH].
Qed.

Lemma connect_design_returns (d : odict design_var) : forall log u log',
  connect_design d log = (Return u, log') -> Forall has_norm d.
Proof.
  induction d as [|[key dv] d IH]; intros log u log'; [by constructor|].
  cbn. unfold reg_bind, reg_lift.
  destruct (dv_listval dv) as [|x l] eqn:Hl; [done|]. cbn.
  destruct (norm x) as [n|e|] eqn:Hn; [|done..].
  destruct (register (IndepsAddOutput key x n) log) as [[[]|e|] log1];
    [|done..].
  destruct (register (Connect _ _) log1) as [[[]|e|] log2]; [|done..].
  destruct (register (AddDesignVar _ _ _) log2) as [[[]|e|] log3]; [|done..].
  intros Hrun. constructor; [|by eapply IH].
  exists x, n. cbn. by rewrite Hl.
Qed.

(** The ports among the calls of the two loops. *)
Lemma port_inputs_input_calls (d : odict design_var) :
  Forall (fun kv => dv_listval kv.2 <> []) d ->
  Forall2 (fun kv p => p.1 = kv.1 /\ head (dv_listval kv.2) = Some p.2)
    d (port_inputs (input_calls d))
  /\ port_outputs (input_calls d) = [].
Proof.
  unfold port_inputs, port_outputs, input_calls.
  induction d as [|[key dv] d IH]; intros Hne; [by split; [constructor|]|].
  apply Forall_cons in Hne as [Hdv Hne]. destruct (IH Hne) as [Hin Hout].
  cbn in *. destruct (dv_listval dv) as [|x l] eqn:Hl; [done|]. cbn.
  split; [|done]. constructor; [|done]. cbn. by rewrite Hl.
Qed.

Lemma port_outputs_output_calls (d : odict res_var) :
  Forall (fun kv => rv_listval kv.2 <> []) d ->
  Forall2 (fun kv p => p.1 = rv_name kv.2
                       /\ is_Some p.2 /\ p.2 = head (rv_listval kv.2))
    d (port_outputs (output_calls d))
  /\ port_inputs (output_calls d) = [].
Proof.
  unfold port_inputs, port_outputs, output_calls.
  induction d as [|[key rv] d IH]; intros Hne; [by split; [constructor|]|].
  apply Forall_cons in Hne as [Hrv Hne]. destruct (IH Hne) as [Hout Hin].
  cbn in *. destruct (rv_listval rv) as [|x l] eqn:Hl; [done|]. cbn.
  split; [|done]. constructor; [|done]. cbn. rewrite Hl. eauto.
Qed.

Lemma accepts_all_app log cs1 cs2 :
  accepts_all log (cs1 ++ cs2)
  <-> accepts_all log cs1 /\ accepts_all (log ++ cs1) cs2.
Proof.
  revert log. induction cs1 as [|c cs1 IH]; intros log; cbn.
  - rewrite app_nil_r. tauto.
  - rewrite IH, <- app_assoc. cbn. tauto.
Qed.

End RegFacts.

Section ComponentFacts.
Context `{C : Collaborators}.

Lemma objective_setup_accepted st :
  Forall (fun kv => dv_listval kv.2 <> []) (design_var_dict st) ->
  accepts_all [] (input_calls (design_var_dict st)
                  ++ [AddOutput (Rt_objective (Rt st)) None]) ->
  objective_setup st
  = (Return (input_calls (design_var_dict st)
             ++ [AddOutput (Rt_objective (Rt st)) None]), st).
Proof.
  intros Hne [Hin [Hout _]]%accepts_all_app.
  unfold objective_setup, bind, gets, lift, declared, reg_bind. cbn.
  rewrite (add_inputs_calls _ Hne), (register_all_accepted _ _ Hin).
  cbn in *. by rewrite (register_accepted _ _ Hout).
Qed.

Lemma constraint_setup_accepted st :
  Forall (fun kv => rv_listval kv.2 <> []) (res_var_dict st) ->
  accepts_all [] (output_calls (res_var_dict st)) ->
  constraint_setup st = (Return (output_calls (res_var_dict st)), st).
Proof.
  intros Hne Hout.
  unfold constraint_setup, bind, gets, lift, declared. cbn.
  by rewrite (add_outputs_calls _ Hne), (register_all_accepted _ _ Hout).
Qed.

Lemma set_outputs_lookup (d : odict res_var) :
  Forall (fun kv => rv_listval kv.2 <> []) d ->
  NoDup (map (fun kv => rv_name kv.2) d) ->
  forall outputs : gmap string float,
  exists outputs' : gmap string float,
    set_outputs d outputs = Return outputs'
    /\ (forall key rv, (key, rv) ∈ d ->
          outputs' !! rv_name rv = last (rv_listval rv))
    /\ (forall name, name ∉ map (fun kv => rv_name kv.2) d ->
          outputs' !! name = outputs !! name).
Proof.
  induction d as [|[key rv] d IH]; intros Hne Hnd outputs.
  - exists outputs. split; [done|]. split; [|done].
    intros ? ? Hin. by apply elem_of_nil in Hin.
  - apply Forall_cons in Hne as [Hrv Hne]. cbn in Hrv, Hnd.
    apply NoDup_cons in Hnd as [Hnotin Hnd].
    destruct (proj2 (last_is_Some (rv_listval rv)) Hrv) as [x Hx].
    destruct (IH Hne Hnd (<[rv_name rv := x]> outputs))
      as (outputs' & Hrun & Hin & Hout).
    exists outputs'. split.
    + cbn. unfold list_last. by rewrite Hx.
    + split.
      * intros key' rv' [Heq|Hd]%elem_of_cons.
        -- injection Heq as -> ->. rewrite (Hout _ Hnotin), Hx.
           apply lookup_insert_eq.
        -- by apply (Hin key').
      * intros name [Hne' Hnotin']%not_elem_of_cons. cbn in Hne'.
        rewrite (Hout _ Hnotin'). by apply lookup_insert_ne.
Qed.

(** C6 (amended): when every history is non-empty and the framework
    accepts the declarations, [objective_function.setup] declares exactly
    one input port per design variable, named by the variable's key and
    initialised to the first element of its history, and the single output
    port [Rt.objective]; [constraint.setup] declares no input and one
    output port per result variable, named by the variable's display name
    and initialised to the first element of its history; and, the display
    names being pairwise different, every [constraint.compute] sets the
    output of each result variable to the last element of its history and
    leaves the dictionary as it is. *)
Theorem component_ports (st : state) :
  Forall (fun kv => dv_listval kv.2 <> []) (design_var_dict st) ->
  Forall (fun kv => rv_listval kv.2 <> []) (res_var_dict st) ->
  NoDup (map (fun kv => rv_name kv.2) (res_var_dict st)) ->
  accepts_all [] (input_calls (design_var_dict st)
                  ++ [AddOutput (Rt_objective (Rt st)) None]) ->
  accepts_all [] (output_calls (res_var_dict st)) ->
  (exists ps, objective_setup st = (Return ps, st)
     /\ Forall2 (fun kv p => p.1 = kv.1 /\ head (dv_listval kv.2) = Some p.2)
          (design_var_dict st) (port_inputs ps)
     /\ port_outputs ps = [(Rt_objective (Rt st), None)])
  /\ (exists ps, constraint_setup st = (Return ps, st)
        /\ port_inputs ps = []
        /\ Forall2 (fun kv p => p.1 = rv_name kv.2
                                /\ is_Some p.2
                                /\ p.2 = head (rv_listval kv.2))
             (res_var_dict st) (port_outputs ps))
  /\ (forall outputs : gmap string float,
      exists (outputs' : gmap string float) st',
        constraint_compute outputs st = (Return outputs', st')
        /\ res_var_dict st' = res_var_dict st
        /\ forall key rv, (key, rv) ∈ res_var_dict st ->
             outputs' !! rv_name rv = last (rv_listval rv)).
Proof.
  intros Hd Hr Hnd Hin Hout. split; [|split].
  - eexists. split; [by apply objective_setup_accepted|].
    destruct (port_inputs_input_calls _ Hd) as [Hports Hnone].
    unfold port_inputs, port_outputs in *. rewrite !omap_app.
    cbn. rewrite app_nil_r, Hnone. done.
  - eexists. split; [by apply constraint_setup_accepted|].
    destruct (port_outputs_output_calls _ Hr) as [Hports Hnone]. done.
  - intros outputs.
    destruct (set_outputs_lookup _ Hr Hnd outputs) as (outputs' & Hrun & Hlook & _).
    exists outputs', (set_trace (trace st ++ [ConstraintComputed]) st).
    split; [|done].
    unfold constraint_compute, bind, emit, modify, gets, lift. cbn.
    by rewrite Hrun.
Qed.

End ComponentFacts.

(** C6, as stated, fails: of the three result variables of this setting
    two carry the display name [cd].  Each has a non-empty history, yet
    the constraint adapter holds one output [cd], which a compute sets to
    the last element 0.1 of the later variable, not to the last element
    0.02 of the earlier one; and its setup, refused the second declaration
    of [cd], exposes no port at all.  Nor does the setup of the objective
    adapter declare a port when a design variable has no first element. *)
Lemma component_ports_shared_name :
  Forall (fun kv => rv_listval kv.2 <> []) shared_name_res
  /\ (@constraint_setup (sample false) shared_name_state).1 = Raise ValueError
  /\ (@objective_setup (sample false) sample_second_no_history).1
     = Raise IndexError
  /\ exists (outputs' : gmap string float) key rv,
       (@constraint_compute (sample false) ∅ shared_name_state).1
       = Return outputs'
       /\ (key, rv) ∈ shared_name_res
       /\ last (rv_listval rv) = Some 0.02%float
       /\ outputs' !! rv_name rv = Some 0.1%float
       /\ outputs' !! rv_name rv <> last (rv_listval rv).
Proof.
  split; [repeat constructor; done|]. split; [reflexivity|].
  split; [reflexivity|].
  eexists _, "cd_wing", (ResVar "cd" [0.02%float] 0%float 1%float "wing").
  split; [reflexivity|]. split; [apply list_elem_of_here|].
  split; [reflexivity|]. split; [reflexivity|].
  intros [= H]%(f_equal (fun o => (fun x => PrimFloat.ltb x 0.05) <$> o)).
Qed.

(** The ports of the small setting after some iterations: the input [span]
    starts at the first value 30.0 of its history [30.0, 31.0, 31.0], the
    outputs [cl], [cd], [cms] start at the first values 0.3, 0.2, 0.0, and
    a compute sets them to the last values 0.5, 0.1, 0.05. *)
Lemma component_ports_sample :
  (@objective_setup (sample false) sample_later).1
  = Return [AddInput "span" 30%float; AddOutput "cl/cd" None]
  /\ (@constraint_setup (sample false) sample_later).1
     = Return [AddOutput "cl" (Some 0.3%float); AddOutput "cd" (Some 0.2%float);
               AddOutput "cms" (Some 0%float)]
  /\ exists outputs' : gmap string float,
       (@constraint_compute (sample false) ∅ sample_later).1 = Return outputs'
       /\ outputs' !! "cl" = Some 0.5%float
       /\ outputs' !! "cd" = Some 0.1%float
       /\ outputs' !! "cms" = Some 0.05%float.
Proof.
  destruct (@component_ports (sample false) sample_later)
    as ((ps & Hobj & _) & (qs & Hcon & _) & Hcomp).
  - repeat constructor; done.
  - repeat constructor; done.
  - cbn. compute_done.
  - cbn. repeat split; reflexivity.
  - cbn. repeat split; reflexivity.
  - split; [reflexivity|]. split; [reflexivity|].
    destruct (Hcomp ∅) as (outputs' & st' & Hrun & _ & Hlook).
    exists outputs'. split; [by rewrite Hrun|].
    split; [|split].
    + apply (Hlook "cl" (ResVar "cl" [0.3; 0.4; 0.5] 0 1 "cl")%float).
      apply list_elem_of_here.
    + apply (Hlook "cd" (ResVar "cd" [0.2; 0.1] 0 1 "cd")%float).
      apply list_elem_of_further, list_elem_of_here.
    + apply (Hlook "cms" (ResVar "cms" [0; 0.05] (-1) 1 "cms")%float).
      apply list_elem_of_further, list_elem_of_further, list_elem_of_here.
Defined.

(** ** Properties of [run_routine]: the driver and the constraints *)

Section ProblemFacts.
Context `{C : Collaborators}.

Lemma adds_ret {A} (P : om_call -> Prop) (a : A) : adds P (reg_ret a).
Proof. intros log. exists []. by rewrite app_nil_r. Qed.

Lemma adds_lift {A} (P : om_call -> Prop) (o : outcome A) :
  adds P (reg_lift o).
Proof. intros log. exists []. by rewrite app_nil_r. Qed.

Lemma adds_register (P : om_call -> Prop) c : P c -> adds P (register c).
Proof.
  intros Hc log. unfold register. destruct (om_refuses log c).
  - exists []. by rewrite app_nil_r.
  - exists [c]. split; [done|by constructor].
Qed.

Lemma adds_bind {A B} (P : om_call -> Prop) (m : Reg A) (k : A -> Reg B) :
  adds P m -> (forall a, adds P (k a)) -> adds P (reg_bind m k).
Proof.
  intros Hm Hk log. unfold reg_bind.
  destruct (Hm log) as (added & Hlog & HP).
  destruct (m log) as [[a|e|] log1]; cbn in Hlog; subst log1;
    [|by exists added..].
  destruct (Hk a (log ++ added)) as (added' & -> & HP').
  exists (added ++ added'). rewrite app_assoc. split; [done|].
  by apply Forall_app.
Qed.

Lemma adds_weaken {A} (P Q : om_call -> Prop) (m : Reg A) :
  (forall c, P c -> Q c) -> adds P m -> adds Q m.
Proof.
  intros HPQ Hm log. destruct (Hm log) as (added & Hlog & HP).
  exists added. split; [done|]. eapply Forall_impl; [exact HP|exact HPQ].
Qed.

Lemma choose_driver_adds rt : adds no_constraint (choose_driver rt).
Proof.
  unfold choose_driver.
  destruct (Rt_type rt =? "DoE")%string; [apply adds_ret|].
  destruct (Rt_type rt =? "Optim")%string; [|apply adds_ret].
  apply adds_bind; [by apply adds_register|]. intros _. apply adds_ret.
Qed.

Lemma connect_design_adds (d : odict design_var) :
  adds no_constraint (connect_design d).
Proof.
  induction d as [|[key dv] d IH]; [apply adds_ret|]. cbn [connect_design].
  apply adds_bind; [apply adds_lift|]. intros x.
  apply adds_bind; [apply adds_lift|]. intros n.
  apply adds_bind; [by apply adds_register|]. intros _.
  apply adds_bind; [by apply adds_register|]. intros _.
  apply adds_bind; [by apply adds_register|]. intros _.
  exact IH.
Qed.

Lemma add_constraints_adds (d : odict res_var) :
  adds (fun _ => True) (add_constraints d).
Proof.
  induction d as [|[key rv] d IH]; [apply adds_ret|]. cbn [add_constraints].
  destruct (rv_name rv =? "cms")%string; [|exact IH].
  apply adds_bind; [by apply adds_register|]. intros _. exact IH.
Qed.

Lemma constraints_app (l1 l2 : registry) :
  constraints (l1 ++ l2) = constraints l1 ++ constraints l2.
Proof. apply omap_app. Qed.

Lemma constraints_none (added : registry) :
  Forall no_constraint added -> constraints added = [].
Proof.
  induction added as [|c added IH]; intros Hall; [done|].
  apply Forall_cons in Hall as [Hc Hall].
  change (c :: added) with ([c] ++ added).
  by rewrite constraints_app, Hc, (IH Hall).
Qed.

Lemma constraints_adds {A} (m : Reg A) log :
  adds no_constraint m -> constraints (m log).2 = constraints log.
Proof.
  intros Hm. destruct (Hm log) as (added & -> & Hall).
  by rewrite constraints_app, (constraints_none _ Hall), app_nil_r.
Qed.

Lemma constraints_take_calls (d : odict res_var) k :
  k <= length (filter (fun kv => rv_name kv.2 = "cms") d) ->
  constraints (take k (constraint_calls d))
  = replicate k ("const.cms", (-0.1)%float, 0.1%float).
Proof.
  unfold constraint_calls, odict in *.
  generalize (filter (fun kv : string * res_var => rv_name kv.2 = "cms") d).
  intros l. revert k. induction l as [|a l IH]; intros [|k] Hk; cbn in *;
    try done; try lia.
  unfold constraints in *. cbn. f_equal. apply IH. lia.
Qed.

Lemma build_problem_inv rt dvd rvd log p log' :
  build_problem rt dvd rvd log = (Return p, log') ->
  exists log0 log1 log2,
    choose_driver rt log = (Return (Some (prob_driver p)), log0)
    /\ connect_design dvd log0 = (Return tt, log1)
    /\ add_constraints rvd log1 = (Return tt, log2)
    /\ register (AddObjective ("objective." +:+ Rt_objective rt)) log2
       = (Return tt, log')
    /\ subsystems p = model_subsystems.
Proof.
  unfold build_problem, reg_bind, reg_lift, reg_ret.
  destruct (choose_driver rt log) as [[chosen|e|] log0] eqn:H0; [|done..].
  destruct (connect_design dvd log0) as [[[]|e|] log1] eqn:H1; [|done..].
  destruct (add_constraints rvd log1) as [[[]|e|] log2] eqn:H2; [|done..].
  destruct (register _ log2) as [[[]|e|] log3] eqn:H3; [|done..].
  destruct chosen as [drv|]; [|done].
  intros [= <- <-]. by exists log0, log1, log2.
Qed.

(** Without a driver no problem is built. *)
Lemma build_problem_no_driver rt dvd rvd log log0 :
  choose_driver rt log = (Return None, log0) ->
  is_return (build_problem rt dvd rvd log).1 = false.
Proof.
  intros Hc. destruct (build_problem rt dvd rvd log) as [[p|e|] log'] eqn:Hb;
    [|done..].
  apply build_problem_inv in Hb as (l0 & l1 & l2 & Hc' & _). congruence.
Qed.

Lemma build_problem_constraints rt dvd rvd log :
  exists k,
    constraints (build_problem rt dvd rvd log).2
    = constraints log ++ replicate k ("const.cms", (-0.1)%float, 0.1%float)
    /\ k <= length (filter (fun kv => rv_name kv.2 = "cms") rvd)
    /\ (is_return (build_problem rt dvd rvd log).1 = true ->
        k = length (filter (fun kv => rv_name kv.2 = "cms") rvd)).
Proof.
  assert (Hstop : forall {A} (r : outcome A) log', is_return r = false ->
            constraints log' = constraints log ->
            exists k,
              constraints (r, log').2
              = constraints log
                ++ replicate k ("const.cms", (-0.1)%float, 0.1%float)
              /\ k <= length (filter (fun kv => rv_name kv.2 = "cms") rvd)
              /\ (is_return (r, log').1 = true ->
                  k = length (filter (fun kv => rv_name kv.2 = "cms") rvd))).
  { intros A r log' Hr Hlog. exists 0. cbn [fst snd replicate].
    rewrite app_nil_r, Hr. split; [done|]. split; [lia|done]. }
  unfold build_problem, reg_bind, reg_lift, reg_ret.
  pose proof (constraints_adds (choose_driver rt) log (choose_driver_adds rt))
    as H0.
  destruct (choose_driver rt log) as [[chosen|e|] log0]; cbn [snd] in H0;
    [|by apply Hstop..].
  pose proof (constraints_adds (connect_design dvd) log0
                (connect_design_adds dvd)) as H1.
  destruct (connect_design dvd log0) as [[[]|e|] log1]; cbn [snd] in H1;
    [|apply Hstop; [done|congruence]..].
  rewrite add_constraints_calls.
  destruct (register_all_prefix (constraint_calls rvd) log1)
    as (k & Hlog & Hk & Hret).
  assert (Hcount : length (constraint_calls rvd)
                   = length (filter (fun kv => rv_name kv.2 = "cms") rvd)).
  { unfold constraint_calls. by rewrite length_map. }
  rewrite Hcount in Hk, Hret.
  assert (Hcons : forall log2, log2 = log1 ++ take k (constraint_calls rvd) ->
            constraints log2
            = constraints log
              ++ replicate k ("const.cms", (-0.1)%float, 0.1%float)).
  { intros log2 ->.
    by rewrite constraints_app, (constraints_take_calls _ _ Hk), H1, H0. }
  destruct (register_all (constraint_calls rvd) log1) as [[[]|e|] log2];
    cbn [fst snd] in Hlog, Hret;
    [|exists k; cbn [fst snd]; split; [by apply Hcons|]; split; done..].
  specialize (Hret eq_refl).
  assert (Hlast : constraints (log2 ++ [AddObjective
                     ("objective." +:+ Rt_objective rt)])
                  = constraints log
                    ++ replicate k ("const.cms", (-0.1)%float, 0.1%float)).
  { rewrite constraints_app, (Hcons _ Hlog). cbn. by rewrite app_nil_r. }
  unfold register.
  destruct (om_refuses log2 _) as [e|];
    [exists k; cbn [fst snd]; split; [by apply Hcons|]; split; done|].
  exists k. destruct chosen; cbn [fst snd]; split; done.
Qed.

(** When [build_problem] fails, [run_routine] fails in the same way and has
    changed nothing; it goes on to the setup only with a problem built. *)
Lemma run_routine_build st :
  let built := (build_problem (Rt st) (design_var_dict st)
                  (res_var_dict st) []).1 in
  (is_return built = false ->
   is_return (run_routine st).1 = false
   /\ (run_routine st).2 = st
   /\ forall e, built = Raise e -> (run_routine st).1 = Raise e)
  /\ (is_return (run_routine st).1 = true -> is_return built = true).
Proof.
  cbv zeta. unfold run_routine, bind, gets, lift. cbn.
  destruct (build_problem (Rt st) (design_var_dict st) (res_var_dict st) []).1
    as [p|e|]; cbn; [done| |done].
  split; [|done]. intros _. split; [done|]. split; [done|].
  by intros ? [= <-].
Qed.

(** C8 (amended): [run_routine] knows two routine kinds, ['DoE'] and
    ['Optim'].  With the kind ['DoE'] it selects the design-of-experiments
    driver (uniform generator, 10 samples); with the kind ['Optim'] it
    selects the SciPy optimizer driver with the configured algorithm
    identifier and an iteration cap of 10, once the framework has taken
    the identifier; with any other kind it selects no driver, and no
    problem is built. *)
Theorem run_routine_driver (rt : Routine) (log : registry) :
  (Rt_type rt = "DoE" ->
   choose_driver rt log = (Return (Some (DOEDriver 10)), log))
  /\ (Rt_type rt = "Optim" ->
      (om_refuses log (SetOptimizer (Rt_driver rt)) = None ->
       choose_driver rt log
       = (Return (Some (ScipyOptimizeDriver (Rt_driver rt) 10)),
          log ++ [SetOptimizer (Rt_driver rt)]))
      /\ (forall e, om_refuses log (SetOptimizer (Rt_driver rt)) = Some e ->
          choose_driver rt log = (Raise e, log)))
  /\ (Rt_type rt <> "DoE" -> Rt_type rt <> "Optim" ->
      choose_driver rt log = (Return None, log)
      /\ forall dvd rvd, is_return (build_problem rt dvd rvd log).1 = false).
Proof.
  split; [|split].
  - unfold choose_driver. by intros ->.
  - unfold choose_driver. intros ->. cbn. unfold reg_bind, register.
    split; [by intros ->|]. by intros e ->.
  - intros Hd Ho. apply String.eqb_neq in Hd, Ho.
    assert (Hnone : choose_driver rt log = (Return None, log)).
    { unfold choose_driver. by rewrite Hd, Ho. }
    split; [done|]. intros dvd rvd. by eapply build_problem_no_driver.
Qed.

(** C9: the only constraints [run_routine] registers are constraints
    [('const.cms', -0.1, 0.1)], one for each result variable whose display
    name is [cms] and up to the first one the framework refuses: whatever
    the dictionary holds and whatever the outcome, no other name and no
    declared bound is registered, and every such variable has its
    constraint when the problem is built.  The constraint is registered as
    soon as the loop over the design variables has returned, a variable is
    named [cms] and the framework accepts the call; and [run_routine]
    returns only with the problem built. *)
Theorem constraints_only_cms (rt : Routine) (dvd : odict design_var)
    (rvd : odict res_var) :
  (forall log,
     add_constraints rvd log
     = register_all
         (map (fun _ => AddConstraint "const.cms" (-0.1)%float 0.1%float)
            (filter (fun kv => rv_name kv.2 = "cms") rvd)) log)
  /\ (exists k,
        constraints (build_problem rt dvd rvd []).2
        = replicate k ("const.cms", (-0.1)%float, 0.1%float)
        /\ k <= length (filter (fun kv => rv_name kv.2 = "cms") rvd)
        /\ (is_return (build_problem rt dvd rvd []).1 = true ->
            k = length (filter (fun kv => rv_name kv.2 = "cms") rvd)))
  /\ (forall chosen log0 log1,
        choose_driver rt [] = (Return chosen, log0) ->
        connect_design dvd log0 = (Return tt, log1) ->
        Exists (fun kv => rv_name kv.2 = "cms") rvd ->
        om_refuses log1 (AddConstraint "const.cms" (-0.1)%float 0.1%float)
        = None ->
        ("const.cms", (-0.1)%float, 0.1%float)
        ∈ constraints (build_problem rt dvd rvd []).2)
  /\ (forall st,
        Rt st = rt -> design_var_dict st = dvd -> res_var_dict st = rvd ->
        is_return (run_routine st).1 = true ->
        is_return (build_problem rt dvd rvd []).1 = true).
Proof.
  split; [|split; [|split]].
  - apply add_constraints_calls.
  - apply (build_problem_constraints rt dvd rvd []).
  - intros chosen log0 log1 Hc Hd Hex Hacc.
    assert (Hcalls : exists rest,
              constraint_calls rvd
              = AddConstraint "const.cms" (-0.1)%float 0.1%float :: rest).
    { unfold constraint_calls, odict in *.
      apply Exists_exists in Hex as (kv & Hin & Hname).
      assert (Hf : kv ∈ filter (fun kv => rv_name kv.2 = "cms") rvd)
        by (apply list_elem_of_filter; done).
      destruct (filter _ rvd) as [|a l]; [by apply elem_of_nil in Hf|].
      by eexists. }
    destruct Hcalls as [rest Hrest].
    unfold build_problem. cbv zeta.
    rewrite (reg_bind_return _ _ _ _ _ Hc), (reg_bind_return _ _ _ _ _ Hd).
    rewrite (reg_bind_ext _ (register_all (constraint_calls rvd)))
      by apply add_constraints_calls.
    rewrite Hrest. cbn [register_all]. rewrite reg_bind_assoc.
    rewrite (reg_bind_return _ _ _ _ _ (register_accepted _ _ Hacc)).
    match goal with
    | |- _ ∈ constraints (?m _).2 => assert (Hadds : adds (fun _ => True) m)
    end.
    { apply adds_bind.
      - intros log. destruct (register_all_prefix rest log) as (k & -> & _).
        exists (take k rest). split; [done|]. by apply Forall_forall.
      - intros _. apply adds_bind; [by apply adds_register|]. intros _.
        apply adds_bind; [apply adds_lift|]. intros drv. apply adds_ret. }
    destruct (Hadds (log1 ++ [AddConstraint "const.cms" (-0.1)%float 0.1%float]))
      as (added & -> & _).
    rewrite !constraints_app. cbn.
    apply elem_of_app. left. apply elem_of_app. right. apply list_elem_of_here.
  - intros st <- <- <-. apply (run_routine_build st).
Qed.

End ProblemFacts.

(** C8, as stated, fails: with the kinds ['DesignOfExperiments'] and
    ['Optimisation'] no driver is selected, and a kind outside the two
    named values is accepted by [routine_setup] all the same. *)
Lemma run_routine_driver_spelled_out :
  @choose_driver (sample false)
    (mkRoutine "DesignOfExperiments" [] "COBYLA" "cl/cd" "") []
  = (Return None, [])
  /\ @choose_driver (sample false)
       (mkRoutine "Optimisation" [] "COBYLA" "cl/cd" "") []
     = (Return None, [])
  /\ is_return
       (@run_routine (sample false) (sample_state false "Optimisation")).1
     = false
  /\ Rt_type (@Rt (sample false)
        (@routine_setup (sample false) ["SU2Run"] "Optimisation"
           (sample_state false "DoE")).2)
     = "Optimisation".
Proof. repeat split; reflexivity. Qed.

(** The two kinds the code knows, and one it does not. *)
Lemma run_routine_driver_kinds :
  @choose_driver (sample false) (mkRoutine "DoE" [] "COBYLA" "cl/cd" "") []
  = (Return (Some (DOEDriver 10)), [])
  /\ @choose_driver (sample false)
       (mkRoutine "Optim" [] "COBYLA" "cl/cd" "") []
     = (Return (Some (ScipyOptimizeDriver "COBYLA" 10)),
        [SetOptimizer "COBYLA"])
  /\ @choose_driver (sample false)
       (mkRoutine "Optim" [] "Simplex" "cl/cd" "") []
     = (Raise ValueError, [])
  /\ @choose_driver (sample false)
       (mkRoutine "Optimisation" [] "COBYLA" "cl/cd" "") []
     = (Return None, []).
Proof.
  split; [|split; [|split]].
  - exact (proj1 (@run_routine_driver (sample false)
                    (mkRoutine "DoE" [] "COBYLA" "cl/cd" "") []) eq_refl).
  - exact (proj1 (proj1 (proj2 (@run_routine_driver (sample false)
                    (mkRoutine "Optim" [] "COBYLA" "cl/cd" "") [])) eq_refl)
             eq_refl).
  - exact (proj2 (proj1 (proj2 (@run_routine_driver (sample false)
                    (mkRoutine "Optim" [] "Simplex" "cl/cd" "") [])) eq_refl)
             ValueError eq_refl).
  - refine (proj1 (proj2 (proj2 (@run_routine_driver (sample false)
                    (mkRoutine "Optimisation" [] "COBYLA" "cl/cd" "") [])) _ _));
      discriminate.
Defined.

(** In the small setting the problem is built and the run returns, with
    one constraint registered, on [cms], with the fixed bounds and not with
    the declared -1 and 1; of two variables named [cms] the first has its
    constraint and the second is refused. *)
Lemma constraints_only_cms_sample :
  is_return (@run_routine (sample false) (sample_state false "Optim")).1 = true
  /\ is_return (@build_problem (sample false)
                  (mkRoutine "Optim" ["SU2Run"; "SkinFriction"] "COBYLA"
                     "cl/cd" "date") sample_design sample_res []).1 = true
  /\ constraints (@build_problem (sample false)
                    (mkRoutine "Optim" ["SU2Run"; "SkinFriction"] "COBYLA"
                       "cl/cd" "date") sample_design sample_res []).2
     = [("const.cms", (-0.1)%float, 0.1%float)]
  /\ @build_problem (sample false)
       (mkRoutine "Optim" ["SU2Run"; "SkinFriction"] "COBYLA" "cl/cd" "date")
       sample_design two_cms_res []
     = (Raise RuntimeError,
        [SetOptimizer "COBYLA"; IndepsAddOutput "span" 30%float 2%Z;
         Connect "indeps.span" "objective.span";
         AddDesignVar "indeps.span" 20%float 40%float;
         AddConstraint "const.cms" (-0.1)%float 0.1%float]).
Proof.
  destruct (@constraints_only_cms (sample false)
              (mkRoutine "Optim" ["SU2Run"; "SkinFriction"] "COBYLA" "cl/cd"
                 "date") sample_design sample_res)
    as (_ & (k & Hcons & _ & Hk) & _ & Hrun).
  assert (Hret : is_return (@run_routine (sample false)
                              (sample_state false "Optim")).1 = true)
    by (vm_compute; reflexivity).
  pose proof (Hrun (sample_state false "Optim") eq_refl eq_refl eq_refl Hret)
    as Hbuilt.
  split; [exact Hret|]. split; [exact Hbuilt|].
  split; [|vm_compute; reflexivity].
  rewrite Hcons, (Hk Hbuilt). reflexivity.
Defined.

(** ** Histories over a run *)

Lemma grown_refl (P : nat -> Prop) h : P 0 -> grown P h h.
Proof.
  intros HP. induction h as [|a h IH]; constructor; [|done].
  split; [done|]. exists []. by rewrite app_nil_r.
Qed.

Lemma grown_trans (P Q S : nat -> Prop) h1 h2 h3 :
  (forall n m, P n -> Q m -> S (n + m)) ->
  grown P h1 h2 -> grown Q h2 h3 -> grown S h1 h3.
Proof.
  intros HPQ H12. revert h3.
  induction H12 as [|a b h1 h2 (Hk & s1 & Hs1 & HP) _ IH]; intros h3 H23.
  - inversion H23. constructor.
  - inversion H23 as [|b' c h2' h3' (Hk' & s2 & Hs2 & HQ) Hrest]; subst.
    constructor; [|by apply IH].
    split; [congruence|]. exists (s1 ++ s2).
    rewrite Hs2, Hs1, app_assoc, length_app. auto.
Qed.

Lemma grown_weaken (P Q : nat -> Prop) h h' :
  (forall n, P n -> Q n) -> grown P h h' -> grown Q h h'.
Proof.
  intros HPQ Hg. eapply Forall2_impl; [exact Hg|].
  intros a b (Hk & s & Hs & HP). split; [done|]. exists s. auto.
Qed.

Lemma grown_length (n : nat) h h' :
  grown (eq n) h h' ->
  Forall2 (fun a b => b.1 = a.1 /\ length b.2 = length a.2 + n) h h'.
Proof.
  intros Hg. eapply Forall2_impl; [exact Hg|].
  intros a b (Hk & s & Hs & Hn). split; [done|].
  rewrite Hs, length_app. lia.
Qed.

Lemma ordered_app p evs evs' :
  ordered p evs = true ->
  ordered false evs' = true ->
  ordered p (evs ++ evs') = true.
Proof.
  revert p. induction evs as [|[] evs IH]; intros p Hp Hq; cbn in *.
  - by destruct evs' as [|[] ?].
  - by apply IH.
  - apply andb_true_iff in Hp as [-> Hp]. cbn. by apply IH.
Qed.

Lemma objective_count_app evs evs' :
  objective_count (evs ++ evs') = objective_count evs + objective_count evs'.
Proof. induction evs as [|[] evs IH]; cbn; lia. Qed.

Section RunFacts.
Context `{C : Collaborators}.
Local Open Scope pym_scope.

Lemma framed_Rt : framed Rt.
Proof. by repeat split. Qed.
Lemma framed_design_var_dict : framed design_var_dict.
Proof. by repeat split. Qed.
Lemma framed_trace : framed trace.
Proof. by repeat split. Qed.

Lemma append_inputs_grown inputs (d : odict design_var) :
  grown (eq 1) (histories dv_listval d)
    (histories dv_listval (append_inputs inputs d)).
Proof.
  induction d as [|[key dv] d IH]; constructor; [|done].
  split; [done|]. by exists [inputs key].
Qed.

Lemma update_entries_grown tx (d : odict res_var) : forall w r d' w',
  update_entries tx d w = (r, d', w') ->
  grown (fun n => n <= 1) (histories rv_listval d) (histories rv_listval d')
  /\ (is_return r = true ->
      grown (eq 1) (histories rv_listval d) (histories rv_listval d')).
Proof.
  induction d as [|[key rv] d IH]; intros w r d' w' Hrun; cbn in Hrun.
  - injection Hrun as <- <- <-. split; [|intros _]; constructor.
  - destruct (read_result tx (rv_getcommand rv) w) as [[x|e|] w1].
    + destruct (update_entries tx d w1) as [[r1 d1] w2] eqn:Hrest.
      injection Hrun as <- <- <-. destruct (IH _ _ _ _ Hrest) as [Hle Heq].
      split; [|intros Hr; specialize (Heq Hr)];
        (constructor; [|done]); (split; [done|]); exists [x]; cbn; auto.
    + injection Hrun as <- <- <-. split; [|done].
      apply grown_refl. lia.
    + injection Hrun as <- <- <-. split; [|done].
      apply grown_refl. lia.
Qed.

Lemma module_chain_unchanged {X} (f : state -> X) :
  (forall st w, f (set_env w st) = f st) ->
  (forall st n, f (set_counter n st) = f st) ->
  preserves (unchanged f) module_chain.
Proof.
  intros Hw Hn. unfold module_chain.
  repeat first
    [ apply preserves_bind; [apply _| |intros ?]
    | apply preserves_if
    | apply preserves_ret; apply _
    | apply preserves_lift; apply _
    | apply preserves_gets; apply _
    | apply preserves_call; intros ? ?; apply Hw
    | apply preserves_modify; intros ?; apply Hn ].
Qed.

Lemma update_res_var_dict_unchanged {X} (f : state -> X) tx :
  framed f -> preserves (unchanged f) (update_res_var_dict tx).
Proof.
  intros (Hw & _ & Hd) st. unfold update_res_var_dict.
  destruct (update_entries tx (res_var_dict st) (env st)) as [[r d] w]. cbn.
  unfold unchanged. by rewrite Hw, Hd.
Qed.

Lemma compute_obj_global_state st : (compute_obj_global st).2 = st.
Proof. unfold compute_obj_global, bind, gets, lift. done. Qed.

Lemma one_iteration_unchanged {X} (f : state -> X) :
  framed f -> preserves (unchanged f) one_iteration.
Proof.
  intros Hf. unfold one_iteration.
  apply preserves_bind; [apply _| |intros tx].
  - destruct Hf as (Hw & Hn & _). by apply module_chain_unchanged.
  - apply preserves_bind; [apply _| |intros _].
    + by apply update_res_var_dict_unchanged.
    + intros st. by rewrite compute_obj_global_state.
Qed.

Lemma one_iteration_res st r st' :
  one_iteration st = (r, st') ->
  grown (fun n => n <= 1) (res_histories st) (res_histories st')
  /\ (is_return r = true -> grown (eq 1) (res_histories st) (res_histories st')).
Proof.
  unfold one_iteration, bind, res_histories.
  pose proof (module_chain_res_var_dict st) as Hchain. unfold unchanged in Hchain.
  destruct (module_chain st) as [[tx|e|] st1]; cbn in Hchain.
  - unfold update_res_var_dict.
    destruct (update_entries tx (res_var_dict st1) (env st1)) as [[ru d] w] eqn:Hu.
    apply update_entries_grown in Hu as [Hle Heq]. rewrite Hchain in Hle, Heq.
    destruct ru as [[]|e|].
    + pose proof (compute_obj_global_state (set_env w (set_res_var_dict d st1)))
        as Hst.
      destruct (compute_obj_global (set_env w (set_res_var_dict d st1)))
        as [r2 st2]. cbn in Hst. subst st2.
      intros [= <- <-]. cbn. split; [done|]. intros _. by apply Heq.
    + intros [= <- <-]. cbn. split; done.
    + intros [= <- <-]. cbn. split; done.
  - intros [= <- <-]. rewrite Hchain. split; [|done]. apply grown_refl. lia.
  - intros [= <- <-]. rewrite Hchain. split; [|done]. apply grown_refl. lia.
Qed.

End RunFacts.

Section IterationOrder.
Context `{C : Collaborators}.
Local Open Scope pym_scope.

Lemma objective_compute_effect inputs (outputs : gmap string float) st r st' :
  objective_compute inputs outputs st = (r, st') ->
  Rt st' = Rt st
  /\ design_var_dict st' = append_inputs inputs (design_var_dict st)
  /\ trace st' = trace st ++ [ObjectiveComputed]
  /\ grown (fun n => n <= 1) (res_histories st) (res_histories st')
  /\ (is_return r = true ->
      grown (eq 1) (res_histories st) (res_histories st')
      /\ exists x, r = Return (<[Rt_objective (Rt st) := x]> outputs)).
Proof.
  unfold objective_compute, bind, emit, modify, gets, ret. cbn.
  set (st0 := set_design_var_dict _ _).
  pose proof (one_iteration_unchanged Rt framed_Rt st0) as HRt.
  pose proof (one_iteration_unchanged design_var_dict framed_design_var_dict st0)
    as Hdes.
  pose proof (one_iteration_unchanged trace framed_trace st0) as Htr.
  unfold unchanged in HRt, Hdes, Htr.
  destruct (one_iteration st0) as [ro st1] eqn:Hit.
  apply one_iteration_res in Hit as [Hle Heq]. cbn in HRt, Hdes, Htr.
  intros Hrun.
  assert (Hst : st1 = st' /\ (is_return r = true ->
            exists x, r = Return (<[Rt_objective (Rt st) := x]> outputs))
            /\ (is_return r = true -> is_return ro = true)).
  { destruct ro as [x|e|]; injection Hrun as <- <-; (split; [done|]).
    - split; [|done]. intros _. exists x. by rewrite HRt.
    - split; done.
    - split; done. }
  destruct Hst as (<- & Hx & Hro).
  split; [done|]. split; [done|]. split; [done|].
  split; [done|]. intros Hr. split; [apply Heq|]; auto.
Qed.

Lemma constraint_compute_effect (outputs : gmap string float) st :
  constraint_compute outputs st
  = (set_outputs (res_var_dict st) outputs,
     set_trace (trace st ++ [ConstraintComputed]) st).
Proof. reflexivity. Qed.

Lemma set_outputs_returns (d : odict res_var) :
  Forall (fun kv => rv_listval kv.2 <> []) d ->
  forall outputs : gmap string float,
    exists c : gmap string float, set_outputs d outputs = Return c.
Proof.
  induction d as [|[key rv] d IH]; intros Hne outputs; [by eexists|].
  apply Forall_cons in Hne as [Hrv Hne]. cbn in *.
  destruct (proj2 (last_is_Some (rv_listval rv)) Hrv) as [x Hx].
  unfold list_last. rewrite Hx. cbn. apply IH, Hne.
Qed.

Lemma grown_one_nonempty (d d' : odict res_var) :
  grown (eq 1) (histories rv_listval d) (histories rv_listval d') ->
  Forall (fun kv => rv_listval kv.2 <> []) d'.
Proof.
  revert d. induction d' as [|[key rv] d' IH]; intros d Hg; [constructor|].
  destruct d as [|[key0 rv0] d]; inversion Hg as [|? ? ? ? (_ & s & Hs & Hn) Hrest];
    subst.
  constructor; [|by eapply IH].
  cbn in *. rewrite Hs. destruct s; [done|]. by destruct (rv_listval rv0).
Qed.

(** One evaluation of the model [run_routine] builds. *)
Lemma solve_nonlinear_effect point (vec : vectors) st r st' :
  solve_nonlinear model_subsystems point vec st = (r, st') ->
  Rt st' = Rt st
  /\ design_var_dict st' = append_inputs point (design_var_dict st)
  /\ ((is_return r = false
       /\ trace st' = trace st ++ [ObjectiveComputed]
       /\ grown (fun n => n <= 1) (res_histories st) (res_histories st'))
      \/ (trace st' = trace st ++ [ObjectiveComputed; ConstraintComputed]
          /\ grown (eq 1) (res_histories st) (res_histories st')
          /\ exists x (c : gmap string float),
               r = Return (<[Rt_objective (Rt st) := x]> vec.1, c)
               /\ set_outputs (res_var_dict st') vec.2 = Return c)).
Proof.
  cbn [solve_nonlinear model_subsystems]. unfold bind at 1.
  destruct (objective_compute point vec.1 st) as [ro st1] eqn:Hobj.
  apply objective_compute_effect in Hobj as (HRt & Hdes & Htr & Hle & Hret).
  destruct ro as [o|e|].
  - destruct (Hret eq_refl) as (Heq & x & [= ->]).
    unfold bind. rewrite constraint_compute_effect. cbn [fst snd].
    destruct (set_outputs_returns _ (grown_one_nonempty _ _ Heq) vec.2)
      as [c Hc].
    rewrite Hc. cbn. intros [= <- <-]. cbn.
    split; [done|]. split; [done|]. right.
    split; [by rewrite Htr, <- app_assoc|]. split; [done|]. eauto.
  - intros [= <- <-]. split; [done|]. split; [done|]. by left.
  - intros [= <- <-]. split; [done|]. split; [done|]. by left.
Qed.

End IterationOrder.

Section IterationProperties.
Context `{C : Collaborators}.

Lemma grown_one_last (d d' : odict res_var) :
  grown (eq 1) (histories rv_listval d) (histories rv_listval d') ->
  Forall2 (fun old new =>
             new.1 = old.1
             /\ exists x, rv_listval new.2 = rv_listval old.2 ++ [x]
                          /\ list_last (rv_listval new.2) = Return x) d d'.
Proof.
  revert d'. induction d as [|[key rv] d IH]; intros [|[key' rv'] d'] Hg;
    inversion Hg as [|? ? ? ? (Hk & s & Hs & Hn) Hrest]; subst; constructor.
  - cbn in *. split; [done|].
    destruct s as [|x [|y s]]; cbn in Hn; try lia.
    exists x. split; [done|]. unfold list_last. by rewrite Hs, last_snoc.
  - by apply IH.
Qed.

(** C2: in one evaluation of the model [run_routine] builds, the compute of
    the objective adapter runs first and appends one value to every design
    history.  Either it fails, and then the constraint adapter is not
    evaluated at all and no result history has gained more than one value;
    or the constraint adapter is evaluated right after it, every result
    history has gained exactly one value [x] in this evaluation, and that
    [x] is the last element the constraint adapter reads: its outputs are
    computed from the dictionary this evaluation has left (and, display
    names being distinct, the output of each result variable is [x]). *)
Theorem constraint_after_objective (point : string -> float) (vec : vectors)
    (st : state) (r : outcome vectors) (st' : state) :
  solve_nonlinear model_subsystems point vec st = (r, st') ->
  grown (eq 1) (design_histories st) (design_histories st')
  /\ ((trace st' = trace st ++ [ObjectiveComputed]
       /\ is_return r = false
       /\ grown (fun n => n <= 1) (res_histories st) (res_histories st'))
      \/ (trace st' = trace st ++ [ObjectiveComputed; ConstraintComputed]
          /\ Forall2 (fun old new =>
                        new.1 = old.1
                        /\ exists x,
                             rv_listval new.2 = rv_listval old.2 ++ [x]
                             /\ list_last (rv_listval new.2) = Return x)
               (res_var_dict st) (res_var_dict st')
          /\ exists (o c : gmap string float),
               r = Return (o, c)
               /\ set_outputs (res_var_dict st') vec.2 = Return c
               /\ (NoDup (map (fun kv => rv_name kv.2) (res_var_dict st')) ->
                   forall key rv, (key, rv) ∈ res_var_dict st' ->
                     c !! rv_name rv = last (rv_listval rv)))).
Proof.
  intros Hrun.
  apply solve_nonlinear_effect in Hrun as (_ & Hdes & [(Hr & Htr & Hle)|Hok]).
  - split; [|by left]. unfold design_histories. rewrite Hdes.
    apply append_inputs_grown.
  - split.
    { unfold design_histories. rewrite Hdes. apply append_inputs_grown. }
    right. destruct Hok as (Htr & Heq & x & c & -> & Hc).
    split; [done|]. split; [by apply grown_one_last|].
    exists (<[Rt_objective (Rt st) := x]> vec.1), c.
    split; [done|]. split; [done|]. intros Hnd key rv Hin.
    destruct (set_outputs_lookup _ (grown_one_nonempty _ _ Heq) Hnd vec.2)
      as (c' & Hc' & Hlook & _).
    rewrite Hc in Hc'. injection Hc' as <-. by apply (Hlook key).
Qed.

End IterationProperties.

(** One evaluation in the small setting: objective, then constraint; the
    histories of [cl], [cd], [cms] gain 0.5, 0.1, 0.1, which are the
    outputs of the constraint adapter. *)
Lemma constraint_after_objective_sample :
  @trace (sample false) sample_run.2
  = [ObjectiveComputed; ConstraintComputed]
  /\ histories rv_listval (@res_var_dict (sample false) sample_run.2)
     = [("cl", [0.3; 0.5]); ("cd", [0.2; 0.1]); ("cms", [0; 0.1])]%float
  /\ exists o c : gmap string float,
       sample_run.1 = Return (o, c)
       /\ c !! "cl" = Some 0.5%float
       /\ c !! "cd" = Some 0.1%float
       /\ c !! "cms" = Some 0.1%float.
Proof.
  destruct (@constraint_after_objective (sample false) sample_point (∅, ∅)
              (sample_state false "Optim") sample_run.1 sample_run.2
              (surjective_pairing _))
    as [_ [(_ & Hr & _)|(Htr & _ & o & c & Hr & _ & Hlook)]].
  - vm_compute in Hr. discriminate Hr.
  - split; [exact Htr|]. split; [vm_compute; reflexivity|].
    exists o, c. split; [exact Hr|].
    assert (Hnd : NoDup (map (fun kv => rv_name kv.2)
                    (@res_var_dict (sample false) sample_run.2)))
      by (vm_compute; compute_done).
    split; [|split].
    + apply (Hlook Hnd "cl" (ResVar "cl" [0.3; 0.5] 0 1 "cl")%float).
      vm_compute. apply list_elem_of_here.
    + apply (Hlook Hnd "cd" (ResVar "cd" [0.2; 0.1] 0 1 "cd")%float).
      vm_compute. apply list_elem_of_further, list_elem_of_here.
    + apply (Hlook Hnd "cms" (ResVar "cms" [0; 0.1] (-1) 1 "cms")%float).
      vm_compute.
      apply list_elem_of_further, list_elem_of_further, list_elem_of_here.
Defined.


(** ** The whole run *)

Section RunProperties.
Context `{C : Collaborators}.
Local Open Scope pym_scope.

(** What a run of the driver does to the trace and to the histories:
    [n] evaluations of the objective were started. *)
Lemma drive_effect (fuel : nat) : forall drv seen vec st r st',
  drive fuel drv model_subsystems seen vec st = (r, st') ->
  Rt st' = Rt st
  /\ exists evs,
       trace st' = trace st ++ evs
       /\ ordered false evs = true
       /\ objective_count evs <= fuel
       /\ grown (eq (objective_count evs))
            (design_histories st) (design_histories st')
       /\ grown (fun k => k <= objective_count evs)
            (res_histories st) (res_histories st')
       /\ forall seen', r = Return seen' ->
            length seen' = length seen + objective_count evs
            /\ grown (eq (objective_count evs))
                 (res_histories st) (res_histories st').
Proof.
  induction fuel as [|fuel IH]; intros drv seen vec st r st' Hrun.
  - injection Hrun as <- <-. split; [done|]. exists [].
    rewrite app_nil_r. cbn.
    split; [done|]. split; [done|]. split; [lia|].
    split; [by apply grown_refl|]. split; [apply grown_refl; lia|].
    intros ? [= <-]. split; [lia|by apply grown_refl].
  - cbn [drive] in Hrun. destruct (driver_next drv seen) as [point|].
    + unfold bind in Hrun.
      destruct (solve_nonlinear model_subsystems point vec st) as [r1 st1]
        eqn:Hstep.
      apply solve_nonlinear_effect in Hstep
        as (HRt & Hdes & [(Hr1 & Htr & Hle)|(Htr & Heq & x & c & -> & _)]).
      * assert (r = match r1 with Return _ => Unmodelled | Raise e => Raise e
                              | Unmodelled => Unmodelled end /\ st' = st1)
          as [-> ->] by (destruct r1; [done|by injection Hrun..]).
        split; [done|]. exists [ObjectiveComputed]. cbn.
        split; [done|]. split; [done|]. split; [lia|].
        split.
        { unfold design_histories. rewrite Hdes. apply append_inputs_grown. }
        split; [done|]. intros seen' Hs. by destruct r1.
      * apply IH in Hrun as (HRt' & evs & Htr' & Hord & Hcnt & Hd & Hres & Hok).
        split; [congruence|].
        exists ([ObjectiveComputed; ConstraintComputed] ++ evs).
        split; [by rewrite Htr', Htr, <- app_assoc|].
        split; [done|]. cbn [app objective_count]. split; [lia|].
        assert (Hd1 : grown (eq 1) (design_histories st) (design_histories st1)).
        { unfold design_histories. rewrite Hdes. apply append_inputs_grown. }
        split.
        { eapply grown_trans; [|exact Hd1|exact Hd]. intros; lia. }
        split.
        { eapply grown_trans; [|exact Heq|exact Hres].
          intros n m <- Hm. cbn in *. lia. }
        intros seen' Hs. destruct (Hok seen' Hs) as [Hlen Hres'].
        rewrite length_app in Hlen. cbn in Hlen. split; [lia|].
        eapply grown_trans; [|exact Heq|exact Hres']. intros; lia.
    + injection Hrun as <- <-. split; [done|]. exists [].
      rewrite app_nil_r. cbn.
      split; [done|]. split; [done|]. split; [lia|].
      split; [by apply grown_refl|]. split; [apply grown_refl; lia|].
      intros ? [= <-]. split; [lia|by apply grown_refl].
Qed.

Lemma objective_compute_appends inputs (outputs : gmap string float) st :
  design_var_dict (objective_compute inputs outputs st).2
  = append_inputs inputs (design_var_dict st).
Proof.
  destruct (objective_compute inputs outputs st) as [r st'] eqn:Hrun.
  by apply objective_compute_effect in Hrun as (_ & Hdes & _).
Qed.

(** C4: every history is append-only over a run of the driver: each
    history at the end is the history at the start followed by new values.
    A call of the objective adapter's compute appends exactly one value,
    the proposed one, to every design history, and [one_iteration] runs in
    the state so extended.  When the run returns after [N] completed
    iterations, every design history and every result history has gained
    exactly [N] values; a design history that started from one seed value
    has length [N + 1]. *)
Theorem histories_append_only (fuel : nat) (drv : driver)
    (seen : list vectors) (vec : vectors) (st : state)
    (r : outcome (list vectors)) (st' : state) :
  drive fuel drv model_subsystems seen vec st = (r, st') ->
  (forall inputs outputs st0,
     design_var_dict (objective_compute inputs outputs st0).2
     = map (fun kv => (kv.1, dv_append (inputs kv.1) kv.2))
         (design_var_dict st0)
     /\ exists k,
          objective_compute inputs outputs st0
          = bind one_iteration k
              (set_design_var_dict
                 (append_inputs inputs (design_var_dict st0))
                 (set_trace (trace st0 ++ [ObjectiveComputed]) st0)))
  /\ grown (fun _ => True) (design_histories st) (design_histories st')
  /\ grown (fun _ => True) (res_histories st) (res_histories st')
  /\ forall seen', r = Return seen' ->
       exists N,
         length seen' = length seen + N
         /\ grown (eq N) (design_histories st) (design_histories st')
         /\ grown (eq N) (res_histories st) (res_histories st')
         /\ (Forall (fun kh => length kh.2 = 1) (design_histories st) ->
             Forall (fun kh => length kh.2 = N + 1) (design_histories st')).
Proof.
  intros Hrun.
  apply drive_effect in Hrun as (_ & evs & _ & _ & _ & Hd & Hres & Hok).
  split; [|split; [|split]].
  - intros inputs outputs st0. split; [apply objective_compute_appends|].
    by eexists.
  - by eapply grown_weaken; [|exact Hd].
  - by eapply grown_weaken; [|exact Hres].
  - intros seen' Hs. destruct (Hok seen' Hs) as [Hlen Hres'].
    exists (objective_count evs). split; [done|]. split; [done|].
    split; [done|]. intros Hseed.
    apply grown_length in Hd. revert Hseed.
    induction Hd as [|a b h h' [_ Hl] _ IHd]; intros Hseed; [constructor|].
    apply Forall_cons in Hseed as [Ha Hseed].
    constructor; [lia|by apply IHd].
Qed.

End RunProperties.

(** A run of two iterations in the small setting: the design history of
    [span], seeded with one value, ends with three. *)
Lemma histories_append_only_sample :
  Forall (fun kh => length kh.2 = 1)
    (@design_histories (sample false) (sample_state false "Optim"))
  /\ Forall (fun kh => length kh.2 = 3)
       (@design_histories (sample false) sample_drive.2).
Proof.
  assert (Hseed : Forall (fun kh => length kh.2 = 1)
            (@design_histories (sample false) (sample_state false "Optim")))
    by (repeat constructor).
  split; [exact Hseed|].
  destruct (@histories_append_only (sample false) 10
              (ScipyOptimizeDriver "COBYLA" 10) [] (∅, ∅)
              (sample_state false "Optim") sample_drive.1 sample_drive.2
              (surjective_pairing _)) as (_ & _ & _ & Hok).
  assert (Hl : match sample_drive.1 with Return l => length l | _ => O end = 2)
    by (vm_compute; reflexivity).
  destruct sample_drive.1 as [seen'|e|]; [|discriminate Hl..].
  destruct (Hok seen' eq_refl) as (N & Hlen & _ & _ & Hlast).
  rewrite Hl in Hlen. cbn in Hlen. subst N.
  exact (Hlast Hseed).
Defined.

Section SetupProperties.
Context `{C : Collaborators}.
Local Open Scope pym_scope.

Lemma objective_setup_state st : (objective_setup st).2 = st.
Proof. reflexivity. Qed.

Lemma constraint_setup_state st : (constraint_setup st).2 = st.
Proof. reflexivity. Qed.

Lemma prob_setup_state subs : forall vec st, (prob_setup subs vec st).2 = st.
Proof.
  induction subs as [|[name c] subs IH]; intros vec st; [done|].
  destruct c; cbn [prob_setup]; [apply IH| |]; unfold bind.
  - pose proof (objective_setup_state st) as Hs.
    destruct (objective_setup st) as [[ps|e|] st1]; cbn in Hs; subst; [|done..].
    apply IH.
  - pose proof (constraint_setup_state st) as Hs.
    destruct (constraint_setup st) as [[ps|e|] st1]; cbn in Hs; subst; [|done..].
    apply IH.
Qed.

Lemma choose_driver_optim rt log drv log0 :
  Rt_type rt = "Optim" ->
  choose_driver rt log = (Return (Some drv), log0) ->
  drv = ScipyOptimizeDriver (Rt_driver rt) 10.
Proof.
  unfold choose_driver. intros ->. cbn. unfold reg_bind, register.
  destruct (om_refuses log _); [done|]. by intros [= <- _].
Qed.

(** A run of [run_routine] is a run of the driver (of no evaluation at all
    when the routine fails before it), followed by [read_results]; the
    driver is the one chosen for the Routine, and it runs on the evaluations
    the framework lets it make. *)
Lemma run_routine_drive st r st' :
  run_routine st = (r, st') ->
  exists fuel drv vec rd st2,
    drive fuel drv model_subsystems [] vec st = (rd, st2)
    /\ (is_return r = true -> is_return rd = true)
    /\ (fuel = 0
        \/ fuel = max_evaluations drv
           /\ exists log0, choose_driver (Rt st) [] = (Return (Some drv), log0))
    /\ exists w, st' = set_env w st2.
Proof.
  assert (Hnone : forall (r0 : outcome unit),
            is_return r0 = false -> (r0, st) = (r, st') ->
            exists fuel drv vec rd st2,
              drive fuel drv model_subsystems [] vec st = (rd, st2)
              /\ (is_return r = true -> is_return rd = true)
              /\ (fuel = 0
                  \/ fuel = max_evaluations drv
                     /\ exists log0,
                          choose_driver (Rt st) [] = (Return (Some drv), log0))
              /\ exists w, st' = set_env w st2).
  { intros r0 Hr0 [= <- <-].
    exists 0, (DOEDriver 0), (∅, ∅), (Return []), st.
    split; [done|]. split; [by rewrite Hr0|]. split; [by left|].
    exists (env st). by destruct st. }
  unfold run_routine, bind, gets, lift. cbn.
  destruct (build_problem (Rt st) (design_var_dict st) (res_var_dict st) [])
    as [[p|e|] log] eqn:Hp; cbn; [|by apply Hnone..].
  apply build_problem_inv in Hp as (log0 & _ & _ & Hc & _ & _ & _ & Hsubs).
  pose proof (prob_setup_state (subsystems p) (∅, ∅) st) as Hs.
  destruct (prob_setup (subsystems p) (∅, ∅) st) as [[vec|e|] st1];
    cbn in Hs; subst st1; [|by apply Hnone..].
  unfold run_driver. rewrite Hsubs.
  destruct (drive (max_evaluations (prob_driver p)) (prob_driver p)
              model_subsystems [] vec st) as [rd st2] eqn:Hd.
  intros Hrun.
  exists (max_evaluations (prob_driver p)), (prob_driver p), vec, rd, st2.
  split; [done|].
  assert (Hchosen : max_evaluations (prob_driver p) = 0
            \/ max_evaluations (prob_driver p) = max_evaluations (prob_driver p)
               /\ exists log0,
                    choose_driver (Rt st) []
                    = (Return (Some (prob_driver p)), log0))
    by (right; eauto).
  destruct rd as [seen|e|].
  - unfold call in Hrun. destruct (read_results (env st2)) as [rr w].
    injection Hrun as <- <-. split; [done|]. split; [done|]. by exists w.
  - injection Hrun as <- <-. split; [done|]. split; [done|].
    exists (env st2). by destruct st2.
  - injection Hrun as <- <-. split; [done|]. split; [done|].
    exists (env st2). by destruct st2.
Qed.

Lemma bounded_run_same budget st st' :
  trace st' = trace st -> bounded_run budget st st'.
Proof.
  intros Htr. exists []. rewrite app_nil_r. cbn. split; [done|]. split; [done|lia].
Qed.

(** A run evaluates the model no more often than the framework lets the
    chosen driver. *)
Lemma run_routine_effect st r st' :
  run_routine st = (r, st') ->
  Rt st' = Rt st
  /\ forall drv0,
       (forall drv log0,
          choose_driver (Rt st) [] = (Return (Some drv), log0) -> drv = drv0) ->
       bounded_run (max_evaluations drv0) st st'.
Proof.
  intros Hrun.
  apply run_routine_drive in Hrun
    as (fuel & drv & vec & rd & st2 & Hd & _ & Hfuel & w & ->).
  apply drive_effect in Hd as (HRt & evs & Htr & Hord & Hcnt & _).
  split; [done|]. intros drv0 Hdrv.
  exists evs. cbn. split; [done|]. split; [done|].
  destruct Hfuel as [->|[-> [log0 Hc]]]; [lia|].
  by rewrite <- (Hdrv _ _ Hc).
Qed.

Lemma routine_setup_effect modules routine_type st r st' :
  routine_setup modules routine_type st = (r, st') ->
  Rt_type (Rt st') = routine_type
  /\ Rt_modules (Rt st') = modules
  /\ Rt_driver (Rt st') = "COBYLA"
  /\ Rt_objective (Rt st') = "cl/cd"
  /\ forall drv0,
       (forall drv log0,
          choose_driver (Rt st') [] = (Return (Some drv), log0) ->
          drv = drv0) ->
       bounded_run (max_evaluations drv0) st st'.
Proof.
  assert (Hstop : forall (r0 : outcome unit) st0,
            Rt_type (Rt st0) = routine_type ->
            Rt_modules (Rt st0) = modules ->
            Rt_driver (Rt st0) = "COBYLA" ->
            Rt_objective (Rt st0) = "cl/cd" ->
            trace st0 = trace st ->
            (r0, st0) = (r, st') ->
            Rt_type (Rt st') = routine_type
            /\ Rt_modules (Rt st') = modules
            /\ Rt_driver (Rt st') = "COBYLA"
            /\ Rt_objective (Rt st') = "cl/cd"
            /\ forall drv0,
                 (forall drv log0,
                    choose_driver (Rt st') [] = (Return (Some drv), log0) ->
                    drv = drv0) ->
                 bounded_run (max_evaluations drv0) st st').
  { intros r0 st0 ? ? ? ? ? [= <- <-].
    repeat (split; [done|]). intros drv0 _. by apply bounded_run_same. }
  unfold routine_setup, bind, modify, call, lift. cbn -[run_routine].
  destruct (now_strftime (env st)) as [[date|e|] w1]; cbn -[run_routine];
    [|by apply Hstop..].
  destruct (list_first modules) as [first_module|e|]; cbn -[run_routine];
    [|by apply Hstop..].
  destruct (get_toolinput_file_path first_module w1) as [[path|e|] w2]; cbn -[run_routine];
    [|by apply Hstop..].
  destruct (init_dict path w2) as [[dicts|e|] w3]; cbn -[run_routine];
    [|by apply Hstop..].
  destruct (copy_module_to_module first_module "out" "Optimisation" "initial"
              w3) as [[[]|e|] w4]; cbn -[run_routine];
    [|by apply Hstop..].
  destruct (copy_module_to_module first_module "out" "CPACSUpdater" "in" w4)
    as [[[]|e|] w5]; cbn -[run_routine];
    [|by apply Hstop..].
  intros Hrun. apply run_routine_effect in Hrun as [HRt Hb].
  rewrite HRt. cbn. repeat (split; [done|]).
  intros drv0 Hdrv. apply Hb. exact Hdrv.
Qed.

(** C7: whatever its arguments and whatever state it starts in,
    [routine_setup] leaves the optimizer algorithm of the Routine at
    ['COBYLA'] and the objective expression at ['cl/cd']; with the routine
    type ['Optim'] the driver [run_routine] installs is the SciPy optimizer
    driver with that algorithm and an iteration cap of 10, and the run ends
    once the evaluations are used up that the framework lets this driver
    make: their number depends on the algorithm ['COBYLA'] and on the cap
    10 alone. *)
Theorem routine_setup_hard_coded (modules : list string)
    (routine_type : string) (st : state) :
  let st' := (routine_setup modules routine_type st).2 in
  Rt_driver (Rt st') = "COBYLA"
  /\ Rt_objective (Rt st') = "cl/cd"
  /\ (routine_type = "Optim" ->
      (forall log,
         om_refuses log (SetOptimizer "COBYLA") = None ->
         (choose_driver (Rt st') log).1
         = Return (Some (ScipyOptimizeDriver "COBYLA" 10)))
      /\ exists evs,
           trace st' = trace st ++ evs
           /\ objective_count evs
              <= max_evaluations (ScipyOptimizeDriver "COBYLA" 10)).
Proof.
  destruct (routine_setup modules routine_type st) as [r st'] eqn:Hrun.
  apply routine_setup_effect in Hrun as (Hty & _ & Hdrv & Hobj & Hbound).
  cbn [snd]. split; [done|]. split; [done|]. intros ->. split.
  - intros log Hacc. unfold choose_driver. rewrite Hty, Hdrv. cbn.
    unfold reg_bind. by rewrite (register_accepted _ _ Hacc).
  - destruct (Hbound (ScipyOptimizeDriver "COBYLA" 10))
      as (evs & Htr & _ & Hcnt); [|by exists evs].
    intros drv log0 Hc. rewrite <- Hdrv.
    by apply (choose_driver_optim _ _ _ _ Hty Hc).
Qed.

End SetupProperties.

(** The bootstrap in the small setting, started from a Routine that holds
    another type, another optimizer and another objective: two iterations
    run, under ['COBYLA'] and ['cl/cd'], of the eleven evaluations the
    framework of the setting would let the driver make. *)
Lemma routine_setup_hard_coded_sample :
  Rt_driver (@Rt (sample false) sample_other_routine) = "SLSQP"
  /\ Rt_objective (@Rt (sample false) sample_other_routine) = "cd"
  /\ Rt_driver (@Rt (sample false) sample_setup_other.2) = "COBYLA"
  /\ Rt_objective (@Rt (sample false) sample_setup_other.2) = "cl/cd"
  /\ (@choose_driver (sample false)
        (@Rt (sample false) sample_setup_other.2) []).1
     = Return (Some (ScipyOptimizeDriver "COBYLA" 10))
  /\ @trace (sample false) sample_setup_other.2
     = [ObjectiveComputed; ConstraintComputed;
        ObjectiveComputed; ConstraintComputed]
  /\ @max_evaluations (sample false) (ScipyOptimizeDriver "COBYLA" 10) = 11.
Proof.
  destruct (@routine_setup_hard_coded (sample false) ["SU2Run"] "Optim"
              sample_other_routine) as (Hdrv & Hobj & Hopt).
  destruct (Hopt eq_refl) as [Hchosen _].
  split; [reflexivity|]. split; [reflexivity|].
  split; [exact Hdrv|]. split; [exact Hobj|].
  split; [exact (Hchosen [] eq_refl)|].
  split; [vm_compute; reflexivity|reflexivity].
Defined.

(** ** Properties of the module metadata *)

Section SpecsFacts.
Import Specs.

(** C10: every variable the SkinFriction metadata declares is an entry
    with the five fields name, default value, unit, description and path,
    and sits in exactly one of the two lists: the inputs are wetted_area,
    cruise_speed and cruise_alt, the outputs cd0, wing_area and wing_span.
    The path of wetted_area is the imported prefix followed by
    /geometry/analysis/wettedArea, which with the CEASIOMpy prefix is
    /cpacs/toolspecific/CEASIOMpy/geometry/analysis/wettedArea. *)
Theorem skinfriction_metadata :
  (forall prefix,
     map var_name (inputs (skinfriction prefix))
       = ["wetted_area"; "cruise_speed"; "cruise_alt"]
     /\ map var_name (outputs (skinfriction prefix))
       = ["cd0"; "wing_area"; "wing_span"]
     /\ NoDup (map var_name (inputs (skinfriction prefix)
                             ++ outputs (skinfriction prefix)))
     /\ head (inputs (skinfriction prefix))
        = Some (mkEntry "wetted_area" None "m^2"
                  "Wetted area of the aircraft (calculated by SU2)"
                  (prefix +:+ "/geometry/analysis/wettedArea")))
  /\ cpacs_path <$> head (inputs (skinfriction CEASIOM_XPATH))
     = Some "/cpacs/toolspecific/CEASIOMpy/geometry/analysis/wettedArea".
Proof.
  split; [|reflexivity]. intros prefix.
  split; [reflexivity|]. split; [reflexivity|]. split; [|reflexivity].
  compute_done.
Qed.

End SpecsFacts.

(** ** Further properties of [compute_obj] *)

Lemma splt_length s : length (splt s) = S (length (operators s)).
Proof.
  induction s as [|c s IH]; [done|]. cbn [splt operators].
  destruct (op_of_ascii c); cbn; [by rewrite IH|].
  destruct (splt s); cbn in *; lia.
Qed.

(** X1: the tokens [compute_obj] binds are the pieces of the expression
    between the operator characters: there is one more of them than there
    are operators, none contains an operator character, and putting the
    operators back between them gives the expression again. *)
Theorem splt_pieces (s : string) :
  length (splt s) = S (length (operators s))
  /\ Forall (fun t => string_forall (fun c => negb (is_Some_op c)) t = true)
       (splt s)
  /\ rejoin (splt s) (operators s) = s.
Proof.
  split; [apply splt_length|]. split; [apply splt_no_operator|].
  apply splt_rejoin.
Qed.

Lemma exec_assign_view d d' v (ns : namespace) :
  token_view d v = token_view d' v ->
  exec_assign d v ns = exec_assign d' v ns.
Proof.
  unfold token_view, exec_assign, list_last. intros Hv.
  destruct (classify v); [|done..].
  destruct (ns !! "res_var_dict"); [done|].
  destruct (dict_get d v) as [e|], (dict_get d' v) as [e'|]; cbn in Hv;
    try done.
  injection Hv as ->. done.
Qed.

Lemma bind_tokens_view d d' var_list todo :
  Forall (fun t => token_view d t = token_view d' t) todo ->
  forall ns : namespace,
    bind_tokens d var_list todo ns = bind_tokens d' var_list todo ns.
Proof.
  induction todo as [|v todo IH]; intros Hv ns; [done|].
  apply Forall_cons in Hv as [Hv Htodo]. cbn [bind_tokens].
  rewrite (exec_assign_view d d' v _ Hv).
  destruct (exec_assign d' v (locals var_list (Some v) ns)); cbn [obind];
    [by apply IH|done..].
Qed.

Lemma invalid_token_classify t : invalid_token t -> classify t = TokInvalid.
Proof.
  unfold classify. intros [->|[Hd|Hk]]; [done|..].
  - destruct t; [done|]. by rewrite Hd.
  - destruct t; [done|]. rewrite Hk. by destruct (string_forall _ _).
Qed.

(** X3: when a token of the expression is empty (the expression starts or
    ends with an operator, or has two operators in a row), a number
    written in digits only, or a reserved word, and the tokens before it
    are names bound to non-empty histories, [compute_obj] raises
    [SyntaxError]. *)
Theorem compute_obj_invalid_token (objective : string) (d : odict res_var)
    (pre : list string) (t : string) (post : list string) :
  splt objective = pre ++ t :: post ->
  Forall bindable pre ->
  Forall (fun u => is_Some (last_value d u)) pre ->
  invalid_token t ->
  compute_obj objective d = Raise SyntaxError.
Proof.
  intros Hsplit Hb Hs Ht. unfold compute_obj. rewrite Hsplit at 2.
  rewrite bind_tokens_app.
  destruct (bind_tokens_bindable d (splt objective) pre Hb Hs ∅)
    as (ns & -> & _ & _); [done|].
  cbn [obind bind_tokens]. unfold exec_assign.
  by rewrite (invalid_token_classify _ Ht).
Qed.

(** A factor written in digits, a leading operator and the empty
    expression. *)
Lemma compute_obj_invalid_token_sample :
  compute_obj "cl*2" cl_cd_dict = Raise SyntaxError
  /\ compute_obj "-cd" cl_cd_dict = Raise SyntaxError
  /\ compute_obj "" cl_cd_dict = Raise SyntaxError.
Proof.
  split; [|split].
  - apply (compute_obj_invalid_token "cl*2" cl_cd_dict ["cl"] "2" []);
      [reflexivity| | |by right; left].
    + repeat constructor; by apply bindable_dec_true.
    + repeat constructor. by eexists.
  - apply (compute_obj_invalid_token "-cd" cl_cd_dict [] "" ["cd"]);
      [reflexivity|constructor|constructor|by left].
  - apply (compute_obj_invalid_token "" cl_cd_dict [] "" []);
      [reflexivity|constructor|constructor|by left].
Defined.

(** X4: when a token is a name and a key of the dictionary, but its
    history is empty, and the names before it are bound to non-empty
    histories, [compute_obj] raises [IndexError]. *)
Theorem compute_obj_empty_history (objective : string) (d : odict res_var)
    (pre : list string) (t : string) (post : list string)
    (entry : res_var) :
  splt objective = pre ++ t :: post ->
  Forall bindable pre ->
  Forall (fun u => is_Some (last_value d u)) pre ->
  is_name t = true ->
  dict_get d t = Some entry ->
  rv_listval entry = [] ->
  compute_obj objective d = Raise IndexError.
Proof.
  intros Hsplit Hb Hs Hn Hd He. unfold compute_obj. rewrite Hsplit at 2.
  rewrite bind_tokens_app.
  destruct (bind_tokens_bindable d (splt objective) pre Hb Hs ∅)
    as (ns & -> & Hg & _); [done|].
  cbn [obind bind_tokens]. unfold exec_assign, list_last.
  by rewrite (is_name_classify _ Hn), locals_lookup_global, Hg, Hd, He.
Qed.

Lemma compute_obj_empty_history_sample :
  compute_obj "cl/cd" empty_history_dict = Raise IndexError.
Proof.
  by apply (compute_obj_empty_history "cl/cd" empty_history_dict [] "cl"
              ["cd"] (mk_res "cl" [])).
Defined.

Lemma vars_close_sum_incl acc term x :
  x ∈ vars term \/ (exists s o, acc = Some (s, o) /\ x ∈ vars s) ->
  x ∈ vars (close_sum acc term).
Proof.
  destruct acc as [[s o]|]; cbn.
  - intros [Hx|(s' & o' & [= <- <-] & Hx)]; apply elem_of_app; auto.
  - intros [Hx|(s' & o' & [=] & _)]. done.
Qed.

Lemma vars_group_incl rest : forall acc term x,
  x ∈ vars term \/ x ∈ map snd rest
  \/ (exists s o, acc = Some (s, o) /\ x ∈ vars s) ->
  x ∈ vars (group acc term rest).
Proof.
  induction rest as [|[o t] rest IH]; intros acc term x Hx; cbn [group].
  - apply vars_close_sum_incl. destruct Hx as [?|[Hx|?]]; auto.
    by apply elem_of_nil in Hx.
  - destruct (is_additive o); apply IH.
    + destruct Hx as [Hx|[Hx|Hx]].
      * right; right. eexists _, _. split; [done|].
        apply vars_close_sum_incl. by left.
      * cbn in Hx. apply elem_of_cons in Hx as [->|Hx]; [|by right; left].
        left. apply list_elem_of_here.
      * right; right. eexists _, _. split; [done|].
        apply vars_close_sum_incl. by right.
    + destruct Hx as [Hx|[Hx|Hx]].
      * left. cbn. apply elem_of_app. by left.
      * cbn in Hx. apply elem_of_cons in Hx as [->|Hx]; [|by right; left].
        left. cbn. apply elem_of_app. right. apply list_elem_of_here.
      * by right; right.
Qed.

Lemma snd_combine_all {A B} (l : list A) (m : list B) :
  length l = length m -> map snd (combine l m) = m.
Proof.
  revert m. induction l as [|a l IH]; intros [|b m] Hlen; cbn in *;
    try done.
  f_equal. apply IH. lia.
Qed.

Lemma splt_vars s x : x ∈ splt s -> x ∈ vars (token_expr s).
Proof.
  unfold token_expr. pose proof (splt_length s) as Hlen.
  destruct (splt s) as [|t ts]; [by intros ?%elem_of_nil|].
  intros [->|Hx]%elem_of_cons; apply vars_group_incl.
  - left. apply list_elem_of_here.
  - right; left. rewrite snd_combine_all; [done|]. cbn in Hlen. lia.
Qed.

Lemma py_binop_modelled o a b : py_binop o a b <> Unmodelled.
Proof.
  unfold py_binop, float_binop, obind.
  destruct a as [x|s|l], b as [y|s'|l'], o; try done.
  by destruct (float_is_zero y).
Qed.

Lemma py_binop_non_float o a b :
  non_float a \/ non_float b -> no_float_result (py_binop o a b).
Proof.
  unfold non_float, no_float_result, py_binop.
  destruct a as [x|s|l], b as [y|s'|l'], o; intros [H|H];
    try (by destruct (H _ eq_refl));
    try (by left; eexists); by right; eexists; split; [done|].
Qed.

Lemma eval_expr_modelled (ns : namespace) e :
  (forall x, x ∈ vars e -> bound_name ns x) -> eval_expr ns e <> Unmodelled.
Proof.
  induction e as [x|l IHl o r IHr]; intros Hb; cbn.
  - destruct (Hb x) as [[a Ha]| ->]; [apply list_elem_of_here|by rewrite Ha|].
    by destruct (ns !! "result").
  - cbn in Hb.
    assert (Hl := IHl (fun x Hx => Hb x (proj2 (elem_of_app _ _ _) (or_introl Hx)))).
    assert (Hr := IHr (fun x Hx => Hb x (proj2 (elem_of_app _ _ _) (or_intror Hx)))).
    destruct (eval_expr ns l) as [a| |]; cbn; [|done..].
    destruct (eval_expr ns r) as [b| |]; cbn; [|done..].
    apply py_binop_modelled.
Qed.

Lemma eval_expr_tainted (ns : namespace) e :
  (forall x, x ∈ vars e -> bound_name ns x) ->
  (exists x, x ∈ vars e /\ tainted ns x) ->
  no_float_result (eval_expr ns e).
Proof.
  induction e as [y|l IHl o r IHr]; intros Hb (x & Hx & Ht).
  - cbn in Hx. apply list_elem_of_singleton in Hx as ->. cbn.
    destruct Ht as [[Hn ->]|(a & Ha & Hnf)].
    + rewrite Hn. left. by eexists.
    + rewrite Ha. right. by exists a.
  - cbn [vars] in Hb, Hx. cbn [eval_expr].
    assert (Hbl : forall x, x ∈ vars l -> bound_name ns x)
      by (intros z Hz; apply Hb, elem_of_app; by left).
    assert (Hbr : forall x, x ∈ vars r -> bound_name ns x)
      by (intros z Hz; apply Hb, elem_of_app; by right).
    pose proof (eval_expr_modelled ns l Hbl) as Hml.
    pose proof (eval_expr_modelled ns r Hbr) as Hmr.
    apply elem_of_app in Hx as [Hx|Hx].
    + destruct (IHl Hbl (ex_intro _ x (conj Hx Ht)))
        as [[e ->]|(a & -> & Hnf)]; cbn; [left; by eexists|].
      destruct (eval_expr ns r) as [b|e|]; cbn; [|left; by eexists|done].
      apply py_binop_non_float. by left.
    + destruct (eval_expr ns l) as [a|e|]; cbn; [|left; by eexists|done].
      destruct (IHr Hbr (ex_intro _ x (conj Hx Ht)))
        as [[e ->]|(b & -> & Hnf)]; cbn; [left; by eexists|].
      apply py_binop_non_float. by right.
Qed.

Lemma locals_lookup_local var_list v (ns : namespace) t :
  t ∉ frame_locals -> locals var_list v ns !! t = ns !! t.
Proof.
  unfold frame_locals. intros Ht.
  assert (t <> "var_list" /\ t <> "v" /\ t <> "result") as (H1 & H2 & H3)
    by set_solver.
  unfold locals. destruct v.
  - rewrite lookup_insert_ne by congruence.
    rewrite lookup_insert_ne by congruence.
    by rewrite lookup_delete_ne.
  - rewrite lookup_delete_ne by congruence.
    rewrite lookup_insert_ne by congruence.
    by rewrite lookup_delete_ne.
Qed.

Lemma locals_frame var_list s (ns : namespace) t :
  t ∈ frame_locals -> tainted (locals var_list (Some s) ns) t.
Proof.
  unfold frame_locals, locals, tainted.
  intros [->|[->|[->|Ht%elem_of_nil]%elem_of_cons]%elem_of_cons]%elem_of_cons;
    [| | |done].
  - right. exists (PyList var_list). split; [|done].
    rewrite lookup_insert_ne by done. by rewrite lookup_insert_eq.
  - right. exists (PyStr s). split; [|done]. by rewrite lookup_insert_eq.
  - left. split; [|done].
    rewrite lookup_insert_ne by done. rewrite lookup_insert_ne by done.
    by rewrite lookup_delete_eq.
Qed.

Lemma bind_tokens_names d var_list todo :
  Forall (fun t => is_name t = true /\ t <> "res_var_dict") todo ->
  Forall (fun t => is_Some (last_value d t)) todo ->
  forall ns : namespace,
    ns !! "res_var_dict" = None ->
    exists ns' : namespace,
      bind_tokens d var_list todo ns = Return ns'
      /\ forall t, t ∉ frame_locals ->
           t ∈ todo \/ is_Some (ns !! t) -> is_Some (ns' !! t).
Proof.
  induction todo as [|v todo IH]; intros Hn Hs ns Hg.
  - exists ns. split; [done|]. intros t _ [Hin%elem_of_nil|Hin]; done.
  - apply Forall_cons in Hn as [[Hv Hne] Hn].
    apply Forall_cons in Hs as [[x Hx] Hs].
    apply last_value_inv in Hx as (entry & Hd & Hl).
    cbn [bind_tokens]. unfold exec_assign at 1.
    rewrite (is_name_classify _ Hv), locals_lookup_global, Hg, Hd.
    unfold list_last. rewrite Hl. cbn [obind].
    destruct (IH Hn Hs (<[v := PyFloat x]> (locals var_list (Some v) ns)))
      as (ns' & Hrun & Hdom).
    { rewrite lookup_insert_ne by done. by rewrite locals_lookup_global. }
    exists ns'. split; [done|]. intros t Ht Hin. apply (Hdom t Ht).
    destruct (decide (t = v)) as [->|Htv].
    { right. rewrite lookup_insert_eq. by eexists. }
    destruct Hin as [[?|Hin]%elem_of_cons|Hin]; [done|by left|].
    right. rewrite lookup_insert_ne by done.
    by rewrite locals_lookup_local.
Qed.

Lemma exec_assign_return d v (ns ns' : namespace) :
  exec_assign d v ns = Return ns' ->
  is_name v = true /\ exists x, ns' = <[v := PyFloat x]> ns.
Proof.
  unfold exec_assign, is_name, list_last.
  destruct (classify v); [|done..].
  destruct (ns !! "res_var_dict"); [done|].
  destruct (dict_get d v) as [entry|]; [|done].
  destruct (last (rv_listval entry)) as [x|]; [|done].
  intros [= <-]. eauto.
Qed.

(** Once the loop has returned, every token is a name, and every token
    outside the frame's own variables is bound. *)
Lemma bind_tokens_return d var_list todo : forall ns ns' : namespace,
  bind_tokens d var_list todo ns = Return ns' ->
  Forall (fun t => is_name t = true) todo
  /\ forall t, t ∉ frame_locals ->
       t ∈ todo \/ is_Some (ns !! t) -> is_Some (ns' !! t).
Proof.
  induction todo as [|v todo IH]; intros ns ns' Hrun.
  - injection Hrun as <-. split; [constructor|].
    intros t _ [Hin%elem_of_nil|Hin]; done.
  - cbn [bind_tokens] in Hrun.
    destruct (exec_assign d v (locals var_list (Some v) ns)) as [ns1|e|]
      eqn:Hexec; [|done..].
    cbn [obind] in Hrun.
    apply exec_assign_return in Hexec as (Hname & x & ->).
    destruct (IH _ _ Hrun) as [Hnames Hdom].
    split; [by constructor|]. intros t Ht Hin. apply (Hdom t Ht).
    destruct (decide (t = v)) as [->|Htv].
    { right. rewrite lookup_insert_eq. by eexists. }
    destruct Hin as [[?|Hin]%elem_of_cons|Hin]; [done|by left|].
    right. rewrite lookup_insert_ne by done.
    by rewrite locals_lookup_local.
Qed.

Lemma bind_tokens_modelled d var_list todo : forall ns : namespace,
  Forall (fun t => classify t <> TokOther) todo ->
  bind_tokens d var_list todo ns <> Unmodelled.
Proof.
  induction todo as [|v todo IH]; intros ns Hc; [done|].
  apply Forall_cons in Hc as [Hv Hc]. cbn [bind_tokens].
  pose proof (exec_assign_modelled d v (locals var_list (Some v) ns) Hv).
  destruct (exec_assign d v (locals var_list (Some v) ns)) as [ns1|e|];
    cbn [obind]; [by apply IH|done..].
Qed.

(** On tokens that are names, digit strings, reserved words or empty, the
    embedding follows the interpreter all the way: the outcome is a value
    or an exception. *)
Lemma compute_obj_modelled objective d :
  Forall (fun t => classify t <> TokOther) (splt objective) ->
  compute_obj objective d <> Unmodelled.
Proof.
  intros Hc. unfold compute_obj.
  pose proof (bind_tokens_modelled d (splt objective) (splt objective) ∅ Hc)
    as Hm.
  destruct (bind_tokens d (splt objective) (splt objective) ∅) as [ns|e|]
    eqn:Hrun; [|done..].
  apply bind_tokens_return in Hrun as [Hnames Hdom]. cbn [obind].
  destruct (proj2 (last_is_Some (splt objective)) (splt_nonempty objective))
    as [s ->].
  unfold py_eval, parse_expr.
  rewrite (proj2 (forallb_forall is_name (splt objective))).
  2:{ intros u Hu%list_elem_of_In.
      exact (proj1 (Forall_forall _ _) Hnames u Hu). }
  set (nsf := locals (splt objective) (Some s) ns).
  assert (Hbound : forall x, x ∈ vars (token_expr objective) ->
                     bound_name nsf x).
  { intros x Hx%vars_token_expr.
    destruct (decide (x ∈ frame_locals)) as [Hf|Hf].
    - destruct (locals_frame (splt objective) s ns x Hf)
        as [[_ ->]|(a & Ha & _)]; [by right|left; by eexists].
    - left. unfold nsf. rewrite locals_lookup_local by done.
      apply Hdom; [done|by left]. }
  pose proof (eval_expr_modelled nsf (token_expr objective) Hbound) as He.
  destruct (eval_expr nsf (token_expr objective)) as [a|e|]; [|done..].
  by destruct a.
Qed.

(** X2: on an expression whose tokens are names, digit strings, reserved
    words or empty, [compute_obj] reads nothing of the result dictionary
    but, for each token, whether the token is a key and the last element
    of its history: on two dictionaries that agree on that it gives the
    same outcome, a value or an exception, whatever the order of the
    entries, their display names, bounds, get commands, older history
    values and other entries. *)
Theorem compute_obj_reads_last_only (objective : string)
    (d d' : odict res_var) :
  Forall (fun t => classify t <> TokOther) (splt objective) ->
  Forall (fun t => token_view d t = token_view d' t) (splt objective) ->
  compute_obj objective d = compute_obj objective d'
  /\ compute_obj objective d <> Unmodelled.
Proof.
  intros Hc Hv. split; [|by apply compute_obj_modelled].
  unfold compute_obj. by rewrite (bind_tokens_view d d' _ _ Hv).
Qed.

(** The objective ["cl/cd"] on two dictionaries that show the same last
    values 0.5 and 0.1 in another order, after other older values: -5.0 on
    both. *)
Lemma compute_obj_reads_last_only_sample :
  compute_obj "cl/cd" cl_cd_dict = compute_obj "cl/cd" cl_cd_dict_other
  /\ compute_obj "cl/cd" cl_cd_dict = Return (-5)%float.
Proof.
  split; [|reflexivity].
  apply compute_obj_reads_last_only; repeat constructor; done.
Defined.

(** X5: a result variable keyed [v], [var_list] or [result] cannot take
    part in the objective.  When every token of the expression is a name
    (none of them [res_var_dict]) bound to a non-empty history and one of
    them is a variable of [compute_obj]'s own frame, [compute_obj] raises
    an exception instead of returning a value: at the evaluation the name
    stands for the loop variable, for the token list, or for nothing. *)
Theorem compute_obj_frame_local (objective : string) (d : odict res_var)
    (t : string) :
  Forall (fun u => is_name u = true /\ u <> "res_var_dict") (splt objective) ->
  Forall (fun u => is_Some (last_value d u)) (splt objective) ->
  t ∈ splt objective ->
  t ∈ frame_locals ->
  raises (compute_obj objective d).
Proof.
  intros Hn Hs Hin Hframe. unfold compute_obj.
  destruct (bind_tokens_names d (splt objective) (splt objective) Hn Hs ∅)
    as (ns & -> & Hdom); [done|].
  cbn [obind].
  destruct (proj2 (last_is_Some (splt objective)) (splt_nonempty objective))
    as [s ->].
  unfold py_eval, parse_expr.
  rewrite (proj2 (forallb_forall is_name (splt objective))).
  2:{ intros u Hu%list_elem_of_In.
      by destruct (proj1 (Forall_forall _ _) Hn u Hu). }
  set (nsf := locals (splt objective) (Some s) ns).
  assert (Hbound : forall x, x ∈ vars (token_expr objective) ->
                     bound_name nsf x).
  { intros x Hx%vars_token_expr.
    destruct (decide (x ∈ frame_locals)) as [Hf|Hf].
    - destruct (locals_frame (splt objective) s ns x Hf)
        as [[_ ->]|(a & Ha & _)]; [by right|left; by eexists].
    - left. unfold nsf. rewrite locals_lookup_local by done.
      apply Hdom; [done|by left]. }
  destruct (eval_expr_tainted nsf (token_expr objective) Hbound)
    as [[e ->]|(a & -> & Hnf)].
  - exists t. split; [by apply splt_vars|]. by apply locals_frame.
  - by exists e.
  - cbn. destruct a; [by destruct (Hnf x)|by exists TypeError..].
Qed.

(** A result variable keyed [v] in the objective [v/cd]. *)
Lemma compute_obj_frame_local_sample :
  raises (compute_obj "v/cd" v_dict)
  /\ compute_obj "v/cd" v_dict = Raise TypeError.
Proof.
  split; [|reflexivity].
  apply (compute_obj_frame_local "v/cd" v_dict "v").
  - repeat constructor; done.
  - repeat constructor; by eexists.
  - apply list_elem_of_here.
  - apply list_elem_of_further, list_elem_of_here.
Defined.

(** ** Further properties of the components *)

Section ComponentEdges.
Context `{C : Collaborators}.

Lemma set_outputs_empty_history (d : odict res_var) :
  Exists (fun kv => rv_listval kv.2 = []) d ->
  forall outputs : gmap string float,
    set_outputs d outputs = Raise IndexError.
Proof.
  induction d as [|[key rv] d IH]; intros Hex outputs;
    [by apply Exists_nil in Hex|].
  cbn. unfold list_last.
  destruct (last (rv_listval rv)) as [x|] eqn:Hl; [|done]. cbn.
  apply Exists_cons in Hex as [Hex|Hex]; [|by apply IH].
  cbn in Hex. by rewrite Hex in Hl.
Qed.

Lemma reg_bind_raise {A B} (m : Reg A) (k : A -> Reg B) log e log' :
  m log = (Raise e, log') -> reg_bind m k log = (Raise e, log').
Proof. unfold reg_bind. by intros ->. Qed.

Lemma declared_return {A} (m : Reg A) ps :
  declared m = Return ps -> exists a, m [] = (Return a, ps).
Proof.
  unfold declared. destruct (m []) as [[a|e|] log]; [|done..].
  intros [= <-]. by exists a.
Qed.

Lemma reg_bind_inv {A B} (m : Reg A) (k : A -> Reg B) log b log' :
  reg_bind m k log = (Return b, log') ->
  exists a log1, m log = (Return a, log1) /\ k a log1 = (Return b, log').
Proof.
  unfold reg_bind. destruct (m log) as [[a|e|] log1]; [|done..]. eauto.
Qed.

(** X6: a variable with an empty history stops the components without
    any change of the globals.  The setup of the objective adapter never
    returns when a design variable has an empty history, and raises
    [IndexError] at the first such variable once the framework has
    accepted the inputs of the variables before it; likewise the setup of
    the constraint adapter for a result variable; and each compute of the
    constraint adapter raises [IndexError] when a result variable has an
    empty history. *)
Theorem components_empty_history (st : state) :
  (forall pre key dv post,
     design_var_dict st = pre ++ (key, dv) :: post ->
     dv_listval dv = [] ->
     is_return (objective_setup st).1 = false
     /\ (objective_setup st).2 = st
     /\ (Forall (fun kv => dv_listval kv.2 <> []) pre ->
         accepts_all [] (input_calls pre) ->
         objective_setup st = (Raise IndexError, st)))
  /\ (forall pre key rv post,
        res_var_dict st = pre ++ (key, rv) :: post ->
        rv_listval rv = [] ->
        is_return (constraint_setup st).1 = false
        /\ (constraint_setup st).2 = st
        /\ (Forall (fun kv => rv_listval kv.2 <> []) pre ->
            accepts_all [] (output_calls pre) ->
            constraint_setup st = (Raise IndexError, st))
        /\ forall outputs : gmap string float,
             (constraint_compute outputs st).1 = Raise IndexError
             /\ res_var_dict (constraint_compute outputs st).2
                = res_var_dict st
             /\ design_var_dict (constraint_compute outputs st).2
                = design_var_dict st).
Proof.
  split.
  - intros pre key dv post Hd Hdv. split; [|split; [done|]].
    + unfold objective_setup, bind, gets, lift. cbn [fst].
      destruct (declared _) as [ps|e|] eqn:Hdecl; [|done..].
      apply declared_return in Hdecl as [a Hrun].
      apply reg_bind_inv in Hrun as (u & log1 & Hrun & _).
      apply add_inputs_returns in Hrun. rewrite Hd in Hrun.
      apply Forall_app in Hrun as [_ [Hne _]%Forall_cons]. done.
    + intros Hpre Hacc.
      unfold objective_setup, bind, gets, lift, declared. cbn.
      rewrite Hd.
      rewrite (reg_bind_raise _ _ _ IndexError (input_calls pre)); [done|].
      rewrite add_inputs_app.
      rewrite (reg_bind_return _ _ _ tt (input_calls pre)).
      * cbn. by rewrite Hdv.
      * by rewrite (add_inputs_calls _ Hpre), (register_all_accepted _ _ Hacc).
  - intros pre key rv post Hd Hrv. split; [|split; [done|split]].
    + unfold constraint_setup, bind, gets, lift. cbn [fst].
      destruct (declared _) as [ps|e|] eqn:Hdecl; [|done..].
      apply declared_return in Hdecl as [a Hrun].
      apply add_outputs_returns in Hrun. rewrite Hd in Hrun.
      apply Forall_app in Hrun as [_ [Hne _]%Forall_cons]. done.
    + intros Hpre Hacc.
      unfold constraint_setup, bind, gets, lift, declared. cbn.
      rewrite Hd, add_outputs_app.
      rewrite (reg_bind_return _ _ _ tt (output_calls pre)).
      * cbn. by rewrite Hrv.
      * by rewrite (add_outputs_calls _ Hpre), (register_all_accepted _ _ Hacc).
    + intros outputs. rewrite constraint_compute_effect. cbn.
      rewrite (set_outputs_empty_history (res_var_dict st)); [done|].
      rewrite Hd. apply Exists_app. right. by apply Exists_cons_hd.
Qed.

Lemma set_outputs_by_name (d : odict res_var) :
  forall outputs outputs' : gmap string float,
    set_outputs d outputs = Return outputs' ->
    forall n, outputs' !! n
              = match named_value d n with
                | Some x => Some x
                | None => outputs !! n
                end.
Proof.
  induction d as [|[key rv] d IH]; intros outputs outputs' Hrun n.
  - by injection Hrun as <-.
  - cbn in Hrun. unfold list_last in Hrun.
    destruct (last (rv_listval rv)) as [x|] eqn:Hl; [|done]. cbn in Hrun.
    rewrite (IH _ _ Hrun n). cbn [named_value].
    destruct (named_value d n); [done|].
    destruct (String.eqb_spec (rv_name rv) n) as [->|Hne].
    + by rewrite lookup_insert_eq, Hl.
    + by rewrite lookup_insert_ne.
Qed.

Lemma set_outputs_any_start (d : odict res_var) :
  forall outputs outputs' : gmap string float,
    set_outputs d outputs = Return outputs' ->
    forall start : gmap string float,
      exists final : gmap string float, set_outputs d start = Return final.
Proof.
  induction d as [|[key rv] d IH]; intros outputs outputs' Hrun start;
    [by eexists|].
  cbn in *. unfold list_last in *.
  destruct (last (rv_listval rv)) as [x|]; [|done]. cbn in *.
  by eapply IH.
Qed.

Lemma named_value_none (d : odict res_var) n :
  Forall (fun kv => rv_name kv.2 <> n) d -> named_value d n = None.
Proof.
  induction d as [|[key rv] d IH]; intros Hall; [done|].
  apply Forall_cons in Hall as [Hne Hall]. cbn in *. rewrite (IH Hall).
  by destruct (String.eqb_spec (rv_name rv) n).
Qed.

Lemma named_value_last_entry (d1 d2 : odict res_var) key rv :
  Forall (fun kv => rv_name kv.2 <> rv_name rv) d2 ->
  is_Some (last (rv_listval rv)) ->
  named_value (d1 ++ (key, rv) :: d2) (rv_name rv) = last (rv_listval rv).
Proof.
  intros Hd2 [x Hx]. induction d1 as [|[key1 rv1] d1 IH]; cbn.
  - by rewrite (named_value_none _ _ Hd2), String.eqb_refl.
  - cbn in IH. by rewrite IH, Hx.
Qed.

Lemma set_outputs_histories (d : odict res_var) :
  forall outputs outputs' : gmap string float,
    set_outputs d outputs = Return outputs' ->
    Forall (fun kv => is_Some (last (rv_listval kv.2))) d.
Proof.
  induction d as [|[key rv] d IH]; intros outputs outputs' Hrun;
    [constructor|].
  cbn in Hrun. unfold list_last in Hrun.
  destruct (last (rv_listval rv)) as [x|] eqn:Hl; [|done]. cbn in Hrun.
  constructor; [cbn; by rewrite Hl|by eapply IH].
Qed.

(** X7: the outputs of the constraint adapter are keyed by display name,
    not by dictionary key.  After a compute that returns, the output under
    a display name is the last history element of the last entry of the
    dictionary that carries this name (an earlier entry of the same name
    is overwritten), and an output whose name no entry carries keeps the
    value it had. *)
Theorem constraint_outputs_by_name (outputs outputs' : gmap string float)
    (st st' : state) :
  constraint_compute outputs st = (Return outputs', st') ->
  (forall d1 key rv d2,
     res_var_dict st = d1 ++ (key, rv) :: d2 ->
     Forall (fun kv => rv_name kv.2 <> rv_name rv) d2 ->
     outputs' !! rv_name rv = last (rv_listval rv))
  /\ (forall n,
        Forall (fun kv => rv_name kv.2 <> n) (res_var_dict st) ->
        outputs' !! n = outputs !! n).
Proof.
  rewrite constraint_compute_effect. intros [= Hrun _]. split.
  - intros d1 key rv d2 Hd Hd2.
    rewrite (set_outputs_by_name _ _ _ Hrun).
    pose proof (set_outputs_histories _ _ _ Hrun) as Hh. rewrite Hd in Hh.
    apply Forall_app in Hh as [_ [Hrv _]%Forall_cons].
    cbn in Hrv.
    rewrite Hd, (named_value_last_entry d1 d2 key rv Hd2 Hrv).
    destruct Hrv as [x Hx]. by rewrite Hx.
  - intros n Hn. rewrite (set_outputs_by_name _ _ _ Hrun).
    by rewrite (named_value_none _ _ Hn).
Qed.

(** X8: computing the constraints again without a new iteration changes
    nothing: a compute that returns, started from its own outputs, returns
    the same outputs again and leaves the dictionaries as they are. *)
Theorem constraint_compute_idempotent (outputs outputs' : gmap string float)
    (st st' : state) :
  constraint_compute outputs st = (Return outputs', st') ->
  (constraint_compute outputs' st').1 = Return outputs'
  /\ res_var_dict (constraint_compute outputs' st').2 = res_var_dict st
  /\ design_var_dict (constraint_compute outputs' st').2 = design_var_dict st.
Proof.
  rewrite !constraint_compute_effect. intros [= Hrun <-]. cbn.
  split; [|done].
  destruct (set_outputs_any_start _ _ _ Hrun outputs') as [final Hfinal].
  rewrite Hfinal. f_equal. apply map_eq. intros n.
  rewrite (set_outputs_by_name _ _ _ Hfinal n).
  rewrite (set_outputs_by_name _ _ _ Hrun n).
  by destruct (named_value (res_var_dict st) n).
Qed.

End ComponentEdges.

(** A second variable without history, behind a first one that the
    framework accepts: [IndexError] from both setups and from a compute. *)
Lemma components_empty_history_sample :
  @objective_setup (sample false) sample_second_no_history
  = (Raise IndexError, sample_second_no_history)
  /\ @constraint_setup (sample false)
       (sample_state_with sample_design res_second_no_history ["SU2Run"])
     = (Raise IndexError,
        sample_state_with sample_design res_second_no_history ["SU2Run"])
  /\ (@constraint_compute (sample false) ∅
        (sample_state_with sample_design res_second_no_history ["SU2Run"])).1
     = Raise IndexError.
Proof.
  destruct (@components_empty_history (sample false) sample_second_no_history)
    as [Hobj _].
  destruct (@components_empty_history (sample false)
              (sample_state_with sample_design res_second_no_history
                 ["SU2Run"])) as [_ Hcon].
  destruct (Hobj [("span", DesignVar "span" [30; 31] 20 40 "" "")]%float
              "sweep" (DesignVar "sweep" [] 0 1 "" "")%float [] eq_refl eq_refl)
    as (_ & _ & Hidx).
  destruct (Hcon [("cl", ResVar "cl" [0.3; 0.5] 0 1 "cl")]%float
              "cd" (ResVar "cd" [] 0 1 "cd")%float [] eq_refl eq_refl)
    as (_ & _ & Hidx' & Hcomp).
  split; [|split].
  - apply Hidx; [repeat constructor; done|]. cbn. repeat split; reflexivity.
  - apply Hidx'; [repeat constructor; done|]. cbn. repeat split; reflexivity.
  - apply (Hcomp ∅).
Defined.

(** With two variables named [cd], the output [cd] is the last value of
    the later one. *)
Lemma constraint_outputs_by_name_sample :
  exists outputs' : gmap string float,
    (@constraint_compute (sample false) ∅ shared_name_state).1
    = Return outputs'
    /\ outputs' !! "cd" = Some 0.1%float
    /\ outputs' !! "cd_total" = None.
Proof.
  pose proof (surjective_pairing
                (@constraint_compute (sample false) ∅ shared_name_state))
    as Hc.
  assert (Hret : is_return
            (@constraint_compute (sample false) ∅ shared_name_state).1 = true)
    by (vm_compute; reflexivity).
  destruct (@constraint_compute (sample false) ∅ shared_name_state).1
    as [outputs'|e|]; [|discriminate Hret..].
  exists outputs'. split; [done|].
  destruct (@constraint_outputs_by_name (sample false) _ _ _ _ Hc)
    as [Hlast Hkeep].
  split.
  - apply (Hlast [("cd_wing", ResVar "cd" [0.02] 0 1 "wing");
                  ("cl", ResVar "cl" [0.5] 0 1 "cl")]%float
             "cd_total" (ResVar "cd" [0.03; 0.1] 0 1 "total")%float []);
      [reflexivity|constructor].
  - rewrite (Hkeep "cd_total"); [done|]. repeat constructor; done.
Defined.

Lemma constraint_compute_idempotent_sample :
  exists outputs' : gmap string float,
    (@constraint_compute (sample false) ∅ shared_name_state).1
    = Return outputs'
    /\ (@constraint_compute (sample false) outputs'
          (@constraint_compute (sample false) ∅ shared_name_state).2).1
       = Return outputs'.
Proof.
  pose proof (surjective_pairing
                (@constraint_compute (sample false) ∅ shared_name_state))
    as Hc.
  assert (Hret : is_return
            (@constraint_compute (sample false) ∅ shared_name_state).1 = true)
    by (vm_compute; reflexivity).
  destruct (@constraint_compute (sample false) ∅ shared_name_state).1
    as [outputs'|e|]; [|discriminate Hret..].
  exists outputs'. split; [done|].
  exact (proj1 (@constraint_compute_idempotent (sample false) _ _ _ _ Hc)).
Defined.

(** ** Further properties of an iteration and of a run *)

Section IterationEdges.
Context `{C : Collaborators}.
Local Open Scope pym_scope.

Lemma one_iteration_return st x st' :
  one_iteration st = (Return x, st') ->
  compute_obj (Rt_objective (Rt st)) (res_var_dict st') = Return x.
Proof.
  unfold one_iteration, bind.
  pose proof (module_chain_unchanged Rt (fun _ _ => eq_refl)
                (fun _ _ => eq_refl) st) as HRt.
  unfold unchanged in HRt.
  destruct (module_chain st) as [[tx|e|] st1]; [|done..]. cbn in HRt.
  unfold update_res_var_dict.
  destruct (update_entries tx (res_var_dict st1) (env st1)) as [[ru d] w].
  destruct ru as [[]|e|]; [|done..].
  unfold compute_obj_global, bind, gets, lift. cbn. rewrite HRt.
  destruct (compute_obj (Rt_objective (Rt st)) d) as [a|e|] eqn:Hco;
    [|done..].
  intros [= <- <-]. exact Hco.
Qed.

(** X9: when the compute of the objective adapter returns, the value it
    has stored is the value of [compute_obj] on the result dictionary as
    this iteration has left it, under the configured objective expression;
    it is stored under the output named by that expression, and every
    other output keeps its value. *)
Theorem objective_output (inputs : string -> float)
    (outputs outputs' : gmap string float) (st st' : state) :
  objective_compute inputs outputs st = (Return outputs', st') ->
  exists x,
    compute_obj (Rt_objective (Rt st)) (res_var_dict st') = Return x
    /\ outputs' !! Rt_objective (Rt st) = Some x
    /\ forall n, n <> Rt_objective (Rt st) -> outputs' !! n = outputs !! n.
Proof.
  unfold objective_compute, bind, emit, modify, gets, ret. cbn.
  set (st0 := set_design_var_dict _ _).
  pose proof (one_iteration_unchanged Rt framed_Rt st0) as HRt.
  unfold unchanged in HRt.
  destruct (one_iteration st0) as [[x|e|] st1] eqn:Hit; [|done..].
  cbn in HRt. intros [= <- <-].
  apply one_iteration_return in Hit. exists x. rewrite HRt.
  split; [exact Hit|]. split; [apply lookup_insert_eq|].
  intros n Hn. by apply lookup_insert_ne.
Qed.

Lemma bind_modify {B} (f : state -> state) (k : unit -> M B) st :
  bind (modify f) k st = k tt (f st).
Proof. reflexivity. Qed.

Lemma module_chain_counter st :
  counter (module_chain st).2 = (counter st + 1)%Z.
Proof.
  unfold module_chain. rewrite bind_modify. cbn beta.
  match goal with
  | |- counter (?m ?s).2 = _ =>
      assert (Hp : preserves (unchanged counter) m);
        [preserves_steps|exact (Hp s)]
  end.
Qed.

Lemma one_iteration_counter st :
  counter (one_iteration st).2 = (counter st + 1)%Z.
Proof.
  unfold one_iteration, bind. pose proof (module_chain_counter st) as Hc.
  destruct (module_chain st) as [[tx|e|] st1]; cbn in Hc; [|done..].
  unfold update_res_var_dict.
  destruct (update_entries tx (res_var_dict st1) (env st1)) as [[ru d] w].
  destruct ru as [[]|e|]; [|done..].
  by rewrite compute_obj_global_state.
Qed.

Lemma solve_nonlinear_counter point (vec : vectors) st :
  counter (solve_nonlinear model_subsystems point vec st).2
  = (counter st + 1)%Z.
Proof.
  cbn [solve_nonlinear model_subsystems].
  unfold bind at 1. unfold objective_compute, bind, emit, modify, gets, ret.
  cbn. set (st0 := set_design_var_dict _ _).
  pose proof (one_iteration_counter st0) as Hc.
  destruct (one_iteration st0) as [[x|e|] st1]; cbn in Hc; [|done..].
  destruct (set_outputs (res_var_dict st1) vec.2); done.
Qed.

Lemma drive_counter (fuel : nat) : forall drv seen vec st,
  exists evs,
    trace (drive fuel drv model_subsystems seen vec st).2 = trace st ++ evs
    /\ counter (drive fuel drv model_subsystems seen vec st).2
       = (counter st + Z.of_nat (objective_count evs))%Z.
Proof.
  induction fuel as [|fuel IH]; intros drv seen vec st.
  - exists []. cbn. rewrite app_nil_r. split; [done|lia].
  - cbn [drive]. destruct (driver_next drv seen) as [point|].
    2:{ exists []. cbn. rewrite app_nil_r. split; [done|lia]. }
    unfold bind.
    pose proof (solve_nonlinear_counter point vec st) as Hc.
    destruct (solve_nonlinear model_subsystems point vec st) as [r1 st1]
      eqn:Hstep.
    cbn in Hc.
    apply solve_nonlinear_effect in Hstep
      as (_ & _ & [(Hr1 & Htr & _)|(Htr & _ & x & c & -> & _)]).
    + exists [ObjectiveComputed].
      destruct r1; [done|cbn; split; [done|lia]..].
    + destruct (IH drv (seen ++ [(<[Rt_objective (Rt st) := x]> vec.1, c)])
                  (<[Rt_objective (Rt st) := x]> vec.1, c) st1)
        as (evs & Htr' & Hc').
      exists ([ObjectiveComputed; ConstraintComputed] ++ evs).
      split; [by rewrite Htr', Htr, <- app_assoc|].
      rewrite Hc', Hc. cbn [app objective_count]. lia.
Qed.

(** X10: over a whole run of [run_routine], whether it returns or raises,
    some number [n] of objective evaluations was started: the call counter
    has grown by [n], every design history has gained exactly [n] values,
    no result history has gained more than [n], and exactly [n] when the
    run returns; in the trace every constraint compute follows an objective
    compute of its own. *)
Theorem run_routine_counts (st : state) (r : outcome unit) (st' : state) :
  run_routine st = (r, st') ->
  exists n evs,
    counter st' = (counter st + Z.of_nat n)%Z
    /\ grown (eq n) (design_histories st) (design_histories st')
    /\ grown (fun k => k <= n) (res_histories st) (res_histories st')
    /\ (is_return r = true ->
        grown (eq n) (res_histories st) (res_histories st'))
    /\ trace st' = trace st ++ evs
    /\ objective_count evs = n
    /\ ordered false evs = true.
Proof.
  intros Hrun.
  apply run_routine_drive in Hrun
    as (fuel & drv & vec & rd & st2 & Hd & Hret & _ & w & ->).
  destruct (drive_counter fuel drv [] vec st) as (evs' & Htr' & Hcnt').
  rewrite Hd in Htr', Hcnt'. cbn in Htr', Hcnt'.
  apply drive_effect in Hd
    as (_ & evs & Htr & Hord & Hle & Hdes & Hres & Hok).
  assert (evs' = evs) as -> by (rewrite Htr in Htr'; by apply app_inv_head in Htr').
  exists (objective_count evs), evs.
  split; [done|]. split; [done|]. split; [done|].
  split; [|done].
  intros Hr. destruct rd as [seen|e|]; [|by specialize (Hret Hr)..].
  by destruct (Hok seen eq_refl).
Qed.

End IterationEdges.

(** In the small setting the objective ["cl/cd"] comes out as -5.0, from
    the values 0.5 and 0.1 read in the iteration. *)
Lemma objective_output_sample :
  exists (outputs' : gmap string float) x,
    sample_objective_compute.1 = Return outputs'
    /\ compute_obj "cl/cd"
         (@res_var_dict (sample false) sample_objective_compute.2)
       = Return x
    /\ outputs' !! "cl/cd" = Some x
    /\ x = (-5)%float.
Proof.
  pose proof (surjective_pairing sample_objective_compute) as Hc.
  assert (Hv : match sample_objective_compute.1 with
               | Return o => o !! "cl/cd"
               | _ => None
               end = Some (-5)%float) by (vm_compute; reflexivity).
  destruct sample_objective_compute.1 as [outputs'|e|];
    [|discriminate Hv..].
  destruct (@objective_output (sample false) _ _ _ _ _ Hc)
    as (x & Hco & Hx & _).
  exists outputs', x. split; [done|]. split; [exact Hco|].
  split; [exact Hx|]. cbn in Hx. congruence.
Defined.

(** The run of the small setting: two evaluations. *)
Lemma run_routine_counts_sample :
  @counter (sample false) sample_run_routine.2 = 2%Z
  /\ histories dv_listval (@design_var_dict (sample false) sample_run_routine.2)
     = [("span", [30; 31; 31])]%float
  /\ exists n evs,
       @counter (sample false) sample_run_routine.2 = (0 + Z.of_nat n)%Z
       /\ grown (eq n)
            (@design_histories (sample false) (sample_state false "Optim"))
            (@design_histories (sample false) sample_run_routine.2)
       /\ @trace (sample false) sample_run_routine.2 = [] ++ evs
       /\ objective_count evs = n.
Proof.
  split; [vm_compute; reflexivity|]. split; [vm_compute; reflexivity|].
  destruct (@run_routine_counts (sample false) (sample_state false "Optim")
              sample_run_routine.1 sample_run_routine.2
              (surjective_pairing _))
    as (n & evs & Hc & Hd & _ & _ & Htr & Hcount & _).
  exists n, evs. repeat split; assumption.
Defined.

Section RunStability.
Context `{C : Collaborators}.
Local Open Scope pym_scope.

Lemma design_shape_append inputs (d : odict design_var) :
  design_shape (append_inputs inputs d) = design_shape d.
Proof.
  unfold design_shape, append_inputs. rewrite map_map.
  by apply map_ext.
Qed.

Lemma update_entries_shape tx (d : odict res_var) : forall w,
  res_shape (update_entries tx d w).1.2 = res_shape d.
Proof.
  induction d as [|[key rv] d IH]; intros w; [done|]. cbn [update_entries].
  destruct (read_result tx (rv_getcommand rv) w) as [[x|e|] w1]; [|done..].
  specialize (IH w1).
  destruct (update_entries tx d w1) as [[r1 d1] w2]. cbn in *.
  by rewrite IH.
Qed.

Lemma run_stable_Rt : run_stable Rt.
Proof.
  repeat split; try done. intros st tx. unfold update_res_var_dict.
  by destruct (update_entries tx (res_var_dict st) (env st)) as [[r d] w].
Qed.

Lemma run_stable_design_shape :
  run_stable (fun st => design_shape (design_var_dict st)).
Proof.
  repeat split; try done.
  - intros st inputs. apply design_shape_append.
  - intros st tx. unfold update_res_var_dict.
    by destruct (update_entries tx (res_var_dict st) (env st)) as [[r d] w].
Qed.

Lemma run_stable_res_shape :
  run_stable (fun st => res_shape (res_var_dict st)).
Proof.
  repeat split; try done. intros st tx. unfold update_res_var_dict.
  pose proof (update_entries_shape tx (res_var_dict st) (env st)) as Hs.
  by destruct (update_entries tx (res_var_dict st) (env st)) as [[r d] w].
Qed.

Context {X : Type} (f : state -> X) (Hf : run_stable f).

Lemma stable_one_iteration : preserves (unchanged f) one_iteration.
Proof.
  destruct Hf as (Hw & Hn & _ & _ & Hu). unfold one_iteration.
  apply preserves_bind; [apply _| |intros tx].
  - by apply module_chain_unchanged.
  - apply preserves_bind; [apply _| |intros _].
    + intros st. apply Hu.
    + intros st. by rewrite compute_obj_global_state.
Qed.

Lemma stable_objective_compute inputs (outputs : gmap string float) :
  preserves (unchanged f) (objective_compute inputs outputs).
Proof.
  pose proof stable_one_iteration as Hit.
  destruct Hf as (_ & _ & Ht & Hd & _). unfold objective_compute.
  apply preserves_bind; [apply _| |intros _].
  { intros st. apply Ht. }
  apply preserves_bind; [apply _| |intros _].
  { intros st. apply Hd. }
  apply preserves_bind; [apply _|exact Hit|intros r].
  preserves_steps.
Qed.

Lemma stable_constraint_compute (outputs : gmap string float) :
  preserves (unchanged f) (constraint_compute outputs).
Proof.
  destruct Hf as (_ & _ & Ht & _). intros st.
  rewrite constraint_compute_effect. apply Ht.
Qed.

Lemma stable_solve_nonlinear subs : forall point (vec : vectors),
  preserves (unchanged f) (solve_nonlinear subs point vec).
Proof.
  induction subs as [|[name c] subs IH]; intros point vec; cbn.
  - apply preserves_ret, _.
  - destruct c; [apply IH| |].
    + apply preserves_bind; [apply _|apply stable_objective_compute|].
      intros o. apply IH.
    + apply preserves_bind; [apply _|apply stable_constraint_compute|].
      intros o. apply IH.
Qed.

Lemma stable_drive fuel : forall drv subs seen (vec : vectors),
  preserves (unchanged f) (drive fuel drv subs seen vec).
Proof.
  induction fuel as [|fuel IH]; intros drv subs seen vec; cbn.
  - apply preserves_ret, _.
  - destruct (driver_next drv seen); [|apply preserves_ret, _].
    apply preserves_bind; [apply _|apply stable_solve_nonlinear|].
    intros vec'. apply IH.
Qed.

Lemma stable_run_routine : preserves (unchanged f) run_routine.
Proof.
  intros st. destruct (run_routine st) as [r st'] eqn:Hrun.
  apply run_routine_drive in Hrun
    as (fuel & drv & vec & rd & st2 & Hd & _ & _ & w & ->).
  pose proof (stable_drive fuel drv model_subsystems [] vec st) as Hs.
  rewrite Hd in Hs. destruct Hf as (Hw & _). unfold unchanged in *. cbn in *.
  by rewrite Hw.
Qed.

End RunStability.

Section RunShape.
Context `{C : Collaborators}.

(** X11: a run of [run_routine] changes nothing but histories, the call
    counter and the outer world: the Routine is as before, and both
    dictionaries have the same keys in the same order with the same
    display names, bounds and commands, whether the run returns or
    raises. *)
Theorem run_routine_keeps_shape (st : state) (r : outcome unit)
    (st' : state) :
  run_routine st = (r, st') ->
  Rt st' = Rt st
  /\ design_shape (design_var_dict st') = design_shape (design_var_dict st)
  /\ res_shape (res_var_dict st') = res_shape (res_var_dict st).
Proof.
  intros Hrun.
  pose proof (stable_run_routine _ run_stable_Rt st) as H1.
  pose proof (stable_run_routine _ run_stable_design_shape st) as H2.
  pose proof (stable_run_routine _ run_stable_res_shape st) as H3.
  rewrite Hrun in H1, H2, H3. done.
Qed.

End RunShape.

Lemma run_routine_keeps_shape_sample :
  design_shape (@design_var_dict (sample false) sample_run_routine.2)
  = [("span", "span", 20, 40, "set", "get")]%float
  /\ res_shape (@res_var_dict (sample false) sample_run_routine.2)
     = res_shape sample_res.
Proof.
  destruct (@run_routine_keeps_shape (sample false)
              (sample_state false "Optim") sample_run_routine.1
              sample_run_routine.2 (surjective_pairing _))
    as (_ & Hd & Hr).
  split; [exact Hd|exact Hr].
Defined.

Section EmptyModuleList.
Context `{C : Collaborators}.
Local Open Scope pym_scope.

Lemma module_chain_needs_module st tx st' :
  module_chain st = (Return tx, st') -> Rt_modules (Rt st) <> [].
Proof.
  intros Hrun Hmod. revert Hrun.
  unfold module_chain, bind, modify, call, gets, lift, ret. cbn.
  repeat match goal with
         | |- context [match ?c with (_, _) => _ end] =>
             match type of c with
             | (outcome _ * world)%type =>
                 destruct c as [[?|?|] ?]; cbn; try done
             end
         | |- context [if ?b then _ else _] => destruct b; cbn
         end;
    by rewrite Hmod.
Qed.

(** X12: with an empty module list an iteration cannot succeed:
    [one_iteration] never returns a value (its [Rt.modules[0]] raises
    [IndexError] once the CPACS file is updated, unless a collaborator has
    failed before), the result dictionary is left as it is, and the call
    counter is advanced all the same. *)
Theorem one_iteration_no_modules (st : state) :
  Rt_modules (Rt st) = [] ->
  is_return (one_iteration st).1 = false
  /\ res_var_dict (one_iteration st).2 = res_var_dict st
  /\ counter (one_iteration st).2 = (counter st + 1)%Z.
Proof.
  intros Hmod. split; [|split; [|apply one_iteration_counter]].
  - unfold one_iteration, bind.
    destruct (module_chain st) as [[tx|e|] st1] eqn:Hchain; [|done..].
    by destruct (module_chain_needs_module _ _ _ Hchain).
  - unfold one_iteration, bind.
    pose proof (module_chain_res_var_dict st) as Hres.
    destruct (module_chain st) as [[tx|e|] st1] eqn:Hchain; [|done..].
    by destruct (module_chain_needs_module _ _ _ Hchain).
Qed.

End EmptyModuleList.

Lemma one_iteration_no_modules_sample :
  sample_no_modules.1 = Raise IndexError
  /\ is_return sample_no_modules.1 = false
  /\ @res_var_dict (sample false) sample_no_modules.2 = sample_res
  /\ @counter (sample false) sample_no_modules.2 = 1%Z.
Proof.
  split; [vm_compute; reflexivity|].
  exact (@one_iteration_no_modules (sample false)
           (sample_state_with sample_design sample_res []) eq_refl).
Defined.

(** ** Further properties of the problem [run_routine] builds *)

Section DesignLinks.
Context `{C : Collaborators}.

Lemma connect_design_start (d : odict design_var) : forall d',
  design_start d = design_start d' ->
  connect_design d = connect_design d'.
Proof.
  induction d as [|[key dv] d IH]; intros [|[key' dv'] d'] Heq; try done.
  destruct dv as [n l lo hi sc gc], dv' as [n' l' lo' hi' sc' gc'].
  cbn in Heq. injection Heq as Hkey Hhead Hlo Hhi Hrest. subst.
  cbn [connect_design dv_listval dv_minval dv_maxval].
  rewrite (IH _ Hrest).
  by destruct l as [|x l], l' as [|x' l']; cbn in Hhead; simplify_eq.
Qed.

(** X13: of a design variable, the problem [run_routine] builds depends
    on the key, the bounds and the first element of the history only:
    two design dictionaries that agree on these make the same calls to
    the framework and give the same problem, whatever their display
    names, commands and later history elements. *)
Theorem connect_design_first_value (rt : Routine) (rvd : odict res_var)
    (d d' : odict design_var) :
  design_start d = design_start d' ->
  connect_design d = connect_design d'
  /\ build_problem rt d rvd = build_problem rt d' rvd.
Proof.
  intros Heq. pose proof (connect_design_start _ _ Heq) as Hc.
  split; [done|]. unfold build_problem. by rewrite Hc.
Qed.

Lemma read_error_no_norm key dv e : read_error dv = Some e -> ~ has_norm (key, dv).
Proof.
  unfold read_error. intros He (x & n & Hx & Hn). cbn in Hx.
  rewrite Hx, Hn in He. done.
Qed.

Lemma connect_design_stops pre key dv post e log :
  Forall has_norm pre ->
  read_error dv = Some e ->
  accepts_all log (design_calls pre) ->
  connect_design (pre ++ (key, dv) :: post) log
  = (Raise e, log ++ design_calls pre).
Proof.
  intros Hpre He Hacc. rewrite connect_design_app.
  rewrite (reg_bind_return _ _ _ tt (log ++ design_calls pre)).
  2:{ by rewrite (connect_design_calls _ Hpre),
               (register_all_accepted _ _ Hacc). }
  unfold read_error in He. cbn. unfold reg_bind, reg_lift.
  destruct (dv_listval dv) as [|x l]; cbn in *; [by injection He as <-|].
  destruct (norm x) as [n|e'|]; [done| |done]. by injection He as <-.
Qed.

(** X14: a design variable that cannot be read (its history is empty, or
    the integer conversion of the norm of its first value raises) stops
    [run_routine] in the loop over the design variables: no value is
    returned, and the globals and the world are as before, so that no
    component was set up and nothing was evaluated.  The exception is the
    one of the first such variable ([IndexError] for an empty history, the
    error of [int] otherwise) once the driver is chosen and the framework
    has accepted the calls for the variables before it. *)
Theorem run_routine_empty_design_history (st : state)
    (pre : odict design_var) (key : string) (dv : design_var)
    (post : odict design_var) (e : exn) :
  design_var_dict st = pre ++ (key, dv) :: post ->
  read_error dv = Some e ->
  is_return (run_routine st).1 = false
  /\ (run_routine st).2 = st
  /\ (forall chosen log0,
        choose_driver (Rt st) [] = (Return chosen, log0) ->
        Forall has_norm pre ->
        accepts_all log0 (design_calls pre) ->
        (run_routine st).1 = Raise e).
Proof.
  intros Hd He.
  destruct (run_routine_build st) as [Hfail _]. cbv zeta in Hfail.
  assert (Hnot : is_return (build_problem (Rt st) (design_var_dict st)
                              (res_var_dict st) []).1 = false).
  { destruct (build_problem _ _ _ []) as [[p|e'|] log] eqn:Hb; [|done..].
    apply build_problem_inv in Hb as (log0 & log1 & _ & _ & Hc & _).
    apply connect_design_returns in Hc. rewrite Hd in Hc.
    apply Forall_app in Hc as [_ [Hn _]%Forall_cons].
    by destruct (read_error_no_norm key dv e He). }
  destruct (Hfail Hnot) as (Hr & Hst & Hexn).
  split; [done|]. split; [done|].
  intros chosen log0 Hc Hpre Hacc. apply Hexn.
  unfold build_problem. cbv zeta.
  rewrite (reg_bind_return _ _ _ _ _ Hc), Hd.
  by rewrite (reg_bind_raise _ _ _ e (log0 ++ design_calls pre))
    by (by apply connect_design_stops).
Qed.

End DesignLinks.

Lemma connect_design_first_value_sample :
  @connect_design (sample false) sample_design
  = @connect_design (sample false) sample_design_later
  /\ @build_problem (sample false)
       (mkRoutine "Optim" ["SU2Run"] "COBYLA" "cl/cd" "date")
       sample_design sample_res
     = @build_problem (sample false)
         (mkRoutine "Optim" ["SU2Run"] "COBYLA" "cl/cd" "date")
         sample_design_later sample_res.
Proof.
  exact (@connect_design_first_value (sample false)
           (mkRoutine "Optim" ["SU2Run"] "COBYLA" "cl/cd" "date")
           sample_res sample_design sample_design_later eq_refl).
Defined.

(** Behind a first design variable that is read and accepted, a variable
    without history ends the run in [IndexError], and one whose first
    value is no number in [ValueError], both with nothing changed. *)
Lemma run_routine_empty_design_history_sample :
  @run_routine (sample false) sample_second_no_history
  = (Raise IndexError, sample_second_no_history)
  /\ @run_routine (sample false)
       (sample_state_with
          [("span", DesignVar "span" [30; 31] 20 40 "" "");
           ("sweep", DesignVar "sweep" [nan] 0 1 "" "")]%float
          sample_res ["SU2Run"])
     = (Raise ValueError,
        sample_state_with
          [("span", DesignVar "span" [30; 31] 20 40 "" "");
           ("sweep", DesignVar "sweep" [nan] 0 1 "" "")]%float
          sample_res ["SU2Run"]).
Proof.
  assert (Hpre : Forall (@has_norm (sample false))
            [("span", DesignVar "span" [30; 31] 20 40 "" "")]%float).
  { repeat constructor. exists 30%float, 2%Z. split; reflexivity. }
  split.
  - destruct (@run_routine_empty_design_history (sample false)
                sample_second_no_history
                [("span", DesignVar "span" [30; 31] 20 40 "" "")]%float
                "sweep" (DesignVar "sweep" [] 0 1 "" "")%float [] IndexError
                eq_refl eq_refl) as (_ & Hst & Hexn).
    rewrite (surjective_pairing (run_routine _)), Hst.
    rewrite (Hexn _ _ eq_refl Hpre); [done|].
    cbn. repeat split; reflexivity.
  - destruct (@run_routine_empty_design_history (sample false)
                (sample_state_with
                   [("span", DesignVar "span" [30; 31] 20 40 "" "");
                    ("sweep", DesignVar "sweep" [nan] 0 1 "" "")]%float
                   sample_res ["SU2Run"])
                [("span", DesignVar "span" [30; 31] 20 40 "" "")]%float
                "sweep" (DesignVar "sweep" [nan] 0 1 "" "")%float [] ValueError
                eq_refl eq_refl) as (_ & Hst & Hexn).
    rewrite (surjective_pairing (run_routine _)), Hst.
    rewrite (Hexn _ _ eq_refl Hpre); [done|].
    cbn. repeat split; reflexivity.
Defined.

(** ** Further properties of [routine_setup] *)

Section Bootstrap.
Context `{C : Collaborators}.

(** X15: [routine_setup] never reads the dictionaries it finds: started
    with other dictionaries it ends in the same way, with the same
    Routine, world, counter and trace; and when it returns, that is once
    [init_dict] has replaced both dictionaries, in the same state. *)
Theorem routine_setup_discards_dicts (modules : list string)
    (routine_type : string) (dvd : odict design_var) (rvd : odict res_var)
    (st : state) :
  let run := routine_setup modules routine_type st in
  let run' := routine_setup modules routine_type
                (set_design_var_dict dvd (set_res_var_dict rvd st)) in
  run'.1 = run.1
  /\ Rt run'.2 = Rt run.2
  /\ env run'.2 = env run.2
  /\ counter run'.2 = counter run.2
  /\ trace run'.2 = trace run.2
  /\ (is_return run.1 = true -> run'.2 = run.2).
Proof.
  cbv zeta.
  unfold routine_setup, bind, modify, call, lift. cbn -[run_routine].
  destruct (now_strftime (env st)) as [[date|e|] w1]; cbn -[run_routine];
    [|done..].
  destruct (list_first modules) as [first_module|e|]; cbn -[run_routine];
    [|done..].
  destruct (get_toolinput_file_path first_module w1) as [[path|e|] w2];
    cbn -[run_routine]; [|done..].
  destruct (init_dict path w2) as [[dicts|e|] w3]; cbn -[run_routine];
    [|done..].
  destruct (copy_module_to_module first_module "out" "Optimisation" "initial"
              w3) as [[[]|e|] w4]; cbn -[run_routine]; [|done..].
  destruct (copy_module_to_module first_module "out" "CPACSUpdater" "in" w4)
    as [[[]|e|] w5]; cbn -[run_routine]; [|done..].
  done.
Qed.

(** X16: with an empty module list [routine_setup] stops at its
    [modules[0]]: it returns no value, the dictionaries, the counter and
    the trace are untouched, nothing was evaluated, and yet the Routine
    already holds the new type, the empty module list and the fixed
    driver and objective.  When the date could be taken the exception is
    [IndexError], and the date is stored as well. *)
Theorem routine_setup_no_modules (routine_type : string) (st : state) :
  let run := routine_setup [] routine_type st in
  is_return run.1 = false
  /\ design_var_dict run.2 = design_var_dict st
  /\ res_var_dict run.2 = res_var_dict st
  /\ counter run.2 = counter st
  /\ trace run.2 = trace st
  /\ Rt_type (Rt run.2) = routine_type
  /\ Rt_modules (Rt run.2) = []
  /\ forall date w, now_strftime (env st) = (Return date, w) ->
       run = (Raise IndexError,
              set_env w
                (set_Rt (mkRoutine routine_type [] "COBYLA" "cl/cd" date)
                   st)).
Proof.
  cbv zeta.
  unfold routine_setup, bind, modify, call, lift. cbn -[run_routine].
  destruct (now_strftime (env st)) as [[date|e|] w1]; cbn -[run_routine];
    repeat (split; [done|]); intros date' w'; by intros [= <- <-] || done.
Qed.

End Bootstrap.

Lemma routine_setup_discards_dicts_sample :
  (@routine_setup (sample false) ["SU2Run"] "Optim"
     (set_design_var_dict no_history_design
        (set_res_var_dict empty_history_dict (sample_state false "DoE")))).2
  = sample_setup.2.
Proof.
  destruct (@routine_setup_discards_dicts (sample false) ["SU2Run"] "Optim"
              no_history_design empty_history_dict (sample_state false "DoE"))
    as (_ & _ & _ & _ & _ & Hsame).
  apply Hsame. vm_compute. reflexivity.
Defined.

Lemma routine_setup_no_modules_sample :
  @routine_setup (sample false) [] "DoE" (sample_state false "Optim")
  = (Raise IndexError,
     @mkState (sample false)
       (mkRoutine "DoE" [] "COBYLA" "cl/cd" "2020-06-04_12-00-00")
       0 sample_design sample_res tt []).
Proof.
  destruct (@routine_setup_no_modules (sample false) "DoE"
              (sample_state false "Optim"))
    as (_ & _ & _ & _ & _ & _ & _ & Hrun).
  apply Hrun. reflexivity.
Defined.

(** ** Further properties of the module metadata *)

Section SpecsPaths.
Import Specs.

Lemma append_inj (prefix : string) : Inj (=) (=) (String.append prefix).
Proof.
  intros a b. induction prefix as [|c prefix IH]; cbn; [done|].
  intros [= Heq]. by apply IH.
Qed.

Lemma prefix_append (prefix rest : string) :
  String.prefix prefix (prefix +:+ rest) = true.
Proof.
  induction prefix as [|c prefix IH];
    [change (EmptyString +:+ rest) with rest; by destruct rest|].
  change (String c prefix +:+ rest) with (String c (prefix +:+ rest)).
  cbn [String.prefix].
  destruct (Ascii.ascii_dec c c) as [_|Hne]; [exact IH|by destruct Hne].
Qed.

(** X17: whatever the imported prefix, the six paths of the SkinFriction
    metadata lie under it and are pairwise distinct: no input of the
    module is one of its outputs, and no two variables share a path. *)
Theorem skinfriction_paths (prefix : string) :
  Forall (fun e => String.prefix prefix (cpacs_path e) = true)
    (inputs (skinfriction prefix) ++ outputs (skinfriction prefix))
  /\ NoDup (map cpacs_path (inputs (skinfriction prefix)
                            ++ outputs (skinfriction prefix))).
Proof.
  split.
  - repeat constructor; apply prefix_append.
  - change (NoDup (String.append prefix <$>
              ["/geometry/analysis/wettedArea"; "/ranges/cruiseSpeed";
               "/ranges/cruiseAltitude"; "/aerodynamics/su2/cd0";
               "/geometry/analysis/wingArea"; "/geometry/analysis/wingSpan"])).
    apply @NoDup_fmap_2; [apply append_inj|compute_done].
Qed.

End SpecsPaths.
